(** * Schedule metadata of the Halide compiler (src/Schedule.cpp)

    A shallow embedding of [ScheduleContents], the [Schedule] handle and
    the operations defined in Schedule.cpp: the accessors,
    [add_specialization], [add_wrapper], the deep-copy engine, and the
    mutate / accept traversals.  Schedule records live in a store that is
    indexed by addresses; a handle ([IntrusivePtr]) is an optional address,
    so that handle copies alias and in-place updates are shared. *)

From Stdlib Require Import Sorting.Mergesort Structures.Orders.
From stdpp Require Import base option list strings gmap.

Set Default Proof Using "Type".

(** ** Handles *)

(** Addresses of heap-allocated records. *)
Abbreviation loc := positive.

(** [IntrusivePtr<T>]: either undefined ([None], the null handle) or the
    address of a record.  Copying the handle copies the address. *)
Abbreviation IntrusivePtr := (option loc).

Definition defined {A} (p : option A) : bool :=
  match p with Some _ => true | None => false end.

(** [DeepCopyMap] (line 9): original stage to its clone, keyed by handle
    identity.  The map is only looked up and assigned, never iterated. *)
Abbreviation DeepCopyMap := (gmap IntrusivePtr IntrusivePtr).

(** The wrapper map of a record, [std::map<std::string, IntrusivePtr<FunctionContents>>]. *)
Abbreviation WrapperMap := (gmap string IntrusivePtr).

(** [std::map] iterates in increasing key order, and [std::string] keys
    compare lexicographically. *)
Module WrapperKeyOrder <: TotalLeBool.
Definition t : Type := string * IntrusivePtr.
Definition leb (x y : t) : bool := String.leb (fst x) (fst y).
Theorem leb_total : ∀ x y, leb x y = true ∨ leb y x = true.
Proof. intros x y. apply String.leb_total. Qed.
End WrapperKeyOrder.

Module WrapperSort := Sort WrapperKeyOrder.

(** The entries of a wrapper map in iteration order. *)
Definition wrapper_entries (w : WrapperMap) : list (string * IntrusivePtr) :=
  WrapperSort.sort (map_to_list w).

(** ** The collaborators of Schedule.cpp

    The IR, the loop-level and dimension descriptors and the stage store
    are declared in headers that are not part of the sources at hand; they
    are parameters of the development. *)
Class Collaborators := {
  (** the node an [Expr] handle refers to (IR.h) *)
  IRNode : Type;
  (** [LoopLevel] and its default-constructed value (Schedule.h) *)
  LoopLevel : Type;
  LoopLevel_default : LoopLevel;
  (** [Dim] and [StorageDim] descriptors (Schedule.h) *)
  Dim : Type;
  StorageDim : Type;
  (** whatever the stage side of the graph keeps: the [FunctionContents]
      records and everything they own *)
  FuncStore : Type;
  (** the stage-level clone primitive declared at lines 11-13 and defined
      elsewhere; it receives the memo map by reference *)
  deep_copy_function_contents_helper :
    IntrusivePtr → DeepCopyMap → FuncStore → IntrusivePtr * DeepCopyMap * FuncStore;
}.

(** [Expr]: a handle on an immutable IR node; it may be undefined. *)
Abbreviation Expr := (option IRNode).

(** Modelled from the spec: [ReductionDomain] (Reduction.h) is a
    reference-counted handle with its own deep-copy and mutate
    primitives; the record behind it holds the domain's own expressions. *)
Abbreviation ReductionDomain := IntrusivePtr.
Abbreviation ReductionDomainContents := (list Expr).

Section Model.
Context `{Collaborators}.


(** Modelled from the spec: the declaration of [Split] (Schedule.h) is not
    among the sources.  A split names the variable it splits and the
    outer and inner variables, and carries the factor expression, the only
    field Schedule.cpp reads. *)
Record Split := {
  old_var : string;
  outer : string;
  inner : string;
  factor : Expr;
}.

(** Modelled from the spec: [Bound] (Schedule.h), a per-dimension
    constraint whose [min] and [extent] may each be undefined. *)
Record Bound := {
  var : string;
  min : Expr;
  extent : Expr;
}.

(** [Specialization] (Schedule.h) with the two members that Schedule.cpp
    uses: the condition and the handle of the nested schedule record. *)
Record Specialization := {
  condition : Expr;
  schedule : IntrusivePtr;
}.


(** [struct ScheduleContents] (lines 17-32), without the reference count. *)
Record ScheduleContents := {
  store_level : LoopLevel;
  compute_level : LoopLevel;
  splits : list Split;
  dims : list Dim;
  storage_dims : list StorageDim;
  bounds : list Bound;
  specializations : list Specialization;
  wrappers : WrapperMap;
  reduction_domain : ReductionDomain;
  memoized : bool;
  touched : bool;
  allow_race_conditions : bool;
}.

(** The constructor [ScheduleContents()] (line 32): the three flags are
    false and every other member is default-constructed. *)
Definition ScheduleContents_new : ScheduleContents := {|
  store_level := LoopLevel_default;
  compute_level := LoopLevel_default;
  splits := [];
  dims := [];
  storage_dims := [];
  bounds := [];
  specializations := [];
  wrappers := ∅;
  reduction_domain := None;
  memoized := false;
  touched := false;
  allow_race_conditions := false;
|}.

(** Field assignments. *)
Definition set_store_level (v : LoopLevel) (c : ScheduleContents) :=
  {| store_level := v; compute_level := compute_level c; splits := splits c;
     dims := dims c; storage_dims := storage_dims c; bounds := bounds c;
     specializations := specializations c; wrappers := wrappers c;
     reduction_domain := reduction_domain c; memoized := memoized c;
     touched := touched c; allow_race_conditions := allow_race_conditions c |}.
Definition set_compute_level (v : LoopLevel) (c : ScheduleContents) :=
  {| store_level := store_level c; compute_level := v; splits := splits c;
     dims := dims c; storage_dims := storage_dims c; bounds := bounds c;
     specializations := specializations c; wrappers := wrappers c;
     reduction_domain := reduction_domain c; memoized := memoized c;
     touched := touched c; allow_race_conditions := allow_race_conditions c |}.
Definition set_splits (v : list Split) (c : ScheduleContents) :=
  {| store_level := store_level c; compute_level := compute_level c; splits := v;
     dims := dims c; storage_dims := storage_dims c; bounds := bounds c;
     specializations := specializations c; wrappers := wrappers c;
     reduction_domain := reduction_domain c; memoized := memoized c;
     touched := touched c; allow_race_conditions := allow_race_conditions c |}.
Definition set_dims (v : list Dim) (c : ScheduleContents) :=
  {| store_level := store_level c; compute_level := compute_level c; splits := splits c;
     dims := v; storage_dims := storage_dims c; bounds := bounds c;
     specializations := specializations c; wrappers := wrappers c;
     reduction_domain := reduction_domain c; memoized := memoized c;
     touched := touched c; allow_race_conditions := allow_race_conditions c |}.
Definition set_storage_dims (v : list StorageDim) (c : ScheduleContents) :=
  {| store_level := store_level c; compute_level := compute_level c; splits := splits c;
     dims := dims c; storage_dims := v; bounds := bounds c;
     specializations := specializations c; wrappers := wrappers c;
     reduction_domain := reduction_domain c; memoized := memoized c;
     touched := touched c; allow_race_conditions := allow_race_conditions c |}.
Definition set_bounds (v : list Bound) (c : ScheduleContents) :=
  {| store_level := store_level c; compute_level := compute_level c; splits := splits c;
     dims := dims c; storage_dims := storage_dims c; bounds := v;
     specializations := specializations c; wrappers := wrappers c;
     reduction_domain := reduction_domain c; memoized := memoized c;
     touched := touched c; allow_race_conditions := allow_race_conditions c |}.
Definition set_specializations (v : list Specialization) (c : ScheduleContents) :=
  {| store_level := store_level c; compute_level := compute_level c; splits := splits c;
     dims := dims c; storage_dims := storage_dims c; bounds := bounds c;
     specializations := v; wrappers := wrappers c;
     reduction_domain := reduction_domain c; memoized := memoized c;
     touched := touched c; allow_race_conditions := allow_race_conditions c |}.
Definition set_wrappers (v : WrapperMap) (c : ScheduleContents) :=
  {| store_level := store_level c; compute_level := compute_level c; splits := splits c;
     dims := dims c; storage_dims := storage_dims c; bounds := bounds c;
     specializations := specializations c; wrappers := v;
     reduction_domain := reduction_domain c; memoized := memoized c;
     touched := touched c; allow_race_conditions := allow_race_conditions c |}.
Definition set_reduction_domain_field (v : ReductionDomain) (c : ScheduleContents) :=
  {| store_level := store_level c; compute_level := compute_level c; splits := splits c;
     dims := dims c; storage_dims := storage_dims c; bounds := bounds c;
     specializations := specializations c; wrappers := wrappers c;
     reduction_domain := v; memoized := memoized c;
     touched := touched c; allow_race_conditions := allow_race_conditions c |}.
Definition set_memoized (v : bool) (c : ScheduleContents) :=
  {| store_level := store_level c; compute_level := compute_level c; splits := splits c;
     dims := dims c; storage_dims := storage_dims c; bounds := bounds c;
     specializations := specializations c; wrappers := wrappers c;
     reduction_domain := reduction_domain c; memoized := v;
     touched := touched c; allow_race_conditions := allow_race_conditions c |}.
Definition set_touched (v : bool) (c : ScheduleContents) :=
  {| store_level := store_level c; compute_level := compute_level c; splits := splits c;
     dims := dims c; storage_dims := storage_dims c; bounds := bounds c;
     specializations := specializations c; wrappers := wrappers c;
     reduction_domain := reduction_domain c; memoized := memoized c;
     touched := v; allow_race_conditions := allow_race_conditions c |}.
Definition set_allow_race_conditions (v : bool) (c : ScheduleContents) :=
  {| store_level := store_level c; compute_level := compute_level c; splits := splits c;
     dims := dims c; storage_dims := storage_dims c; bounds := bounds c;
     specializations := specializations c; wrappers := wrappers c;
     reduction_domain := reduction_domain c; memoized := memoized c;
     touched := touched c; allow_race_conditions := v |}.

(** The ten assignments of lines 83-92 and of lines 189-198: the record
    [into] receives the placement, the splits, dims, storage dims and
    bounds and the three flags of [from], and the reduction domain [rd];
    its specializations and wrappers are not assigned. *)
Definition assign_fields (from : ScheduleContents) (rd : ReductionDomain)
    (into : ScheduleContents) : ScheduleContents :=
  {| store_level := store_level from;
     compute_level := compute_level from;
     splits := splits from;
     dims := dims from;
     storage_dims := storage_dims from;
     bounds := bounds from;
     specializations := specializations into;
     wrappers := wrappers into;
     reduction_domain := rd;
     memoized := memoized from;
     touched := touched from;
     allow_race_conditions := allow_race_conditions from |}.

(** ** The store *)

(** Diagnostics raised by Schedule.cpp. *)
Inductive Diagnostic :=
  | Replacing_global_wrapper (f : string)        (* user_warning, line 212 *)
  | Wrapper_redefinition (f : string)            (* internal_error, line 215 *)
  | Cannot_deep_copy_undefined_Schedule          (* internal_assert, line 126 *)
  | Wrapper_count_mismatch                       (* internal_assert, line 106 *)
  | Specialization_schedule_undefined.           (* internal_assert, line 53 *)

(** Everything the code can reach: the schedule records and the
    reduction-domain records with their allocation pointers, the stage
    side, and the warnings printed so far.  Records are never reclaimed:
    the reference count and [destroy] (lines 61-69) are left out. *)
Record Store := {
  schedules : gmap loc ScheduleContents;
  next_schedule : loc;
  rdoms : gmap loc ReductionDomainContents;
  next_rdom : loc;
  stages : FuncStore;
  warnings : list Diagnostic;
}.

Definition with_schedules (h : gmap loc ScheduleContents) (σ : Store) : Store :=
  {| schedules := h; next_schedule := next_schedule σ; rdoms := rdoms σ;
     next_rdom := next_rdom σ; stages := stages σ; warnings := warnings σ |}.
Definition with_rdoms (h : gmap loc ReductionDomainContents) (σ : Store) : Store :=
  {| schedules := schedules σ; next_schedule := next_schedule σ; rdoms := h;
     next_rdom := next_rdom σ; stages := stages σ; warnings := warnings σ |}.
Definition with_stages (f : FuncStore) (σ : Store) : Store :=
  {| schedules := schedules σ; next_schedule := next_schedule σ; rdoms := rdoms σ;
     next_rdom := next_rdom σ; stages := f; warnings := warnings σ |}.

(** Outcome of running a piece of Schedule.cpp from a store. *)
Inductive Result (A : Type) :=
  | Ok (a : A) (σ : Store)
    (** normal return *)
  | Fatal (d : Diagnostic) (σ : Store)
    (** [internal_error] or a failed [internal_assert]: the compilation is
        aborted; [σ] is the store at that point *)
  | Undefined
    (** undefined behaviour: a null or dangling handle is dereferenced *)
  | OutOfFuel.
    (** the recursion budget of the model ran out *)
Arguments Ok {A} a σ.
Arguments Fatal {A} d σ.
Arguments Undefined {A}.
Arguments OutOfFuel {A}.

Definition Prog (A : Type) := Store → Result A.

#[global] Instance Prog_ret : MRet Prog := λ A a σ, Ok a σ.
#[global] Instance Prog_bind : MBind Prog := λ A B k m σ,
  match m σ with
  | Ok a σ' => k a σ'
  | Fatal d σ' => Fatal d σ'
  | Undefined => Undefined
  | OutOfFuel => OutOfFuel
  end.

(** Modelled from the spec: the macros of Error.h are not among the
    sources.  [internal_error] raises a fatal diagnostic that aborts the
    compilation at once. *)
Definition fatal {A} (d : Diagnostic) : Prog A := λ σ, Fatal d σ.

(** Undefined behaviour. *)
Definition undefined_behaviour {A} : Prog A := λ _, Undefined.

(** Modelled from the spec: [internal_assert(b)] is fatal when [b] does
    not hold. *)
Definition internal_assert (b : bool) (d : Diagnostic) : Prog unit :=
  if b then mret tt else fatal d.

(** Modelled from the spec: [user_warning] prints a warning that is not
    fatal, and the compilation goes on. *)
Definition user_warning (d : Diagnostic) : Prog unit := λ σ,
  Ok tt {| schedules := schedules σ; next_schedule := next_schedule σ;
           rdoms := rdoms σ; next_rdom := next_rdom σ; stages := stages σ;
           warnings := warnings σ ++ [d] |}.

Definition get_store : Prog Store := λ σ, Ok σ σ.

(** Dereferencing a handle on a schedule record. *)
Definition deref (p : IntrusivePtr) : Prog ScheduleContents := λ σ,
  match p with
  | Some l => match schedules σ !! l with
              | Some c => Ok c σ
              | None => Undefined
              end
  | None => Undefined
  end.

(** Writing through a handle. *)
Definition store (p : IntrusivePtr) (c : ScheduleContents) : Prog unit := λ σ,
  match p with
  | Some l => match schedules σ !! l with
              | Some _ => Ok tt (with_schedules (<[l := c]> (schedules σ)) σ)
              | None => Undefined
              end
  | None => Undefined
  end.

(** [new ScheduleContents]: a record at a fresh address. *)
Definition new_ScheduleContents : Prog IntrusivePtr := λ σ,
  let l := next_schedule σ in
  Ok (Some l)
     {| schedules := <[l := ScheduleContents_new]> (schedules σ);
        next_schedule := Pos.succ l;
        rdoms := rdoms σ; next_rdom := next_rdom σ; stages := stages σ;
        warnings := warnings σ |}.

End Model.

Arguments Ok {_ A} a σ.
Arguments Fatal {_ A} d σ.
Arguments Undefined {_ A}.
Arguments OutOfFuel {_ A}.

(** ** The operations of Schedule.cpp *)

Section Operations.
Context `{Collaborators}.

(** A loop [for (x : xs) body], threading what the body updates. *)
Fixpoint for_each {A S : Type} (body : S → A → Prog S) (xs : list A) (s : S) : Prog S :=
  match xs with
  | [] => mret s
  | x :: xs' => s' ← body s x; for_each body xs' s'
  end.

(** The [Schedule] handle: its only member is [contents]. *)
Record Schedule := { contents : IntrusivePtr }.

(** [Schedule::Schedule()] (line 120). *)
Definition Schedule_new : Prog Schedule :=
  p ← new_ScheduleContents; mret {| contents := p |}.

(** The copy of a handle ([Schedule S2 = S]): the member [contents] is
    copied, so both handles refer to one record. *)
Definition Schedule_copy (this : Schedule) : Schedule :=
  {| contents := contents this |}.

(** *** Reduction domains *)

(** Modelled from the spec: the constructor of a reduction domain over
    the given expressions (Reduction.cpp is not among the sources). *)
Definition ReductionDomain_new (es : ReductionDomainContents) : Prog ReductionDomain := λ σ,
  let r := next_rdom σ in
  Ok (Some r)
     {| schedules := schedules σ; next_schedule := next_schedule σ;
        rdoms := <[r := es]> (rdoms σ); next_rdom := Pos.succ r;
        stages := stages σ; warnings := warnings σ |}.

(** Modelled from the spec: [ReductionDomain::deep_copy], the domain's own
    deep-copy primitive.  An undefined domain copies to an undefined one;
    otherwise a new record receives the expressions. *)
Definition ReductionDomain_deep_copy (rd : ReductionDomain) : Prog ReductionDomain :=
  match rd with
  | None => mret None
  | Some r => λ σ,
      match rdoms σ !! r with
      | Some es => ReductionDomain_new es σ
      | None => Undefined
      end
  end.

(** *** mutate *)

Section Mutate.
(** An [IRMutator] is an object with state of its own; [mutate] returns
    the rewritten expression and the mutator's next state. *)
Context {M : Type} (mutator_mutate : Expr → M → Expr * M).

(** [if (e.defined()) e = mutator->mutate(e);] *)
Definition mutate_if_defined (e : Expr) (m : M) : Expr * M :=
  if defined e then mutator_mutate e m else (e, m).

(** Lines 36-40. *)
Fixpoint mutate_splits (ss : list Split) (m : M) : list Split * M :=
  match ss with
  | [] => ([], m)
  | s :: ss' =>
      let '(e, m1) := mutate_if_defined (factor s) m in
      let '(r, m2) := mutate_splits ss' m1 in
      ({| old_var := old_var s; outer := outer s; inner := inner s; factor := e |} :: r, m2)
  end.

(** Lines 41-48. *)
Fixpoint mutate_bounds (bs : list Bound) (m : M) : list Bound * M :=
  match bs with
  | [] => ([], m)
  | b :: bs' =>
      let '(e1, m1) := mutate_if_defined (min b) m in
      let '(e2, m2) := mutate_if_defined (extent b) m1 in
      let '(r, m3) := mutate_bounds bs' m2 in
      ({| var := var b; min := e1; extent := e2 |} :: r, m3)
  end.

(** Modelled from the spec: [ReductionDomain::mutate], the domain's own
    mutate primitive: every defined expression of the record behind the
    handle is rewritten in place; an undefined handle is left alone. *)
Fixpoint mutate_exprs (es : list Expr) (m : M) : list Expr * M :=
  match es with
  | [] => ([], m)
  | e :: es' =>
      let '(e', m1) := mutate_if_defined e m in
      let '(r, m2) := mutate_exprs es' m1 in
      (e' :: r, m2)
  end.

Definition ReductionDomain_mutate (rd : ReductionDomain) (m : M) : Prog M :=
  match rd with
  | None => mret m
  | Some r => λ σ,
      match rdoms σ !! r with
      | Some es =>
          let '(es', m') := mutate_exprs es m in
          Ok m' (with_rdoms (<[r := es']> (rdoms σ)) σ)
      | None => Undefined
      end
  end.

(** [ScheduleContents::mutate] (lines 35-57) on the record at [this].
    The loop over the specializations works on the vector in place:
    element [i] is read from, and written to, the record in the store,
    and the nested record is reached through its handle. *)
Fixpoint ScheduleContents_mutate (fuel : nat) (this : loc) (m : M) : Prog M :=
  match fuel with
  | 0 => λ _, OutOfFuel
  | S fuel' =>
      c ← deref (Some this);
      let '(ss, m1) := mutate_splits (splits c) m in
      let '(bs, m2) := mutate_bounds (bounds c) m1 in
      store (Some this) (set_bounds bs (set_splits ss c));;
      m3 ← for_each (λ m i,
              c ← deref (Some this);
              match specializations c !! i with
              | None => undefined_behaviour
              | Some s =>
                  let '(e, m') := mutate_if_defined (condition s) m in
                  store (Some this)
                    (set_specializations
                       (<[i := {| condition := e; schedule := schedule s |}]> (specializations c)) c);;
                  internal_assert (defined (schedule s)) Specialization_schedule_undefined;;
                  match schedule s with
                  | Some q => ScheduleContents_mutate fuel' q m'
                  | None => undefined_behaviour
                  end
              end) (seq 0 (length (specializations c))) m2;
      c ← deref (Some this);
      ReductionDomain_mutate (reduction_domain c) m3
  end.

(** [Schedule::mutate] (lines 274-278). *)
Definition Schedule_mutate (fuel : nat) (this : Schedule) (m : M) : Prog M :=
  match contents this with
  | Some p => ScheduleContents_mutate fuel p m
  | None => mret m
  end.

End Mutate.

(** *** accept *)

Section Accept.
(** An [IRVisitor] with state of its own. *)
Context {V : Type} (visitor_visit : IRNode → V → V).

(** Modelled from the spec: [Expr::accept] (IR.h) dispatches on the node
    behind the handle; an undefined handle has no node to dispatch on. *)
Definition Expr_accept (e : Expr) (v : V) : Prog V :=
  match e with
  | Some n => mret (visitor_visit n v)
  | None => undefined_behaviour
  end.

(** [Schedule::accept] (lines 255-272); [splits()], [bounds()] and
    [specializations()] each go through [contents]. *)
Definition Schedule_accept (this : Schedule) (v : V) : Prog V :=
  c ← deref (contents this);
  v1 ← for_each (λ v s,
          if defined (factor s) then Expr_accept (factor s) v else mret v)
        (splits c) v;
  c ← deref (contents this);
  v2 ← for_each (λ v b,
          v' ← (if defined (min b) then Expr_accept (min b) v else mret v);
          if defined (extent b) then Expr_accept (extent b) v' else mret v')
        (bounds c) v1;
  c ← deref (contents this);
  for_each (λ v s, Expr_accept (condition s) v) (specializations c) v2.

End Accept.

(** *** Deep copy *)

(** One turn of the loop of lines 97-105 over a wrapper entry [iter];
    [operator[]] on the memo map inserts an undefined handle for a key
    that is missing. *)
Definition copy_wrapper (acc : WrapperMap * DeepCopyMap * FuncStore)
    (iter : string * IntrusivePtr) : WrapperMap * DeepCopyMap * FuncStore :=
  let '(dst_wrappers, copied_map, fs) := acc in
  let copied_map1 :=
    match copied_map !! iter.2 with
    | Some _ => copied_map
    | None => <[iter.2 := None]> copied_map
    end in
  let copied_func := default None (copied_map1 !! iter.2) in
  if defined copied_func then
    (<[iter.1 := copied_func]> dst_wrappers, copied_map1, fs)
  else
    let '(f, copied_map2, fs') :=
      deep_copy_function_contents_helper iter.2 copied_map1 fs in
    (<[iter.1 := f]> dst_wrappers, <[iter.2 := f]> copied_map2, fs').

Definition copy_wrappers (src_wrappers : WrapperMap) (copied_map : DeepCopyMap)
    (fs : FuncStore) : WrapperMap * DeepCopyMap * FuncStore :=
  foldl copy_wrapper (∅, copied_map, fs) (wrapper_entries src_wrappers).

(** [deep_copy_schedule_contents_helper] (lines 74-116).  The record that
    [dst] held on entry is not read; the new value of [dst] is returned
    together with the memo map. *)
Fixpoint deep_copy_schedule_contents_helper (fuel : nat) (src : IntrusivePtr)
    (copied_map : DeepCopyMap) : Prog (IntrusivePtr * DeepCopyMap) :=
  match src with
  | None => mret (None, copied_map)
  | Some _ =>
      match fuel with
      | 0 => λ _, OutOfFuel
      | S fuel' =>
          dst ← new_ScheduleContents;
          s ← deref src;
          rd ← ReductionDomain_deep_copy (reduction_domain s);
          d ← deref dst;
          store dst (assign_fields s rd d);;
          σ ← get_store;
          let '(w, copied_map1, fs) :=
            copy_wrappers (wrappers s) copied_map (stages σ) in
          d ← deref dst;
          (λ σ, Ok tt (with_stages fs σ));;
          store dst (set_wrappers w d);;
          internal_assert (bool_decide (size w = size (wrappers s)))
            Wrapper_count_mismatch;;
          copied_map2 ← for_each (λ cm sp,
              _ ← new_ScheduleContents;
              '(q, cm') ← deep_copy_schedule_contents_helper fuel' (schedule sp) cm;
              d ← deref dst;
              store dst
                (set_specializations
                   (specializations d ++ [{| condition := condition sp; schedule := q |}]) d);;
              mret cm') (specializations s) copied_map1;
          mret (dst, copied_map2)
      end
  end.

(** [Schedule::deep_copy] (lines 122-129). *)
Definition Schedule_deep_copy (fuel : nat) (this : Schedule)
    (copied_map : DeepCopyMap) : Prog (Schedule * DeepCopyMap) :=
  copy ← Schedule_new;
  internal_assert (defined (contents copy) && defined (contents this))
    Cannot_deep_copy_undefined_Schedule;;
  '(p, copied_map') ← deep_copy_schedule_contents_helper fuel (contents this) copied_map;
  mret ({| contents := p |}, copied_map').

(** *** Accessors (lines 131-181, 204-206, 222-253)

    A const accessor reads the member through [contents]; the mutable
    overload returns a reference into the shared record, and the
    [assign_*] functions are an assignment through that reference. *)
Definition read {A} (field : ScheduleContents → A) (this : Schedule) : Prog A :=
  c ← deref (contents this); mret (field c).
Definition assign (upd : ScheduleContents → ScheduleContents) (this : Schedule) : Prog unit :=
  c ← deref (contents this); store (contents this) (upd c).

Definition Schedule_memoized := read memoized.
Definition Schedule_touched := read touched.
Definition Schedule_splits := read splits.
Definition Schedule_dims := read dims.
Definition Schedule_storage_dims := read storage_dims.
Definition Schedule_bounds := read bounds.
Definition Schedule_specializations := read specializations.
Definition Schedule_wrappers := read wrappers.
Definition Schedule_store_level := read store_level.
Definition Schedule_compute_level := read compute_level.
Definition Schedule_reduction_domain := read reduction_domain.
Definition Schedule_allow_race_conditions := read allow_race_conditions.

Definition assign_memoized v := assign (set_memoized v).
Definition assign_touched v := assign (set_touched v).
Definition assign_splits v := assign (set_splits v).
Definition assign_dims v := assign (set_dims v).
Definition assign_storage_dims v := assign (set_storage_dims v).
Definition assign_bounds v := assign (set_bounds v).
Definition assign_store_level v := assign (set_store_level v).
Definition assign_compute_level v := assign (set_compute_level v).
Definition assign_allow_race_conditions v := assign (set_allow_race_conditions v).

(** [Schedule::set_reduction_domain] (lines 243-245). *)
Definition Schedule_set_reduction_domain (this : Schedule) (d : ReductionDomain) : Prog unit :=
  assign (set_reduction_domain_field d) this.

(** *** Specializations and wrappers *)

(** [Schedule::add_specialization] (lines 183-202).  The result is the
    entry that [specializations.back()] refers to. *)
Definition Schedule_add_specialization (this : Schedule) (cond : Expr) : Prog Specialization :=
  p ← new_ScheduleContents;
  let s := {| condition := cond; schedule := p |} in
  n ← deref p;
  c ← deref (contents this);
  store p (assign_fields c (reduction_domain c) n);;
  c ← deref (contents this);
  store (contents this) (set_specializations (specializations c ++ [s]) c);;
  c ← deref (contents this);
  match last (specializations c) with
  | Some back => mret back
  | None => undefined_behaviour
  end.

(** [Schedule::add_wrapper] (lines 208-219). *)
Definition Schedule_add_wrapper (this : Schedule) (f : string)
    (wrapper : IntrusivePtr) : Prog unit :=
  c ← deref (contents this);
  (if bool_decide (is_Some (wrappers c !! f)) then
     if bool_decide (f = EmptyString) then user_warning (Replacing_global_wrapper f)
     else fatal (Wrapper_redefinition f)
   else mret tt);;
  c ← deref (contents this);
  store (contents this) (set_wrappers (<[f := wrapper]> (wrappers c)) c).

End Operations.

(** ** Well-formed stores *)

Section Specification.
Context `{Collaborators}.

(** What every store built by the operations satisfies: records sit below
    the allocation pointers, every specialization holds the handle of an
    allocated record that was created after the record holding it, and
    the reduction domain of a record is undefined or allocated. *)
Record wf (σ : Store) : Prop := {
  wf_alloc : ∀ l, is_Some (schedules σ !! l) → (l < next_schedule σ)%positive;
  wf_nested : ∀ l c sp, schedules σ !! l = Some c → sp ∈ specializations c →
    ∃ q, schedule sp = Some q ∧ (l < q)%positive ∧ is_Some (schedules σ !! q);
  wf_rdom_alloc : ∀ r, is_Some (rdoms σ !! r) → (r < next_rdom σ)%positive;
  wf_rdom : ∀ l c r, schedules σ !! l = Some c → reduction_domain c = Some r →
    is_Some (rdoms σ !! r);
}.

(** [nested σ l l']: the record at [l'] is the record at [l] or the nested
    record of a specialization of it, at any depth. *)
Inductive nested (σ : Store) : loc → loc → Prop :=
  | nested_here l : nested σ l l
  | nested_below l c sp q l' :
      schedules σ !! l = Some c → sp ∈ specializations c →
      schedule sp = Some q → nested σ q l' → nested σ l l'.

(** The recursion budget that is enough for the record at [l]. *)
Definition enough_fuel (σ : Store) (l : loc) (fuel : nat) : Prop :=
  Pos.to_nat (next_schedule σ) - Pos.to_nat l ≤ fuel.

(** Two records that agree except that each expression of the first is
    related by [R] to the expression at the same place in the second. *)
Section Related.
Context (R : relation Expr).

Record Split_related (s s' : Split) : Prop := {
  srel_old_var : old_var s = old_var s';
  srel_outer : outer s = outer s';
  srel_inner : inner s = inner s';
  srel_factor : R (factor s) (factor s');
}.

Record Bound_related (b b' : Bound) : Prop := {
  brel_var : var b = var b';
  brel_min : R (min b) (min b');
  brel_extent : R (extent b) (extent b');
}.

Record Specialization_related (sp sp' : Specialization) : Prop := {
  sprel_schedule : schedule sp = schedule sp';
  sprel_condition : R (condition sp) (condition sp');
}.

Record related (c c' : ScheduleContents) : Prop := {
  rel_store_level : store_level c = store_level c';
  rel_compute_level : compute_level c = compute_level c';
  rel_splits : Forall2 Split_related (splits c) (splits c');
  rel_dims : dims c = dims c';
  rel_storage_dims : storage_dims c = storage_dims c';
  rel_bounds : Forall2 Bound_related (bounds c) (bounds c');
  rel_specializations :
    Forall2 Specialization_related (specializations c) (specializations c');
  rel_wrappers : wrappers c = wrappers c';
  rel_reduction_domain : reduction_domain c = reduction_domain c';
  rel_memoized : memoized c = memoized c';
  rel_touched : touched c = touched c';
  rel_allow_race_conditions : allow_race_conditions c = allow_race_conditions c';
}.

Record Store_related (σ σ' : Store) : Prop := {
  strel_next_schedule : next_schedule σ = next_schedule σ';
  strel_next_rdom : next_rdom σ = next_rdom σ';
  strel_stages : stages σ = stages σ';
  strel_warnings : warnings σ = warnings σ';
  strel_schedules : ∀ l, option_Forall2 related (schedules σ !! l) (schedules σ' !! l);
  strel_rdoms : ∀ r, option_Forall2 (Forall2 R) (rdoms σ !! r) (rdoms σ' !! r);
}.

End Related.

(** ** The interface as a transition system *)

(** Assignments through the references that the mutable accessors return. *)
Inductive Setter :=
  | Set_memoized (v : bool)
  | Set_touched (v : bool)
  | Set_splits (v : list Split)
  | Set_dims (v : list Dim)
  | Set_storage_dims (v : list StorageDim)
  | Set_bounds (v : list Bound)
  | Set_store_level (v : LoopLevel)
  | Set_compute_level (v : LoopLevel)
  | Set_allow_race_conditions (v : bool).

Definition setter_update (a : Setter) : ScheduleContents → ScheduleContents :=
  match a with
  | Set_memoized v => set_memoized v
  | Set_touched v => set_touched v
  | Set_splits v => set_splits v
  | Set_dims v => set_dims v
  | Set_storage_dims v => set_storage_dims v
  | Set_bounds v => set_bounds v
  | Set_store_level v => set_store_level v
  | Set_compute_level v => set_compute_level v
  | Set_allow_race_conditions v => set_allow_race_conditions v
  end.

(** The calls a client of Schedule.cpp can make that change the store. *)
Inductive Call : Type :=
  | Call_new
  | Call_ReductionDomain_new (es : ReductionDomainContents)
  | Call_assign (this : Schedule) (a : Setter)
  | Call_set_reduction_domain (this : Schedule) (d : ReductionDomain)
  | Call_add_specialization (this : Schedule) (cond : Expr)
  | Call_add_wrapper (this : Schedule) (f : string) (wrapper : IntrusivePtr)
  | Call_deep_copy (fuel : nat) (this : Schedule) (copied_map : DeepCopyMap)
  | Call_mutate (M : Type) (mutator_mutate : Expr → M → Expr * M)
      (fuel : nat) (this : Schedule) (m : M).

Definition run (c : Call) : Prog unit :=
  match c with
  | Call_new => _ ← Schedule_new; mret tt
  | Call_ReductionDomain_new es => _ ← ReductionDomain_new es; mret tt
  | Call_assign this a => assign (setter_update a) this
  | Call_set_reduction_domain this d => Schedule_set_reduction_domain this d
  | Call_add_specialization this cond =>
      _ ← Schedule_add_specialization this cond; mret tt
  | Call_add_wrapper this f wrapper => Schedule_add_wrapper this f wrapper
  | Call_deep_copy fuel this copied_map =>
      _ ← Schedule_deep_copy fuel this copied_map; mret tt
  | Call_mutate M mutator_mutate fuel this m =>
      _ ← Schedule_mutate mutator_mutate fuel this m; mret tt
  end.

(** A handle held by the client is undefined or keeps its record alive. *)
Definition live (σ : Store) (this : Schedule) : Prop :=
  ∀ l, contents this = Some l → is_Some (schedules σ !! l).

Definition live_rdom (σ : Store) (d : ReductionDomain) : Prop :=
  ∀ r, d = Some r → is_Some (rdoms σ !! r).

Definition permitted (σ : Store) (c : Call) : Prop :=
  match c with
  | Call_new | Call_ReductionDomain_new _ => True
  | Call_assign this _ | Call_add_specialization this _
  | Call_add_wrapper this _ _ | Call_deep_copy _ this _
  | Call_mutate _ _ _ this _ => live σ this
  | Call_set_reduction_domain this d => live σ this ∧ live_rdom σ d
  end.

Definition liveb (σ : Store) (this : Schedule) : bool :=
  match contents this with
  | Some l => bool_decide (is_Some (schedules σ !! l))
  | None => true
  end.

Definition permittedb (σ : Store) (c : Call) : bool :=
  match c with
  | Call_new | Call_ReductionDomain_new _ => true
  | Call_assign this _ | Call_add_specialization this _
  | Call_add_wrapper this _ _ | Call_deep_copy _ this _
  | Call_mutate _ _ _ this _ => liveb σ this
  | Call_set_reduction_domain this d =>
      liveb σ this &&
      match d with
      | Some r => bool_decide (is_Some (rdoms σ !! r))
      | None => true
      end
  end.

(** A sequence of permitted calls that all return. *)
Fixpoint run_all (cs : list Call) (σ : Store) : option Store :=
  match cs with
  | [] => Some σ
  | c :: cs' =>
      if permittedb σ c then
        match run c σ with
        | Ok _ σ' => run_all cs' σ'
        | _ => None
        end
      else None
  end.

(** The store before any call. *)
Definition initial_store (fs : FuncStore) : Store :=
  {| schedules := ∅; next_schedule := 1%positive; rdoms := ∅;
     next_rdom := 1%positive; stages := fs; warnings := [] |}.

(** The stores that sequences of calls lead to, aborted calls included. *)
Inductive reachable : Store → Prop :=
  | reachable_initial fs : reachable (initial_store fs)
  | reachable_return σ c σ' :
      reachable σ → permitted σ c → run c σ = Ok tt σ' → reachable σ'
  | reachable_abort σ c d σ' :
      reachable σ → permitted σ c → run c σ = Fatal d σ' → reachable σ'.

(** What a mutator can do to one expression. *)
Section Rewriting.
Context {M : Type} (mutator_mutate : Expr → M → Expr * M).

(** One call of the mutator on a defined expression. *)
Definition rewrites (e e' : Expr) : Prop :=
  defined e = true ∧ ∃ m, e' = (mutator_mutate e m).1.

(** Any number of calls, none included. *)
Definition evolved : relation Expr := rtc rewrites.

(** An expression after the traversal passed over it: an undefined one is
    left undefined, a defined one went through the mutator. *)
Definition visited (e e' : Expr) : Prop :=
  if defined e then tc rewrites e e' else e' = e.

End Rewriting.

(** The defined expressions of a list, in order. *)
Definition defined_exprs (es : list Expr) : list Expr :=
  filter (λ e : Expr, is_Some e) es.

(** The order in which the expressions below the record at [l] are to be
    traversed: the split factors, then the min and extent of every bound,
    then every specialization (its condition, then its nested record),
    then the expressions of the reduction domain. *)
Fixpoint visit_order (fuel : nat) (σ : Store) (l : loc) : list Expr :=
  match fuel with
  | 0 => []
  | S fuel' =>
      match schedules σ !! l with
      | None => []
      | Some c =>
          defined_exprs (map factor (splits c)) ++
          defined_exprs (flat_map (λ b, [min b; extent b]) (bounds c)) ++
          flat_map (λ sp,
              defined_exprs [condition sp] ++
              match schedule sp with
              | Some q => visit_order fuel' σ q
              | None => []
              end) (specializations c) ++
          match reduction_domain c with
          | Some r => defined_exprs (default [] (rdoms σ !! r))
          | None => []
          end
      end
  end.

(** A mutator that leaves every expression as it is and keeps a state. *)
Definition observer {M} (g : M → Expr → M) : Expr → M → Expr * M :=
  λ e m, (e, g m e).

(** [extends σ σ']: [σ'] has every record of [σ] as it was, and possibly
    records at new addresses. *)
Record extends (σ σ' : Store) : Prop := {
  ext_schedules : ∀ l, (l < next_schedule σ)%positive →
    schedules σ' !! l = schedules σ !! l;
  ext_rdoms : ∀ r, (r < next_rdom σ)%positive → rdoms σ' !! r = rdoms σ !! r;
  ext_next_schedule : (next_schedule σ ≤ next_schedule σ')%positive;
  ext_next_rdom : (next_rdom σ ≤ next_rdom σ')%positive;
  ext_warnings : warnings σ' = warnings σ;
}.

(** What [deep_copy_schedule_contents_helper] leaves in the record [c']
    it builds from the record [s]. *)
Record copied (σ σ' : Store) (copied_map : DeepCopyMap)
    (s c' : ScheduleContents) : Prop := {
  cp_store_level : store_level c' = store_level s;
  cp_compute_level : compute_level c' = compute_level s;
  cp_splits : splits c' = splits s;
  cp_dims : dims c' = dims s;
  cp_storage_dims : storage_dims c' = storage_dims s;
  cp_bounds : bounds c' = bounds s;
  cp_memoized : memoized c' = memoized s;
  cp_touched : touched c' = touched s;
  cp_allow_race_conditions : allow_race_conditions c' = allow_race_conditions s;
  cp_wrappers :
    wrappers c' = (copy_wrappers (wrappers s) copied_map (stages σ)).1.1;
  cp_reduction_domain :
    match reduction_domain s with
    | None => reduction_domain c' = None
    | Some r => ∃ r', reduction_domain c' = Some r' ∧
        (next_rdom σ ≤ r')%positive ∧ rdoms σ' !! r' = rdoms σ !! r
    end;
  cp_specializations :
    Forall2 (λ sp sp', condition sp' = condition sp ∧
               ∃ q', schedule sp' = Some q' ∧ (next_schedule σ ≤ q')%positive)
      (specializations s) (specializations c');
}.

(** No record below [N] nests a record at or above [N]. *)
Definition closed_below (N : loc) (σ : Store) : Prop :=
  ∀ l c sp q, (l < N)%positive → schedules σ !! l = Some c →
    sp ∈ specializations c → schedule sp = Some q → (q < N)%positive.

(** The nodes [Schedule::accept] hands to the visitor for a record, in
    order: the defined split factors, the defined bound mins and
    extents, and the conditions of the record's own specializations. *)
Definition accept_order (c : ScheduleContents) : list IRNode :=
  omap id (map factor (splits c)) ++
  omap id (flat_map (λ b, [min b; extent b]) (bounds c)) ++
  omap id (map condition (specializations c)).

(** The wrapper [k] of the copy and the memo entry of the stage [T] hold
    one and the same defined clone. *)
Definition shares (w : WrapperMap) (cm : DeepCopyMap) (k : string) (T : IntrusivePtr) : Prop :=
  ∃ C, w !! k = Some (Some C) ∧ cm !! T = Some (Some C).

(** What a transform [f] of expressions leaves in the place of the
    expression [e]: the image of a defined expression, and nothing in
    the place of an undefined one. *)
Definition rewritten_by (f : Expr → Expr) (e e' : Expr) : Prop :=
  e' = if defined e then f e else None.

(** The same for the transform that rewrites everything to [sentinel]. *)
Definition becomes (sentinel : IRNode) : relation Expr :=
  rewritten_by (λ _, Some sentinel).

End Specification.

(** ** Schedules by value *)

Section Values.
Context `{Collaborators}.

(** [holds_rdom σ l r]: the record at [l], or a record nested in it at
    any depth, holds the reduction domain at [r]. *)
Definition holds_rdom (σ : Store) (l : loc) (r : loc) : Prop :=
  ∃ l' c, nested σ l l' ∧ schedules σ !! l' = Some c ∧ reduction_domain c = Some r.

(** [nested_at σ l path l']: from the record at [l], taking for every
    number of [path] in turn the specialization with that number, one
    arrives at the record at [l']. *)
Inductive nested_at (σ : Store) : loc → list nat → loc → Prop :=
  | nested_at_here l : nested_at σ l [] l
  | nested_at_below l c i sp q path l' :
      schedules σ !! l = Some c → specializations c !! i = Some sp →
      schedule sp = Some q → nested_at σ q path l' →
      nested_at σ l (i :: path) l'.

(** The record that [new ScheduleContents] leaves, as far as the lists,
    the wrapper map and the flags go. *)
Definition empty_record (c : ScheduleContents) : Prop :=
  splits c = [] ∧ dims c = [] ∧ storage_dims c = [] ∧ bounds c = [] ∧
  specializations c = [] ∧ wrappers c = ∅ ∧
  memoized c = false ∧ touched c = false ∧ allow_race_conditions c = false.

(** What a record holds once every handle is followed: the members that
    are values, the names of the wrappers, and the expressions of the
    reduction domain ([None] when the handle is undefined). *)
Record ScheduleValue := {
  value_store_level : LoopLevel;
  value_compute_level : LoopLevel;
  value_splits : list Split;
  value_dims : list Dim;
  value_storage_dims : list StorageDim;
  value_bounds : list Bound;
  value_wrapper_names : gset string;
  value_reduction_domain : option ReductionDomainContents;
  value_memoized : bool;
  value_touched : bool;
  value_allow_race_conditions : bool;
}.

(** A schedule with its specializations unfolded: every specialization
    is its condition and the tree of its nested record.  [Missing] stands
    for a nested handle that is undefined or has no record behind it. *)
#[warnings="-register-all"] Inductive ScheduleTree :=
  | Missing
  | TreeNode (value : ScheduleValue) (nested_trees : list (Expr * ScheduleTree)).

Definition value_of (σ : Store) (c : ScheduleContents) : ScheduleValue := {|
  value_store_level := store_level c;
  value_compute_level := compute_level c;
  value_splits := splits c;
  value_dims := dims c;
  value_storage_dims := storage_dims c;
  value_bounds := bounds c;
  value_wrapper_names := dom (wrappers c);
  value_reduction_domain := reduction_domain c ≫= (rdoms σ !!.);
  value_memoized := memoized c;
  value_touched := touched c;
  value_allow_race_conditions := allow_race_conditions c;
|}.

(** The tree below the record at [l]; [fuel] bounds the depth. *)
Fixpoint tree_of (fuel : nat) (σ : Store) (l : loc) : ScheduleTree :=
  match fuel with
  | 0 => Missing
  | S fuel' =>
      match schedules σ !! l with
      | None => Missing
      | Some c =>
          TreeNode (value_of σ c)
            (map (λ sp, (condition sp,
                         match schedule sp with
                         | Some q => tree_of fuel' σ q
                         | None => Missing
                         end)) (specializations c))
      end
  end.

(** A tree without missing parts. *)
Fixpoint complete (t : ScheduleTree) : bool :=
  match t with
  | Missing => false
  | TreeNode _ kids => forallb (λ k, complete k.2) kids
  end.

(** The expressions of a tree in the order of the mutate traversal. *)
Fixpoint tree_exprs (t : ScheduleTree) : list Expr :=
  match t with
  | Missing => []
  | TreeNode v kids =>
      defined_exprs (map factor (value_splits v)) ++
      defined_exprs (flat_map (λ b, [min b; extent b]) (value_bounds v)) ++
      flat_map (λ k, defined_exprs [k.1] ++ tree_exprs k.2) kids ++
      defined_exprs (default [] (value_reduction_domain v))
  end.

End Values.

(** ** Clients of the interface *)

Section Clients.
Context `{Collaborators}.

(** Reading back, through the const accessor, the member that the
    assignment [a] writes gives the value that [a] carries. *)
Definition reads (a : Setter) (this : Schedule) (σ : Store) : Prop :=
  match a with
  | Set_memoized v => Schedule_memoized this σ = Ok v σ
  | Set_touched v => Schedule_touched this σ = Ok v σ
  | Set_splits v => Schedule_splits this σ = Ok v σ
  | Set_dims v => Schedule_dims this σ = Ok v σ
  | Set_storage_dims v => Schedule_storage_dims this σ = Ok v σ
  | Set_bounds v => Schedule_bounds this σ = Ok v σ
  | Set_store_level v => Schedule_store_level this σ = Ok v σ
  | Set_compute_level v => Schedule_compute_level this σ = Ok v σ
  | Set_allow_race_conditions v => Schedule_allow_race_conditions this σ = Ok v σ
  end.

(** Two assignments write the same member. *)
Definition same_member (a b : Setter) : bool :=
  match a, b with
  | Set_memoized _, Set_memoized _
  | Set_touched _, Set_touched _
  | Set_splits _, Set_splits _
  | Set_dims _, Set_dims _
  | Set_storage_dims _, Set_storage_dims _
  | Set_bounds _, Set_bounds _
  | Set_store_level _, Set_store_level _
  | Set_compute_level _, Set_compute_level _
  | Set_allow_race_conditions _, Set_allow_race_conditions _ => true
  | _, _ => false
  end.

(** A client that adds one specialization per condition, in order. *)
Definition add_specializations (this : Schedule) (conds : list Expr) : Prog unit :=
  for_each (λ _ cond, _ ← Schedule_add_specialization this cond; mret tt) conds tt.

(** The address of the [i]-th record allocated from the store [σ] on. *)
Definition nth_fresh (σ : Store) (i : nat) : loc :=
  Nat.iter i Pos.succ (next_schedule σ).

End Clients.

(** ** A small instance

    Integer immediates, parameters and equality stand for the IR; the
    descriptors are names; the stage store is the next free stage address
    and the stage-level clone primitive returns a clone at that address. *)
Module Demo.

Inductive Node :=
  | IntImm (z : Z)
  | Param (name : string)
  | EQ (a b : Node).

Definition collaborators : Collaborators := {|
  IRNode := Node;
  LoopLevel := string;
  LoopLevel_default := EmptyString;
  Dim := string;
  StorageDim := string;
  FuncStore := positive;
  deep_copy_function_contents_helper := λ f cm next, (Some next, cm, Pos.succ next);
|}.

Section Example.
#[local] Existing Instance collaborators.

Definition split_x : Split :=
  {| old_var := "x"; outer := "xo"; inner := "xi"; factor := Some (IntImm 8) |}.
Definition split_y : Split :=
  {| old_var := "y"; outer := "yo"; inner := "yi"; factor := Some (IntImm 4) |}.
Definition bound_x : Bound :=
  {| var := "x"; min := Some (IntImm 0); extent := Some (IntImm 16) |}.
Definition p_is_1 : Expr := Some (EQ (Param "p") (IntImm 1)).

(** The handles the example uses: the first schedule, the nested
    schedule of its specialization, and its reduction domain. *)
Definition base : Schedule := {| contents := Some 1%positive |}.
Definition specialized : Schedule := {| contents := Some 2%positive |}.
Definition rdom : ReductionDomain := Some 1%positive.

(** One split and one bound on x, a specialization on [p == 1] whose
    nested record gets a second split on y, two wrappers on the same
    stage, and a reduction domain. *)
Definition example_calls : list Call :=
  [ Call_new;
    Call_assign base (Set_splits [split_x]);
    Call_assign base (Set_bounds [bound_x]);
    Call_assign base (Set_dims ["x"]);
    Call_add_specialization base p_is_1;
    Call_assign specialized (Set_splits [split_x; split_y]);
    Call_add_wrapper base "a" (Some 7%positive);
    Call_add_wrapper base "b" (Some 7%positive);
    Call_ReductionDomain_new [Some (IntImm 3); None];
    Call_set_reduction_domain base rdom ].

Definition example_store : Store :=
  default (initial_store 1%positive)
    (run_all example_calls (initial_store 1%positive)).

(** A visitor and a mutator that only record what they are handed. *)
Definition recording_visit (n : Node) (log : list Node) : list Node := log ++ [n].
Definition recording_mutate : Expr → list Expr → Expr * list Expr :=
  observer (λ log e, log ++ [e]).

(** A store written down by hand, which no call of the interface leads
    to: the specialization of its only record has an undefined nested
    schedule. *)
Definition broken_record : ScheduleContents :=
  set_specializations [{| condition := p_is_1; schedule := None |}]
    (set_bounds [bound_x] (set_splits [split_x] ScheduleContents_new)).

Definition broken_store : Store :=
  {| schedules := {[ 1%positive := broken_record ]}; next_schedule := 2%positive;
     rdoms := ∅; next_rdom := 1%positive; stages := 1%positive; warnings := [] |}.

(** A schedule with one split, a reduction domain and no specialization. *)
Definition domain_calls : list Call :=
  [ Call_new;
    Call_assign base (Set_splits [split_x]);
    Call_ReductionDomain_new [Some (IntImm 3); None];
    Call_set_reduction_domain base rdom ].

Definition domain_store : Store :=
  default (initial_store 1%positive)
    (run_all domain_calls (initial_store 1%positive)).

(** The same schedule after [add_specialization]. *)
Definition specialized_domain_store : Store :=
  default domain_store (run_all [Call_add_specialization base p_is_1] domain_store).

(** A mutator without state that adds one to an integer immediate. *)
Definition increment : Expr → unit → Expr * unit :=
  λ e m, (match e with Some (IntImm z) => Some (IntImm (z + 1)) | _ => e end, m).

(** A memo map that holds a clone for the stage of the example. *)
Definition known_clones : DeepCopyMap :=
  {[ Some 7%positive := Some 9%positive ]}.

(** The example with a third wrapper on the same stage, held by the
    nested record of the specialization. *)
Definition nested_wrapper_store : Store :=
  default example_store
    (run_all [Call_add_wrapper specialized "c" (Some 7%positive)] example_store).

End Example.
End Demo.


(** * Properties *)

(** ** Reasoning about programs *)

Section ProgramLogic.
Context `{Collaborators}.

Lemma bind_Ok {A B} (m : Prog A) (k : A → Prog B) σ a σ' :
  m σ = Ok a σ' → (m ≫= k) σ = k a σ'.
Proof. intros Hm. unfold mbind, Prog_bind. by rewrite Hm. Qed.

Lemma deref_Some l c σ :
  schedules σ !! l = Some c → deref (Some l) σ = Ok c σ.
Proof. intros Hl. unfold deref. by rewrite Hl. Qed.

Lemma store_Some l c c0 σ :
  schedules σ !! l = Some c0 →
  store (Some l) c σ = Ok tt (with_schedules (<[l := c]> (schedules σ)) σ).
Proof. intros Hl. unfold store. by rewrite Hl. Qed.

Lemma with_schedules_id σ : with_schedules (schedules σ) σ = σ.
Proof. by destruct σ. Qed.

Lemma with_rdoms_id σ : with_rdoms (rdoms σ) σ = σ.
Proof. by destruct σ. Qed.

Lemma store_same l c σ :
  schedules σ !! l = Some c → store (Some l) c σ = Ok tt σ.
Proof.
  intros Hl. rewrite (store_Some _ _ c) by done.
  by rewrite insert_id, with_schedules_id.
Qed.

(** The loop rule: an invariant indexed by the number of turns done. *)
Lemma for_each_invariant {A S} (body : S → A → Prog S) (xs : list A)
    (P : nat → S → Store → Prop) :
  (∀ i x s σ, xs !! i = Some x → P i s σ →
     ∃ s' σ', body s x σ = Ok s' σ' ∧ P (Datatypes.S i) s' σ') →
  ∀ s σ, P 0 s σ →
  ∃ s' σ', for_each body xs s σ = Ok s' σ' ∧ P (length xs) s' σ'.
Proof.
  revert P. induction xs as [|x xs IH]; intros P Hbody s σ HP.
  - exists s, σ. done.
  - destruct (Hbody 0 x s σ eq_refl HP) as (s1 & σ1 & Hx & HP1).
    destruct (IH (λ i, P (Datatypes.S i))
                (λ i y, Hbody (Datatypes.S i) y) s1 σ1 HP1)
      as (s2 & σ2 & Hrest & HP2).
    exists s2, σ2. split; [|done].
    simpl. by rewrite (bind_Ok _ _ _ _ _ Hx).
Qed.

(** Results only get more defined with more fuel. *)
Definition res_le {A} (r r' : Result A) : Prop := r = OutOfFuel ∨ r = r'.

Lemma res_le_refl {A} (r : Result A) : res_le r r.
Proof. by right. Qed.

Lemma bind_mono {A B} (m m' : Prog A) (k k' : A → Prog B) σ :
  res_le (m σ) (m' σ) →
  (∀ a σ', res_le (k a σ') (k' a σ')) →
  res_le ((m ≫= k) σ) ((m' ≫= k') σ).
Proof.
  intros [Hm|Hm] Hk; unfold mbind, Prog_bind.
  - rewrite Hm. by left.
  - rewrite Hm. destruct (m' σ); try by right. apply Hk.
Qed.

Lemma for_each_mono {A S} (body body' : S → A → Prog S) xs :
  (∀ s x σ, res_le (body s x σ) (body' s x σ)) →
  ∀ s σ, res_le (for_each body xs s σ) (for_each body' xs s σ).
Proof.
  intros Hbody. induction xs as [|x xs IH]; intros s σ; simpl.
  - apply res_le_refl.
  - apply bind_mono; [apply Hbody | intros; apply IH].
Qed.

Lemma bind_Fatal {A B} (m : Prog A) (k : A → Prog B) σ d σ' :
  m σ = Fatal d σ' → (m ≫= k) σ = Fatal d σ'.
Proof. intros Hm. unfold mbind, Prog_bind. by rewrite Hm. Qed.

Lemma bind_Ok_inv {A B} (m : Prog A) (k : A → Prog B) σ b σ' :
  (m ≫= k) σ = Ok b σ' → ∃ a σ1, m σ = Ok a σ1 ∧ k a σ1 = Ok b σ'.
Proof.
  unfold mbind, Prog_bind. destruct (m σ) as [a σ1| | |]; try done. eauto.
Qed.

Lemma deref_Ok_inv p c σ σ' :
  deref p σ = Ok c σ' → ∃ l, p = Some l ∧ schedules σ !! l = Some c ∧ σ' = σ.
Proof.
  unfold deref. destruct p as [l|]; [|done].
  destruct (schedules σ !! l) eqn:Hl; [|done]. intros [= <- <-]. eauto.
Qed.

(** The loop rule for a loop that is known to return. *)
Lemma for_each_Ok_inv {A S} (body : S → A → Prog S) (xs : list A)
    (P : nat → S → Store → Prop) :
  (∀ i x s σ s' σ', xs !! i = Some x → P i s σ →
     body s x σ = Ok s' σ' → P (Datatypes.S i) s' σ') →
  ∀ s σ s' σ', P 0 s σ → for_each body xs s σ = Ok s' σ' → P (length xs) s' σ'.
Proof.
  revert P. induction xs as [|x xs IH]; intros P Hbody s σ s' σ' HP Hrun.
  - simpl in Hrun. by injection Hrun as <- <-.
  - simpl in Hrun. apply bind_Ok_inv in Hrun as (s1 & σ1 & Hx & Hrest).
    apply (IH (λ i, P (Datatypes.S i)) (λ i y, Hbody (Datatypes.S i) y) s1 σ1); [|done].
    by apply (Hbody 0 x s σ).
Qed.

End ProgramLogic.

(** ** Stores related by rewriting *)

Section Invariant.
Context `{Collaborators}.

Lemma related_compose (R1 R2 R3 : relation Expr) c1 c2 c3 :
  (∀ e1 e2 e3, R1 e1 e2 → R2 e2 e3 → R3 e1 e3) →
  related R1 c1 c2 → related R2 c2 c3 → related R3 c1 c3.
Proof.
  intros HR [] []. split; try congruence.
  - eapply Forall2_trans; [|done..]. intros s1 s2 s3 [] []. split; try congruence; eauto.
  - eapply Forall2_trans; [|done..]. intros s1 s2 s3 [] []. split; try congruence; eauto.
  - eapply Forall2_trans; [|done..]. intros s1 s2 s3 [] []. split; try congruence; eauto.
Qed.

Lemma related_impl (R1 R2 : relation Expr) c1 c2 :
  (∀ e1 e2, R1 e1 e2 → R2 e1 e2) → related R1 c1 c2 → related R2 c1 c2.
Proof.
  intros HR []. split; try done.
  - eapply Forall2_impl; [done|]. intros ?? []. split; auto.
  - eapply Forall2_impl; [done|]. intros ?? []. split; auto.
  - eapply Forall2_impl; [done|]. intros ?? []. split; auto.
Qed.

Lemma related_refl (R : relation Expr) c : Reflexive R → related R c c.
Proof.
  intros HR. split; try done.
  - apply Forall_Forall2_diag, Forall_forall. intros; split; done.
  - apply Forall_Forall2_diag, Forall_forall. intros; split; done.
  - apply Forall_Forall2_diag, Forall_forall. intros; split; done.
Qed.

Lemma Store_related_refl (R : relation Expr) σ : Reflexive R → Store_related R σ σ.
Proof.
  intros HR. split; try done.
  intros l. destruct (schedules σ !! l); constructor. by apply related_refl.
Qed.

Lemma Store_related_compose (R1 R2 R3 : relation Expr) σ1 σ2 σ3 :
  (∀ e1 e2 e3, R1 e1 e2 → R2 e2 e3 → R3 e1 e3) →
  Store_related R1 σ1 σ2 → Store_related R2 σ2 σ3 → Store_related R3 σ1 σ3.
Proof.
  intros HR [] []. split; try congruence.
  - intros l. specialize (strel_schedules0 l). specialize (strel_schedules1 l).
    destruct strel_schedules0; inversion strel_schedules1; subst; constructor.
    by eapply related_compose.
  - intros r. specialize (strel_rdoms0 r). specialize (strel_rdoms1 r).
    destruct strel_rdoms0; inversion strel_rdoms1; subst; constructor.
    by eapply Forall2_trans.
Qed.

Lemma Store_related_lookup R σ σ' l c :
  Store_related R σ σ' → schedules σ !! l = Some c →
  ∃ c', schedules σ' !! l = Some c' ∧ related R c c'.
Proof.
  intros Hrel Hl. pose proof (strel_schedules _ _ _ Hrel l) as Hs.
  rewrite Hl in Hs. inversion Hs; subst. eauto.
Qed.

Lemma Store_related_lookup_r R σ σ' l c' :
  Store_related R σ σ' → schedules σ' !! l = Some c' →
  ∃ c, schedules σ !! l = Some c ∧ related R c c'.
Proof.
  intros Hrel Hl. pose proof (strel_schedules _ _ _ Hrel l) as Hs.
  rewrite Hl in Hs. inversion Hs; subst. eauto.
Qed.

Lemma related_schedule_elem R c c' sp' :
  related R c c' → sp' ∈ specializations c' →
  ∃ sp, sp ∈ specializations c ∧ schedule sp = schedule sp'.
Proof.
  intros Hrel Hin. apply list_elem_of_lookup in Hin as [i Hi].
  destruct (Forall2_lookup_r _ _ _ _ _ (rel_specializations _ _ _ Hrel) Hi)
    as (sp & Hsp & Hr).
  exists sp. split; [by eapply list_elem_of_lookup_2|]. by destruct Hr.
Qed.

(** Rewriting expressions keeps a store well formed. *)
Lemma wf_related R σ σ' : Store_related R σ σ' → wf σ → wf σ'.
Proof.
  intros Hrel Hwf. split.
  - intros l [c' Hl]. destruct (Store_related_lookup_r _ _ _ _ _ Hrel Hl) as (c & Hc & _).
    rewrite <- (strel_next_schedule _ _ _ Hrel). eapply wf_alloc; eauto.
  - intros l c' sp' Hl Hin.
    destruct (Store_related_lookup_r _ _ _ _ _ Hrel Hl) as (c & Hc & Hcc).
    destruct (related_schedule_elem _ _ _ _ Hcc Hin) as (sp & Hsp & Heq).
    destruct (wf_nested _ Hwf _ _ _ Hc Hsp) as (q & Hq & Hlt & [cq Hcq]).
    exists q. split; [congruence|]. split; [done|].
    destruct (Store_related_lookup _ _ _ _ _ Hrel Hcq) as (? & -> & _). eauto.
  - intros r [es' Hr]. pose proof (strel_rdoms _ _ _ Hrel r) as Hs.
    rewrite Hr in Hs. inversion Hs; subst.
    rewrite <- (strel_next_rdom _ _ _ Hrel). eapply wf_rdom_alloc; eauto.
  - intros l c' r Hl Hr.
    destruct (Store_related_lookup_r _ _ _ _ _ Hrel Hl) as (c & Hc & Hcc).
    rewrite <- (rel_reduction_domain _ _ _ Hcc) in Hr.
    destruct (wf_rdom _ Hwf _ _ _ Hc Hr) as [es Hes].
    pose proof (strel_rdoms _ _ _ Hrel r) as Hs.
    rewrite Hes in Hs. inversion Hs; subst. eauto.
Qed.

Lemma Store_related_update R σ l c c' :
  Reflexive R → schedules σ !! l = Some c → related R c c' →
  Store_related R σ (with_schedules (<[l := c']> (schedules σ)) σ).
Proof.
  intros HR Hl Hc. split; try done; simpl.
  intros l'. destruct (decide (l = l')) as [->|Hne].
    + rewrite lookup_insert_eq, Hl. by constructor.
    + rewrite lookup_insert_ne by done.
      destruct (schedules σ !! l'); constructor. by apply related_refl.
Qed.

Lemma Store_related_update_rdom R σ r es es' :
  Reflexive R → rdoms σ !! r = Some es → Forall2 R es es' →
  Store_related R σ (with_rdoms (<[r := es']> (rdoms σ)) σ).
Proof.
  intros HR Hr Hes. split; try done; simpl.
  - intros l. destruct (schedules σ !! l); constructor. by apply related_refl.
  - intros r'. destruct (decide (r = r')) as [->|Hne].
    + rewrite lookup_insert_eq, Hr. by constructor.
    + rewrite lookup_insert_ne by done.
      destruct (rdoms σ !! r'); constructor.
      apply Forall_Forall2_diag, Forall_forall. done.
Qed.

Lemma related_schedule_elem_fwd R c c' sp :
  related R c c' → sp ∈ specializations c →
  ∃ sp', sp' ∈ specializations c' ∧ schedule sp = schedule sp'.
Proof.
  intros Hrel Hin. apply list_elem_of_lookup in Hin as [i Hi].
  destruct (Forall2_lookup_l _ _ _ _ _ (rel_specializations _ _ _ Hrel) Hi)
    as (sp' & Hsp & Hr).
  exists sp'. split; [by eapply list_elem_of_lookup_2|]. by destruct Hr.
Qed.

Lemma nested_related_fwd R σ σ' l l' :
  Store_related R σ σ' → nested σ l l' → nested σ' l l'.
Proof.
  intros Hrel. induction 1 as [|l c sp q l' Hl Hin Hq _ IH]; [constructor|].
  destruct (Store_related_lookup _ _ _ _ _ Hrel Hl) as (c' & Hc & Hcc).
  destruct (related_schedule_elem_fwd _ _ _ _ Hcc Hin) as (sp' & Hsp & Heq).
  eapply nested_below; eauto. congruence.
Qed.

Lemma enough_fuel_0 σ l : wf σ → is_Some (schedules σ !! l) → ¬ enough_fuel σ l 0.
Proof.
  intros Hwf Hl. pose proof (wf_alloc _ Hwf _ Hl). unfold enough_fuel. lia.
Qed.

Lemma related_set_splits_bounds R c ss bs :
  Reflexive R →
  Forall2 (Split_related R) (splits c) ss →
  Forall2 (Bound_related R) (bounds c) bs →
  related R c (set_bounds bs (set_splits ss c)).
Proof.
  intros HR Hss Hbs. split; try done; simpl.
  apply Forall_Forall2_diag, Forall_forall. intros; split; done.
Qed.

Lemma related_set_specialization R c i sp e q :
  Reflexive R →
  specializations c !! i = Some sp → schedule sp = q → R (condition sp) e →
  related R c (set_specializations
    (<[i := {| condition := e; schedule := q |}]> (specializations c)) c).
Proof.
  intros HR Hi <- He. split; try done; simpl.
  - apply Forall_Forall2_diag, Forall_forall. intros; split; done.
  - apply Forall_Forall2_diag, Forall_forall. intros; split; done.
  - rewrite <- (list_insert_id (specializations c) i sp) at 1 by done.
    apply Forall2_insert; [|by split].
    apply Forall_Forall2_diag, Forall_forall. intros; split; done.
Qed.

End Invariant.

(** ** The mutate traversal *)

Section MutateProperties.
Context `{Collaborators} {M : Type} (mut : Expr → M → Expr * M).

Lemma evolved_None e : evolved mut None e → e = None.
Proof. intros Hr. apply rtc_inv in Hr as [|(y & [Hd _] & _)]; done. Qed.

Lemma visited_evolved e e' : visited mut e e' → evolved mut e e'.
Proof.
  unfold visited, evolved. destruct (defined e).
  - apply tc_rtc.
  - intros ->. done.
Qed.

Lemma evolved_visited e1 e2 e3 :
  evolved mut e1 e2 → visited mut e2 e3 → visited mut e1 e3.
Proof.
  intros H12 H23. destruct e1 as [n|].
  - unfold visited in *. simpl. destruct e2 as [n2|]; simpl in *.
    + by eapply tc_rtc_l.
    + subst. apply rtc_tc in H12 as [|]; done.
  - apply evolved_None in H12 as ->. done.
Qed.

Lemma visited_then_evolved e1 e2 e3 :
  visited mut e1 e2 → evolved mut e2 e3 → visited mut e1 e3.
Proof.
  intros H12 H23. destruct e1 as [n|]; unfold visited in *; simpl in *.
  - by eapply tc_rtc_r.
  - subst. by apply evolved_None in H23.
Qed.

Lemma evolved_trans e1 e2 e3 :
  evolved mut e1 e2 → evolved mut e2 e3 → evolved mut e1 e3.
Proof. apply rtc_trans. Qed.

Lemma mutate_if_defined_visited e m :
  visited mut e (mutate_if_defined mut e m).1.
Proof.
  unfold visited, mutate_if_defined. destruct (defined e) eqn:Hd; [|done].
  apply tc_once. split; [done|]. by exists m.
Qed.

Lemma mutate_splits_visited ss m :
  Forall2 (Split_related (visited mut)) ss (mutate_splits mut ss m).1.
Proof.
  revert m. induction ss as [|s ss IH]; intros m; simpl; [constructor|].
  pose proof (mutate_if_defined_visited (factor s) m) as Hv.
  destruct (mutate_if_defined mut (factor s) m) as [e m1].
  specialize (IH m1). destruct (mutate_splits mut ss m1) as [r m2].
  constructor; [|done]. by split.
Qed.

Lemma mutate_bounds_visited bs m :
  Forall2 (Bound_related (visited mut)) bs (mutate_bounds mut bs m).1.
Proof.
  revert m. induction bs as [|b bs IH]; intros m; simpl; [constructor|].
  pose proof (mutate_if_defined_visited (min b) m) as Hv1.
  destruct (mutate_if_defined mut (min b) m) as [e1 m1].
  pose proof (mutate_if_defined_visited (extent b) m1) as Hv2.
  destruct (mutate_if_defined mut (extent b) m1) as [e2 m2].
  specialize (IH m2). destruct (mutate_bounds mut bs m2) as [r m3].
  constructor; [|done]. by split.
Qed.

Lemma mutate_exprs_visited es m :
  Forall2 (visited mut) es (mutate_exprs mut es m).1.
Proof.
  revert m. induction es as [|e es IH]; intros m; simpl; [constructor|].
  pose proof (mutate_if_defined_visited e m) as Hv.
  destruct (mutate_if_defined mut e m) as [e' m1].
  specialize (IH m1). destruct (mutate_exprs mut es m1) as [r m2].
  by constructor.
Qed.

Lemma ScheduleContents_mutate_unfold fuel this m :
  ScheduleContents_mutate mut (S fuel) this m =
    (c ← deref (Some this);
     let '(ss, m1) := mutate_splits mut (splits c) m in
     let '(bs, m2) := mutate_bounds mut (bounds c) m1 in
     store (Some this) (set_bounds bs (set_splits ss c));;
     m3 ← for_each (λ m i,
             c ← deref (Some this);
             match specializations c !! i with
             | None => undefined_behaviour
             | Some s =>
                 let '(e, m') := mutate_if_defined mut (condition s) m in
                 store (Some this)
                   (set_specializations
                      (<[i := {| condition := e; schedule := schedule s |}]> (specializations c)) c);;
                 internal_assert (defined (schedule s)) Specialization_schedule_undefined;;
                 match schedule s with
                 | Some q => ScheduleContents_mutate mut fuel q m'
                 | None => undefined_behaviour
                 end
             end) (seq 0 (length (specializations c))) m2;
     c ← deref (Some this);
     ReductionDomain_mutate mut (reduction_domain c) m3).
Proof. done. Qed.

Lemma ReductionDomain_mutate_total rd m σ :
  (∀ r, rd = Some r → is_Some (rdoms σ !! r)) →
  ∃ m' σ', ReductionDomain_mutate mut rd m σ = Ok m' σ' ∧
    Store_related (evolved mut) σ σ' ∧ schedules σ' = schedules σ.
Proof.
  intros Hrd. destruct rd as [r|]; simpl.
  - destruct (Hrd r eq_refl) as [es Hes]. rewrite Hes.
    pose proof (mutate_exprs_visited es m) as Hv.
    destruct (mutate_exprs mut es m) as [es' m']. eexists _, _. split; [done|].
    split; [|done]. eapply Store_related_update_rdom; [apply _|done|].
    eapply Forall2_impl; [done|]. apply visited_evolved.
  - eexists _, _. split; [done|]. split; [|done].
    apply Store_related_refl. apply _.
Qed.

#[local] Instance evolved_refl : Reflexive (evolved mut).
Proof. unfold evolved. apply _. Qed.

Lemma ScheduleContents_mutate_total fuel : ∀ l m σ,
  wf σ → is_Some (schedules σ !! l) → enough_fuel σ l fuel →
  ∃ m' σ', ScheduleContents_mutate mut fuel l m σ = Ok m' σ' ∧
    Store_related (evolved mut) σ σ' ∧
    (∀ l', (l' < l)%positive → schedules σ' !! l' = schedules σ !! l') ∧
    (∀ l' c, nested σ l l' → schedules σ !! l' = Some c →
       ∃ c', schedules σ' !! l' = Some c' ∧ related (visited mut) c c').
Proof.
  induction fuel as [|fuel IH]; intros l m σ Hwf Hl Hfuel.
  { by destruct (enough_fuel_0 σ l). }
  destruct Hl as [c Hc].
  rewrite ScheduleContents_mutate_unfold.
  rewrite (bind_Ok _ _ _ _ _ (deref_Some _ _ _ Hc)).
  pose proof (mutate_splits_visited (splits c) m) as Hss.
  destruct (mutate_splits mut (splits c) m) as [ss m1].
  pose proof (mutate_bounds_visited (bounds c) m1) as Hbs.
  destruct (mutate_bounds mut (bounds c) m1) as [bs m2]. simpl in Hss, Hbs.
  rewrite (bind_Ok _ _ _ _ _ (store_Some _ _ _ _ Hc)).
  set (c1 := set_bounds bs (set_splits ss c)).
  set (σ1 := with_schedules (<[l:=c1]> (schedules σ)) σ).
  set (P := λ (i : nat) (mi : M) (σi : Store),
    Store_related (evolved mut) σ σi ∧
    (∀ l', (l' < l)%positive → schedules σi !! l' = schedules σ !! l') ∧
    (∃ ci, schedules σi !! l = Some ci ∧
       Forall2 (Split_related (visited mut)) (splits c) (splits ci) ∧
       Forall2 (Bound_related (visited mut)) (bounds c) (bounds ci) ∧
       (∀ j sp sp', j < i → specializations c !! j = Some sp →
          specializations ci !! j = Some sp' →
          Specialization_related (visited mut) sp sp')) ∧
    (∀ j sp q l' c', j < i → specializations c !! j = Some sp →
       schedule sp = Some q → nested σ q l' → schedules σ !! l' = Some c' →
       ∃ c'', schedules σi !! l' = Some c'' ∧ related (visited mut) c' c'')).
  assert (HP0 : P 0 m2 σ1).
  { split_and!.
    - eapply Store_related_update; [apply _|done|].
      apply related_set_splits_bounds; [apply _|..].
      + eapply Forall2_impl; [done|]. intros ?? []. split; auto using visited_evolved.
      + eapply Forall2_impl; [done|]. intros ?? []. split; auto using visited_evolved.
    - intros l' Hlt. simpl. rewrite lookup_insert_ne by lia. done.
    - exists c1. simpl. rewrite lookup_insert_eq. split_and!; try done. lia.
    - lia. }
  match goal with |- context [for_each ?b ?xs ?s0] =>
    destruct (for_each_invariant b xs P) with (s := s0) (σ := σ1)
      as (m3 & σn & Hloop & HPn); [|done|] end.
  { (* one turn of the loop *)
    intros i x mi σi Hx (Hrel & Hbelow & (ci & Hci & Hs & Hb & Hsp) & Hnest).
    apply lookup_seq in Hx as [-> Hi]. simpl in Hi |- *.
    destruct (Store_related_lookup _ _ _ _ _ Hrel Hc) as (ci' & Hci' & Hcci).
    rewrite Hci in Hci'. injection Hci' as <-.
    destruct (lookup_lt_is_Some_2 (specializations c) i Hi) as [sp0 Hsp0].
    destruct (Forall2_lookup_l _ _ _ _ _ (rel_specializations _ _ _ Hcci) Hsp0)
      as (si & Hsi & Hsp0i).
    destruct (wf_nested _ Hwf _ _ _ Hc (list_elem_of_lookup_2 _ _ _ Hsp0))
      as (q & Hq & Hlq & Hqalloc).
    assert (Hqi : schedule si = Some q) by (rewrite <- (sprel_schedule _ _ _ Hsp0i); done).
    rewrite (bind_Ok _ _ _ _ _ (deref_Some _ _ _ Hci)). rewrite Hsi.
    pose proof (mutate_if_defined_visited (condition si) mi) as Hv.
    destruct (mutate_if_defined mut (condition si) mi) as [e m']. simpl in Hv.
    rewrite (bind_Ok _ _ _ _ _ (store_Some _ _ _ _ Hci)).
    rewrite Hqi. simpl defined. unfold internal_assert.
    set (ci2 := set_specializations _ ci).
    set (σi2 := with_schedules (<[l:=ci2]> (schedules σi)) σi).
    rewrite (bind_Ok _ (λ _, ScheduleContents_mutate mut fuel q m') σi2 tt σi2) by done.
    assert (Hrel2 : Store_related (evolved mut) σi σi2).
    { eapply Store_related_update; [apply _|done|].
      eapply related_set_specialization; [apply _|done..|]. by apply visited_evolved. }
    assert (Hrel02 : Store_related (evolved mut) σ σi2).
    { eapply Store_related_compose; [|exact Hrel|exact Hrel2]. apply evolved_trans. }
    destruct (IH q m' σi2) as (m'' & σi3 & Hrec & Hrel3 & Hbelow3 & Hnest3).
    { by eapply wf_related. }
    { destruct Hqalloc as [cq Hcq].
      destruct (Store_related_lookup _ _ _ _ _ Hrel02 Hcq) as (? & -> & _). done. }
    { unfold enough_fuel in *. rewrite <- (strel_next_schedule _ _ _ Hrel02).
      pose proof (wf_alloc _ Hwf q Hqalloc). lia. }
    exists m'', σi3. split; [done|].
    assert (Hrel03 : Store_related (evolved mut) σ σi3).
    { eapply Store_related_compose; [|exact Hrel02|exact Hrel3]. apply evolved_trans. }
    split_and!.
    - done.
    - intros l' Hlt. rewrite Hbelow3 by lia. simpl.
      rewrite lookup_insert_ne by lia. by apply Hbelow.
    - exists ci2. split_and!.
      + rewrite Hbelow3 by done. simpl. by rewrite lookup_insert_eq.
      + done.
      + done.
      + intros j sp sp' Hj Hspj Hspj'. simpl in Hspj'.
        destruct (decide (j = i)) as [->|Hne].
        * rewrite list_lookup_insert_eq in Hspj' by (by eapply lookup_lt_Some).
          simplify_eq. split; simpl; [by destruct Hsp0i|].
          eapply evolved_visited; [|done]. by destruct Hsp0i.
        * rewrite list_lookup_insert_ne in Hspj' by done.
          eapply Hsp; [|done..]. lia.
    - intros j sp q' l' c' Hj Hspj Hq' Hn Hl'.
      destruct (decide (j = i)) as [->|Hne].
      + simplify_eq.
        destruct (Store_related_lookup _ _ _ _ _ Hrel02 Hl') as (cm & Hcm & Hrcm).
        destruct (Hnest3 l' cm) as (c'' & Hc'' & Hrc''); [|done|].
        { by eapply nested_related_fwd. }
        exists c''. split; [done|].
        eapply related_compose; [|exact Hrcm|exact Hrc'']. apply evolved_visited.
      + destruct (Hnest j sp q' l' c') as (cm & Hcm & Hrcm); [lia|done..|].
        destruct (Store_related_lookup _ _ _ _ _
                    (Store_related_compose _ _ _ _ _ _ evolved_trans Hrel2 Hrel3) Hcm)
          as (c'' & Hc'' & Hrc'').
        exists c''. split; [done|].
        eapply related_compose; [|exact Hrcm|exact Hrc'']. apply visited_then_evolved. }
  rewrite (bind_Ok _ _ _ _ _ Hloop).
  destruct HPn as (Hrel & Hbelow & (cn & Hcn & Hs & Hb & Hsp) & Hnest).
  rewrite length_seq in Hsp, Hnest.
  rewrite (bind_Ok _ _ _ _ _ (deref_Some _ _ _ Hcn)).
  destruct (Store_related_lookup _ _ _ _ _ Hrel Hc) as (cn' & Hcn' & Hccn).
  rewrite Hcn in Hcn'. injection Hcn' as <-.
  destruct (ReductionDomain_mutate_total (reduction_domain cn) m3 σn)
    as (m4 & σ' & Hrd & Hrelrd & Hsame).
  { intros r Hr. eapply wf_rdom; [by eapply wf_related|done..]. }
  exists m4, σ'. split; [done|]. split_and!.
  - eapply Store_related_compose; [|exact Hrel|exact Hrelrd]. apply evolved_trans.
  - intros l' Hlt. rewrite Hsame. by apply Hbelow.
  - intros l' c' Hn Hl'. rewrite Hsame. inversion Hn as [|? c0 sp q ? Hl0 Hin Hq Hn']; subst.
    + simplify_eq. exists cn. split; [done|].
      destruct Hccn. split; try done.
      apply Forall2_same_length_lookup_2; [by eapply Forall2_length|].
      intros j sp sp' Hj Hj'. eapply Hsp; [|done..]. by eapply lookup_lt_Some.
    + simplify_eq. apply list_elem_of_lookup in Hin as [j Hj].
      eapply Hnest; [|done..]. by eapply lookup_lt_Some.
Qed.

(** [mutate] on a record without specializations. *)
Lemma ScheduleContents_mutate_leaf fuel q n m σ :
  schedules σ !! q = Some n → specializations n = [] →
  ScheduleContents_mutate mut (S fuel) q m σ =
    ReductionDomain_mutate mut (reduction_domain n)
      (mutate_bounds mut (bounds n) (mutate_splits mut (splits n) m).2).2
      (with_schedules
         (<[q := set_bounds
                   (mutate_bounds mut (bounds n) (mutate_splits mut (splits n) m).2).1
                   (set_splits (mutate_splits mut (splits n) m).1 n)]> (schedules σ)) σ).
Proof.
  intros Hn Hsp. rewrite ScheduleContents_mutate_unfold.
  rewrite (bind_Ok _ _ _ _ _ (deref_Some _ _ _ Hn)).
  destruct (mutate_splits mut (splits n) m) as [ss m1]. cbn [fst snd].
  destruct (mutate_bounds mut (bounds n) m1) as [bs m2]. cbn [fst snd].
  rewrite (bind_Ok _ _ _ _ _ (store_Some _ _ _ _ Hn)).
  rewrite Hsp. cbn [length seq for_each].
  erewrite bind_Ok; [|reflexivity].
  erewrite bind_Ok; [|apply deref_Some; simpl; by rewrite lookup_insert_eq].
  done.
Qed.

End MutateProperties.

Section Observer.
Context `{Collaborators} {M : Type} (g : M → Expr → M).

Lemma observer_if_defined e m :
  mutate_if_defined (observer g) e m = (e, foldl g m (defined_exprs [e])).
Proof. unfold mutate_if_defined, observer. by destruct e. Qed.

Lemma defined_exprs_cons e es :
  defined_exprs (e :: es) = defined_exprs [e] ++ defined_exprs es.
Proof. unfold defined_exprs. by rewrite (filter_app _ [e] es). Qed.

Lemma observer_splits ss m :
  mutate_splits (observer g) ss m =
    (ss, foldl g m (defined_exprs (map factor ss))).
Proof.
  revert m. induction ss as [|s ss IH]; intros m; [done|].
  simpl. rewrite observer_if_defined, IH.
  rewrite (defined_exprs_cons (factor s) (map _ _)), foldl_app. by destruct s.
Qed.

Lemma observer_bounds bs m :
  mutate_bounds (observer g) bs m =
    (bs, foldl g m (defined_exprs (flat_map (λ b, [min b; extent b]) bs))).
Proof.
  revert m. induction bs as [|b bs IH]; intros m; [done|].
  simpl. rewrite !observer_if_defined, IH.
  rewrite (defined_exprs_cons (min b) (_ :: _)),
    (defined_exprs_cons (extent b) (flat_map _ _)), !foldl_app.
  by destruct b.
Qed.

Lemma observer_exprs es m :
  mutate_exprs (observer g) es m = (es, foldl g m (defined_exprs es)).
Proof.
  revert m. induction es as [|e es IH]; intros m; [done|].
  simpl. rewrite observer_if_defined, IH.
  by rewrite (defined_exprs_cons e es), foldl_app.
Qed.

Lemma set_splits_bounds_same c : set_bounds (bounds c) (set_splits (splits c) c) = c.
Proof. by destruct c. Qed.

Lemma set_specializations_same c i sp :
  specializations c !! i = Some sp →
  set_specializations
    (<[i := {| condition := condition sp; schedule := schedule sp |}]> (specializations c)) c = c.
Proof.
  intros Hi. destruct c; simpl in *. unfold set_specializations; simpl. f_equal.
  apply list_insert_id. by destruct sp.
Qed.

Lemma ScheduleContents_mutate_observer fuel : ∀ l m σ,
  wf σ → is_Some (schedules σ !! l) → enough_fuel σ l fuel →
  ScheduleContents_mutate (observer g) fuel l m σ =
    Ok (foldl g m (visit_order fuel σ l)) σ.
Proof.
  induction fuel as [|fuel IH]; intros l m σ Hwf Hl Hfuel.
  { by destruct (enough_fuel_0 σ l). }
  destruct Hl as [c Hc].
  rewrite ScheduleContents_mutate_unfold.
  rewrite (bind_Ok _ _ _ _ _ (deref_Some _ _ _ Hc)).
  rewrite observer_splits, observer_bounds, set_splits_bounds_same.
  rewrite (bind_Ok _ _ _ _ _ (store_same _ _ _ Hc)).
  set (child := λ sp : Specialization,
    defined_exprs [condition sp] ++
    match schedule sp with Some q => visit_order fuel σ q | None => [] end).
  set (m2 := foldl g (foldl g m _) _).
  set (P := λ (i : nat) (mi : M) (σi : Store),
    σi = σ ∧ mi = foldl g m2 (flat_map child (take i (specializations c)))).
  match goal with |- context [for_each ?b ?xs ?s0] =>
    destruct (for_each_invariant b xs P) with (s := s0) (σ := σ)
      as (m3 & σn & Hloop & HPn); [|done|] end.
  { intros i x mi σi Hx [-> ->].
    apply lookup_seq in Hx as [-> Hi]. simpl in Hi |- *.
    destruct (lookup_lt_is_Some_2 (specializations c) i Hi) as [sp Hsp].
    destruct (wf_nested _ Hwf _ _ _ Hc (list_elem_of_lookup_2 _ _ _ Hsp))
      as (q & Hq & Hlq & Hqalloc).
    rewrite (bind_Ok _ _ _ _ _ (deref_Some _ _ _ Hc)). rewrite Hsp.
    rewrite observer_if_defined, set_specializations_same by done.
    rewrite (bind_Ok _ _ _ _ _ (store_same _ _ _ Hc)).
    rewrite Hq. simpl defined. unfold internal_assert.
    rewrite (bind_Ok _ (λ _, ScheduleContents_mutate _ fuel q _) σ tt σ) by done.
    rewrite IH; [|done..|].
    2:{ unfold enough_fuel in *. pose proof (wf_alloc _ Hwf q Hqalloc). lia. }
    eexists _, _. split; [done|]. split; [done|].
    rewrite (take_S_r _ _ _ Hsp), flat_map_app, !foldl_app. simpl.
    rewrite app_nil_r. unfold child at 3. rewrite Hq. by rewrite foldl_app. }
  rewrite (bind_Ok _ _ _ _ _ Hloop). destruct HPn as [-> ->].
  rewrite length_seq, firstn_all.
  rewrite (bind_Ok _ _ _ _ _ (deref_Some _ _ _ Hc)).
  simpl visit_order. rewrite Hc. rewrite !foldl_app. fold child. fold m2.
  destruct (reduction_domain c) as [r|] eqn:Hr; simpl; [|done].
  destruct (wf_rdom _ Hwf _ _ _ Hc Hr) as [es Hes]. rewrite Hes.
  rewrite observer_exprs. simpl. by rewrite insert_id, with_rdoms_id.
Qed.

End Observer.

(** ** Fuel *)

Section Mono.
Context `{Collaborators}.

Lemma res_le_trans {A} (r1 r2 r3 : Result A) :
  res_le r1 r2 → res_le r2 r3 → res_le r1 r3.
Proof. intros [H12|H12] H23; rewrite H12; [by left|done]. Qed.

Section MutateMono.
Context {M : Type} (mut : Expr → M → Expr * M).

Lemma ScheduleContents_mutate_mono_S fuel : ∀ l m σ,
  res_le (ScheduleContents_mutate mut fuel l m σ)
         (ScheduleContents_mutate mut (S fuel) l m σ).
Proof.
  induction fuel as [|fuel IH]; intros l m σ; [by left|].
  rewrite !ScheduleContents_mutate_unfold.
  apply bind_mono; [apply res_le_refl|]. intros c σ1.
  destruct (mutate_splits mut (splits c) m) as [ss m1].
  destruct (mutate_bounds mut (bounds c) m1) as [bs m2].
  apply bind_mono; [apply res_le_refl|]. intros _ σ2.
  apply bind_mono; [|intros; apply res_le_refl].
  apply for_each_mono. intros mi i σi.
  apply bind_mono; [apply res_le_refl|]. intros ci σi'.
  destruct (specializations ci !! i) as [s|]; [|apply res_le_refl].
  destruct (mutate_if_defined mut (condition s) mi) as [e m'].
  apply bind_mono; [apply res_le_refl|]. intros _ σi2.
  apply bind_mono; [apply res_le_refl|]. intros _ σi3.
  destruct (schedule s); [apply IH|apply res_le_refl].
Qed.

Lemma ScheduleContents_mutate_mono fuel fuel' l m σ :
  fuel ≤ fuel' →
  res_le (ScheduleContents_mutate mut fuel l m σ)
         (ScheduleContents_mutate mut fuel' l m σ).
Proof.
  induction 1 as [|fuel' _ IH]; [apply res_le_refl|].
  eapply res_le_trans; [exact IH|]. apply ScheduleContents_mutate_mono_S.
Qed.

(** Whatever the budget, [mutate] on an allocated record of a well-formed
    store either runs out of budget or returns, and then the store is the
    old one with some expressions rewritten. *)
Lemma ScheduleContents_mutate_any_fuel fuel l m σ :
  wf σ → is_Some (schedules σ !! l) →
  ScheduleContents_mutate mut fuel l m σ = OutOfFuel ∨
  ∃ m' σ', ScheduleContents_mutate mut fuel l m σ = Ok m' σ' ∧
    Store_related (evolved mut) σ σ'.
Proof.
  intros Hwf Hl.
  set (big := fuel `max` (Pos.to_nat (next_schedule σ) - Pos.to_nat l)).
  destruct (ScheduleContents_mutate_total mut big l m σ Hwf Hl)
    as (m' & σ' & Hrun & Hrel & _).
  { unfold enough_fuel, big. lia. }
  destruct (ScheduleContents_mutate_mono fuel big l m σ) as [Ho|Heq].
  { unfold big. lia. }
  - by left.
  - right. exists m', σ'. split; [congruence|done].
Qed.

End MutateMono.
End Mono.

(** ** The footprint of mutate *)

Section Footprint.
Context `{Collaborators} {M : Type} (mut : Expr → M → Expr * M).

Lemma nested_related_bwd R σ σ' l l' :
  Store_related R σ σ' → nested σ' l l' → nested σ l l'.
Proof.
  intros Hrel. induction 1 as [|l c' sp' q l' Hl Hin Hq _ IH]; [constructor|].
  destruct (Store_related_lookup_r _ _ _ _ _ Hrel Hl) as (c & Hc & Hcc).
  destruct (related_schedule_elem _ _ _ _ Hcc Hin) as (sp & Hsp & Heq).
  eapply nested_below; eauto. congruence.
Qed.

Lemma holds_rdom_related_bwd R σ σ' l r :
  Store_related R σ σ' → holds_rdom σ' l r → holds_rdom σ l r.
Proof.
  intros Hrel (l' & c' & Hn & Hl' & Hr).
  destruct (Store_related_lookup_r _ _ _ _ _ Hrel Hl') as (c & Hc & Hcc).
  exists l', c. split; [by eapply nested_related_bwd|]. split; [done|].
  by rewrite (rel_reduction_domain _ _ _ Hcc).
Qed.

#[local] Instance evolved_reflexive : Reflexive (evolved mut).
Proof. unfold evolved. apply _. Qed.

(** A run of [mutate] that returns has changed no record outside the
    ones nested in the record it started from, and no reduction domain
    that none of them holds. *)
Lemma ScheduleContents_mutate_footprint fuel : ∀ l m σ m' σ',
  wf σ → is_Some (schedules σ !! l) →
  ScheduleContents_mutate mut fuel l m σ = Ok m' σ' →
  (∀ l', ¬ nested σ l l' → schedules σ' !! l' = schedules σ !! l') ∧
  (∀ r, ¬ holds_rdom σ l r → rdoms σ' !! r = rdoms σ !! r).
Proof.
  induction fuel as [|fuel IH]; intros l m σ m' σ' Hwf [c Hc] Hrun; [done|].
  rewrite ScheduleContents_mutate_unfold in Hrun.
  rewrite (bind_Ok _ _ _ _ _ (deref_Some _ _ _ Hc)) in Hrun.
  pose proof (mutate_splits_visited mut (splits c) m) as Hss.
  destruct (mutate_splits mut (splits c) m) as [ss m1].
  pose proof (mutate_bounds_visited mut (bounds c) m1) as Hbs.
  destruct (mutate_bounds mut (bounds c) m1) as [bs m2]. simpl in Hss, Hbs.
  rewrite (bind_Ok _ _ _ _ _ (store_Some _ _ _ _ Hc)) in Hrun.
  set (c1 := set_bounds bs (set_splits ss c)) in Hrun.
  set (σ1 := with_schedules (<[l:=c1]> (schedules σ)) σ) in Hrun.
  apply bind_Ok_inv in Hrun as (m3 & σn & Hloop & Hrun).
  set (P := λ (i : nat) (mi : M) (σi : Store),
    Store_related (evolved mut) σ σi ∧
    (∀ l', ¬ nested σ l l' → schedules σi !! l' = schedules σ !! l') ∧
    (∀ r, ¬ holds_rdom σ l r → rdoms σi !! r = rdoms σ !! r)).
  assert (HP0 : P 0 m2 σ1).
  { split_and!.
    - eapply Store_related_update; [apply _|done|].
      apply related_set_splits_bounds; [apply _|..].
      + eapply Forall2_impl; [done|]. intros ?? []. split; auto using visited_evolved.
      + eapply Forall2_impl; [done|]. intros ?? []. split; auto using visited_evolved.
    - intros l' Hn. simpl. rewrite lookup_insert_ne; [done|].
      intros <-. apply Hn. constructor.
    - done. }
  assert (HPn : P (length (seq 0 (length (specializations c1)))) m3 σn).
  { revert HP0 Hloop. apply for_each_Ok_inv. clear m3 σn Hrun.
    intros i x mi σi mi' σi' Hx (Hrel & Hrec & Hrd) Hbody.
    apply lookup_seq in Hx as [-> Hi]. simpl in Hi.
    apply bind_Ok_inv in Hbody as (ci & ? & Hderef & Hbody).
    apply deref_Ok_inv in Hderef as (? & [= <-] & Hci & ->).
    cbn beta in Hbody. change (0 + i) with i in Hbody.
    destruct (specializations ci !! i) as [si|] eqn:Hsi; [|done].
    pose proof (mutate_if_defined_visited mut (condition si) mi) as Hv.
    destruct (mutate_if_defined mut (condition si) mi) as [e mi1]. simpl in Hv.
    rewrite (bind_Ok _ _ _ _ _ (store_Some _ _ _ _ Hci)) in Hbody.
    set (ci2 := set_specializations _ ci) in Hbody.
    set (σi2 := with_schedules (<[l:=ci2]> (schedules σi)) σi) in Hbody.
    destruct (schedule si) as [q|] eqn:Hq; [|done].
    simpl in Hbody. unfold internal_assert in Hbody.
    rewrite (bind_Ok _ (λ _, ScheduleContents_mutate mut fuel q mi1) σi2 tt σi2) in Hbody by done.
    assert (Hwfi : wf σi) by (by eapply wf_related).
    assert (Hrel2 : Store_related (evolved mut) σi σi2).
    { eapply Store_related_update; [apply _|done|].
      eapply related_set_specialization; [apply _|done..|]. by apply visited_evolved. }
    assert (Hrel02 : Store_related (evolved mut) σ σi2).
    { eapply Store_related_compose; [|exact Hrel|exact Hrel2]. apply evolved_trans. }
    assert (Hwfi2 : wf σi2) by (by eapply wf_related).
    destruct (wf_nested _ Hwfi _ _ _ Hci (list_elem_of_lookup_2 _ _ _ Hsi))
      as (q0 & Hq0 & Hlq & [cq Hcq]).
    rewrite Hq in Hq0. injection Hq0 as <-.
    assert (Hq2 : is_Some (schedules σi2 !! q)).
    { destruct (Store_related_lookup _ _ _ _ _ Hrel2 Hcq) as (? & -> & _). done. }
    destruct (IH q mi1 σi2 mi' σi' Hwfi2 Hq2 Hbody) as [Hrec3 Hrd3].
    destruct (ScheduleContents_mutate_any_fuel mut fuel q mi1 σi2 Hwfi2 Hq2)
      as [Ho|(? & ? & Hrun3 & Hrel3)]; [congruence|].
    rewrite Hbody in Hrun3. injection Hrun3 as <- <-.
    (* the nested record of [si] is nested in [l] in the first store *)
    assert (Hnq : ∀ l', nested σ q l' → nested σ l l').
    { intros l' Hn.
      destruct (Store_related_lookup_r _ _ _ _ _ Hrel Hci) as (c0 & Hc0 & Hcc0).
      rewrite Hc in Hc0. injection Hc0 as <-.
      destruct (related_schedule_elem _ _ _ _ Hcc0 (list_elem_of_lookup_2 _ _ _ Hsi))
        as (sp & Hsp & Heq).
      eapply nested_below; [done|done| |done]. congruence. }
    split_and!.
    - eapply Store_related_compose; [|exact Hrel02|exact Hrel3]. apply evolved_trans.
    - intros l' Hn. rewrite Hrec3.
      + simpl. rewrite lookup_insert_ne; [by apply Hrec|].
        intros <-. apply Hn. constructor.
      + intros Hn'. apply Hn, Hnq. by eapply nested_related_bwd.
    - intros r Hn. rewrite Hrd3; [by apply Hrd|].
      intros Hh. apply (holds_rdom_related_bwd _ _ _ _ _ Hrel02) in Hh.
      destruct Hh as (l' & c' & Hn' & Hl' & Hr'). apply Hn.
      exists l', c'. split; [by apply Hnq|done]. }
  destruct HPn as (Hrel & Hrec & Hrd).
  apply bind_Ok_inv in Hrun as (cn & ? & Hderef & Hrun).
  apply deref_Ok_inv in Hderef as (? & [= <-] & Hcn & ->).
  destruct (Store_related_lookup _ _ _ _ _ Hrel Hc) as (cn' & Hcn' & Hccn).
  rewrite Hcn in Hcn'. injection Hcn' as <-.
  destruct (reduction_domain cn) as [r|] eqn:Hr; simpl in Hrun.
  - destruct (rdoms σn !! r) as [es|] eqn:Hes; [|done].
    destruct (mutate_exprs mut es m3) as [es' m4]. injection Hrun as <- <-.
    split; [done|]. intros r0 Hn. simpl. rewrite lookup_insert_ne; [by apply Hrd|].
    intros <-. apply Hn. exists l, c. split; [constructor|]. split; [done|].
    by rewrite (rel_reduction_domain _ _ _ Hccn).
  - injection Hrun as <- <-. done.
Qed.

End Footprint.

(** ** The deep-copy engine *)

Section DeepCopy.
Context `{Collaborators}.

Lemma extends_refl σ : extends σ σ.
Proof. split; intros; done. Qed.

Lemma extends_trans σ1 σ2 σ3 : extends σ1 σ2 → extends σ2 σ3 → extends σ1 σ3.
Proof.
  intros [] []. split.
  - intros l Hl. rewrite ext_schedules1 by lia. auto.
  - intros r Hr. rewrite ext_rdoms1 by lia. auto.
  - lia.
  - lia.
  - congruence.
Qed.

Lemma new_ScheduleContents_spec σ :
  wf σ →
  ∃ σ', new_ScheduleContents σ = Ok (Some (next_schedule σ)) σ' ∧
    wf σ' ∧ extends σ σ' ∧
    schedules σ' !! next_schedule σ = Some ScheduleContents_new ∧
    next_schedule σ' = Pos.succ (next_schedule σ) ∧
    next_rdom σ' = next_rdom σ ∧ rdoms σ' = rdoms σ ∧ stages σ' = stages σ ∧
    (∀ l, l ≠ next_schedule σ → schedules σ' !! l = schedules σ !! l).
Proof.
  intros Hwf. eexists. split; [done|]. split_and!; simpl; try done.
  - split; simpl.
    + intros l [c Hl]. destruct (decide (l = next_schedule σ)) as [->|Hne]; [lia|].
      rewrite lookup_insert_ne in Hl by done.
      pose proof (wf_alloc _ Hwf l (ex_intro _ c Hl)). lia.
    + intros l c sp Hl Hin. destruct (decide (l = next_schedule σ)) as [->|Hne].
      * rewrite lookup_insert_eq in Hl. simplify_eq. simpl in Hin. by apply elem_of_nil in Hin.
      * rewrite lookup_insert_ne in Hl by done.
        destruct (wf_nested _ Hwf _ _ _ Hl Hin) as (q & Hq & Hlt & Hqa).
        exists q. split_and!; try done.
        rewrite lookup_insert_ne; [done|].
        pose proof (wf_alloc _ Hwf q Hqa). lia.
    + apply (wf_rdom_alloc _ Hwf).
    + intros l c r Hl Hr. destruct (decide (l = next_schedule σ)) as [->|Hne].
      * rewrite lookup_insert_eq in Hl. by simplify_eq.
      * rewrite lookup_insert_ne in Hl by done. by eapply wf_rdom.
  - split; simpl; try done; try lia.
    intros l Hl. rewrite lookup_insert_ne by lia. done.
  - by rewrite lookup_insert_eq.
  - intros l Hl. by rewrite lookup_insert_ne.
Qed.

(** Replacing the record at [l] keeps the store well formed when the new
    record only nests records that were allocated after it. *)
Lemma wf_update σ l c c' :
  wf σ → schedules σ !! l = Some c →
  (∀ sp, sp ∈ specializations c' →
     ∃ q, schedule sp = Some q ∧ (l < q)%positive ∧ is_Some (schedules σ !! q)) →
  (∀ r, reduction_domain c' = Some r → is_Some (rdoms σ !! r)) →
  wf (with_schedules (<[l := c']> (schedules σ)) σ).
Proof.
  intros Hwf Hl Hsp Hrd.
  assert (Halloc : ∀ q, is_Some (schedules σ !! q) →
            is_Some (<[l := c']> (schedules σ) !! q)).
  { intros q Hq. destruct (decide (l = q)) as [->|Hne].
    - rewrite lookup_insert_eq. eauto.
    - by rewrite lookup_insert_ne. }
  split; simpl.
  - intros q [cq Hq]. destruct (decide (l = q)) as [->|Hne].
    + eapply wf_alloc; eauto.
    + rewrite lookup_insert_ne in Hq by done. eapply wf_alloc; eauto.
  - intros q cq sp Hq Hin. destruct (decide (l = q)) as [->|Hne].
    + rewrite lookup_insert_eq in Hq. simplify_eq.
      destruct (Hsp sp Hin) as (q' & ? & ? & ?). eauto 6.
    + rewrite lookup_insert_ne in Hq by done.
      destruct (wf_nested _ Hwf _ _ _ Hq Hin) as (q' & ? & ? & ?). eauto 6.
  - apply (wf_rdom_alloc _ Hwf).
  - intros q cq r Hq Hr. destruct (decide (l = q)) as [->|Hne].
    + rewrite lookup_insert_eq in Hq. simplify_eq. auto.
    + rewrite lookup_insert_ne in Hq by done. by eapply wf_rdom.
Qed.

Lemma ReductionDomain_deep_copy_spec rd σ :
  wf σ → (∀ r, rd = Some r → is_Some (rdoms σ !! r)) →
  ∃ rd' σ', ReductionDomain_deep_copy rd σ = Ok rd' σ' ∧
    wf σ' ∧ extends σ σ' ∧ schedules σ' = schedules σ ∧
    next_schedule σ' = next_schedule σ ∧ stages σ' = stages σ ∧
    (∀ r, rd' = Some r → is_Some (rdoms σ' !! r)) ∧
    match rd with
    | None => rd' = None
    | Some r => ∃ r', rd' = Some r' ∧ (next_rdom σ ≤ r')%positive ∧
        rdoms σ' !! r' = rdoms σ !! r
    end.
Proof.
  intros Hwf Hrd. destruct rd as [r|]; simpl.
  - destruct (Hrd r eq_refl) as [es Hes]. rewrite Hes. unfold ReductionDomain_new.
    eexists _, _. split; [done|]. simpl. split_and!; try done.
    + split; simpl; try apply Hwf.
      * intros r' [es' Hr']. destruct (decide (r' = next_rdom σ)) as [->|Hne]; [lia|].
        rewrite lookup_insert_ne in Hr' by done.
        pose proof (wf_rdom_alloc _ Hwf r' (ex_intro _ es' Hr')). lia.
      * intros l c r' Hl Hr'. destruct (wf_rdom _ Hwf _ _ _ Hl Hr') as [es' Hes'].
        destruct (decide (next_rdom σ = r')) as [->|Hne].
        -- rewrite lookup_insert_eq. eauto.
        -- rewrite lookup_insert_ne by done. eauto.
    + split; simpl; try done; try lia.
      intros r' Hr'. rewrite lookup_insert_ne by lia. done.
    + intros r' [= <-]. rewrite lookup_insert_eq. eauto.
    + eexists. split; [done|]. split; [lia|]. by rewrite lookup_insert_eq.
  - eexists _, _. split; [done|]. split_and!; auto using extends_refl; done.
Qed.

Lemma copy_wrapper_fst w cm fs k v :
  ∃ x, (copy_wrapper (w, cm, fs) (k, v)).1.1 = <[k := x]> w.
Proof.
  unfold copy_wrapper. simpl.
  destruct (defined _); [eauto|].
  destruct (deep_copy_function_contents_helper _ _ _) as [[f cm2] fs']. eauto.
Qed.

Lemma foldl_copy_wrapper_dom entries acc :
  dom (foldl copy_wrapper acc entries).1.1 =
    dom acc.1.1 ∪ list_to_set entries.*1.
Proof.
  revert acc. induction entries as [|[k v] entries IH]; intros [[w cm] fs].
  - simpl. by rewrite (right_id_L ∅ (∪)).
  - cbn [foldl]. rewrite IH. destruct (copy_wrapper_fst w cm fs k v) as [x Hx].
    rewrite Hx. cbn. rewrite dom_insert_L.
    by rewrite (comm_L (∪) {[k]} (dom w)), <- (assoc_L (∪)).
Qed.

Lemma wrapper_entries_perm (w : WrapperMap) : wrapper_entries w ≡ₚ map_to_list w.
Proof. unfold wrapper_entries. symmetry. apply WrapperSort.Permuted_sort. Qed.

Lemma copy_wrappers_dom ws cm fs :
  dom (copy_wrappers ws cm fs).1.1 = dom ws.
Proof.
  unfold copy_wrappers. rewrite foldl_copy_wrapper_dom. simpl.
  rewrite dom_empty_L, (left_id_L ∅ (∪)).
  apply set_eq. intros k. rewrite elem_of_list_to_set, wrapper_entries_perm.
  rewrite elem_of_dom, list_elem_of_fmap. split.
  - intros ([k' v] & -> & Hin). apply elem_of_map_to_list in Hin. eauto.
  - intros [v Hv]. exists (k, v). split; [done|]. by apply elem_of_map_to_list.
Qed.

Lemma copy_wrappers_size ws cm fs :
  size (copy_wrappers ws cm fs).1.1 = size ws.
Proof. by rewrite <- !size_dom, copy_wrappers_dom. Qed.

Lemma deep_copy_schedule_contents_helper_unfold fuel src copied_map :
  deep_copy_schedule_contents_helper (S fuel) (Some src) copied_map =
    (dst ← new_ScheduleContents;
     s ← deref (Some src);
     rd ← ReductionDomain_deep_copy (reduction_domain s);
     d ← deref dst;
     store dst (assign_fields s rd d);;
     σ ← get_store;
     let '(w, copied_map1, fs) :=
       copy_wrappers (wrappers s) copied_map (stages σ) in
     d ← deref dst;
     (λ σ, Ok tt (with_stages fs σ));;
     store dst (set_wrappers w d);;
     internal_assert (bool_decide (size w = size (wrappers s)))
       Wrapper_count_mismatch;;
     copied_map2 ← for_each (λ cm sp,
         _ ← new_ScheduleContents;
         '(q, cm') ← deep_copy_schedule_contents_helper fuel (schedule sp) cm;
         d ← deref dst;
         store dst
           (set_specializations
              (specializations d ++ [{| condition := condition sp; schedule := q |}]) d);;
         mret cm') (specializations s) copied_map1;
     mret (dst, copied_map2)).
Proof. done. Qed.

Lemma wf_with_stages σ fs : wf σ → wf (with_stages fs σ).
Proof. intros []. by split. Qed.

End DeepCopy.

(** ** Sharing through the memo map *)

Section Sharing.
Context `{Collaborators}.

(** What the sharing argument needs from the stage-level primitive: it
    returns a defined clone, and it leaves alone the memo entries that
    already hold a clone. *)
Hypothesis clone_defined : ∀ f cm fs,
  is_Some (deep_copy_function_contents_helper f cm fs).1.1.
Hypothesis memo_stable : ∀ f cm fs g c,
  cm !! g = Some (Some c) →
  (deep_copy_function_contents_helper f cm fs).1.2 !! g = Some (Some c).

Lemma copy_wrapper_reuse w cm fs k T C :
  cm !! T = Some (Some C) →
  copy_wrapper (w, cm, fs) (k, T) = (<[k := Some C]> w, cm, fs).
Proof. intros HT. unfold copy_wrapper. simpl. rewrite HT. simpl. by rewrite HT. Qed.

Lemma copy_wrapper_clone w cm fs k T :
  cm !! T = None ∨ cm !! T = Some None →
  copy_wrapper (w, cm, fs) (k, T) =
    let '(f, cm2, fs') :=
      deep_copy_function_contents_helper T (<[T := None]> cm) fs in
    (<[k := f]> w, <[T := f]> cm2, fs').
Proof.
  intros [HT|HT]; unfold copy_wrapper; simpl; rewrite HT.
  - by rewrite lookup_insert_eq.
  - rewrite HT. simpl. by rewrite (insert_id cm T None).
Qed.

Lemma copy_wrapper_shares w cm fs k T w' cm' fs' :
  copy_wrapper (w, cm, fs) (k, T) = (w', cm', fs') →
  shares w' cm' k T ∧
  ∀ k0 T0, k0 ≠ k → shares w cm k0 T0 → shares w' cm' k0 T0.
Proof using clone_defined memo_stable.
  intros Hstep. destruct (cm !! T) as [[C|]|] eqn:HT.
  - rewrite (copy_wrapper_reuse _ _ _ _ _ C HT) in Hstep. simplify_eq. split.
    + exists C. by rewrite lookup_insert_eq.
    + intros k0 T0 Hne (C0 & Hw & Hcm). exists C0. by rewrite lookup_insert_ne.
  - rewrite copy_wrapper_clone in Hstep by auto.
    pose proof (clone_defined T (<[T:=None]> cm) fs) as [C HC].
    pose proof (memo_stable T (<[T:=None]> cm) fs) as Hstable.
    destruct (deep_copy_function_contents_helper T (<[T:=None]> cm) fs)
      as [[f cm2] fs2]. simpl in HC, Hstable. simplify_eq. split.
    + exists C. by rewrite !lookup_insert_eq.
    + intros k0 T0 Hne (C0 & Hw & Hcm). exists C0.
      rewrite lookup_insert_ne by done. split; [done|].
      assert (T0 ≠ T) by congruence.
      rewrite lookup_insert_ne by done. apply Hstable.
      by rewrite lookup_insert_ne.
  - rewrite copy_wrapper_clone in Hstep by auto.
    pose proof (clone_defined T (<[T:=None]> cm) fs) as [C HC].
    pose proof (memo_stable T (<[T:=None]> cm) fs) as Hstable.
    destruct (deep_copy_function_contents_helper T (<[T:=None]> cm) fs)
      as [[f cm2] fs2]. simpl in HC, Hstable. simplify_eq. split.
    + exists C. by rewrite !lookup_insert_eq.
    + intros k0 T0 Hne (C0 & Hw & Hcm). exists C0.
      rewrite lookup_insert_ne by done. split; [done|].
      assert (T0 ≠ T) by congruence.
      rewrite lookup_insert_ne by done. apply Hstable.
      by rewrite lookup_insert_ne.
Qed.

Lemma foldl_copy_wrapper_shares entries : ∀ w cm fs,
  NoDup entries.*1 →
  (∀ k T, shares w cm k T → k ∉ entries.*1 →
     shares (foldl copy_wrapper (w, cm, fs) entries).1.1
            (foldl copy_wrapper (w, cm, fs) entries).1.2 k T) ∧
  (∀ k T, (k, T) ∈ entries →
     shares (foldl copy_wrapper (w, cm, fs) entries).1.1
            (foldl copy_wrapper (w, cm, fs) entries).1.2 k T).
Proof using clone_defined memo_stable.
  induction entries as [|[k T] entries IH]; intros w cm fs Hnd.
  - split; [done|]. intros k T Hin. by apply elem_of_nil in Hin.
  - cbn [foldl]. simpl in Hnd. apply NoDup_cons in Hnd as [Hk Hnd].
    destruct (copy_wrapper (w, cm, fs) (k, T)) as [[w1 cm1] fs1] eqn:Hstep.
    destruct (copy_wrapper_shares _ _ _ _ _ _ _ _ Hstep) as [Hnew Hold].
    destruct (IH w1 cm1 fs1 Hnd) as [IHold IHnew]. split.
    + intros k0 T0 Hsh Hnotin. simpl in Hnotin.
      apply not_elem_of_cons in Hnotin as [Hne Hnotin]. auto.
    + intros k0 T0 Hin. apply elem_of_cons in Hin as [Heq|Hin]; [|auto].
      simplify_eq. auto.
Qed.

(** Two wrapper entries on the same stage receive the same clone. *)
Lemma copy_wrappers_sharing ws cm fs a b T :
  ws !! a = Some T → ws !! b = Some T →
  ∃ C, (copy_wrappers ws cm fs).1.1 !! a = Some (Some C) ∧
       (copy_wrappers ws cm fs).1.1 !! b = Some (Some C).
Proof using clone_defined memo_stable.
  intros Ha Hb. unfold copy_wrappers.
  destruct (foldl_copy_wrapper_shares (wrapper_entries ws) ∅ cm fs) as [_ Hin].
  { rewrite wrapper_entries_perm. apply NoDup_fst_map_to_list. }
  destruct (Hin a T) as (Ca & Hwa & Hcma).
  { rewrite wrapper_entries_perm. by apply elem_of_map_to_list. }
  destruct (Hin b T) as (Cb & Hwb & Hcmb).
  { rewrite wrapper_entries_perm. by apply elem_of_map_to_list. }
  exists Ca. split; [done|]. congruence.
Qed.

End Sharing.

(** ** The memo map through the wrapper loop *)

Section Memo.
Context `{Collaborators}.

(** A turn of the wrapper loop keeps the memo entries that hold a clone
    when the stage-level primitive does. *)
Lemma copy_wrapper_keeps w cm fs k T g C :
  (∀ f cm fs g c, cm !! g = Some (Some c) →
     (deep_copy_function_contents_helper f cm fs).1.2 !! g = Some (Some c)) →
  cm !! g = Some (Some C) →
  (copy_wrapper (w, cm, fs) (k, T)).1.2 !! g = Some (Some C).
Proof.
  intros Hstable Hg. destruct (cm !! T) as [[C'|]|] eqn:HT.
  - by rewrite (copy_wrapper_reuse _ _ _ _ _ C' HT).
  - rewrite copy_wrapper_clone by auto.
    pose proof (Hstable T (<[T:=None]> cm) fs g C) as Hs.
    destruct (deep_copy_function_contents_helper T (<[T:=None]> cm) fs)
      as [[f cm2] fs2]. simpl in *.
    assert (g ≠ T) by congruence.
    rewrite lookup_insert_ne by done. apply Hs. by rewrite lookup_insert_ne.
  - rewrite copy_wrapper_clone by auto.
    pose proof (Hstable T (<[T:=None]> cm) fs g C) as Hs.
    destruct (deep_copy_function_contents_helper T (<[T:=None]> cm) fs)
      as [[f cm2] fs2]. simpl in *.
    assert (g ≠ T) by congruence.
    rewrite lookup_insert_ne by done. apply Hs. by rewrite lookup_insert_ne.
Qed.

Lemma copy_wrappers_keeps ws cm fs g C :
  (∀ f cm fs g c, cm !! g = Some (Some c) →
     (deep_copy_function_contents_helper f cm fs).1.2 !! g = Some (Some c)) →
  cm !! g = Some (Some C) →
  (copy_wrappers ws cm fs).1.2 !! g = Some (Some C).
Proof.
  intros Hstable. unfold copy_wrappers. generalize (∅ : WrapperMap).
  revert cm fs. induction (wrapper_entries ws) as [|[k T] entries IH]; intros cm fs w Hg.
  - done.
  - cbn [foldl].
    pose proof (copy_wrapper_keeps w cm fs k T g C Hstable Hg) as Hstep.
    destruct (copy_wrapper (w, cm, fs) (k, T)) as [[w1 cm1] fs1]. by apply IH.
Qed.

(** After the wrapper loop the wrapper of every name and the memo entry
    of its stage hold one and the same clone. *)
Lemma copy_wrappers_shares ws cm fs a T :
  (∀ f cm fs, is_Some (deep_copy_function_contents_helper f cm fs).1.1) →
  (∀ f cm fs g c, cm !! g = Some (Some c) →
     (deep_copy_function_contents_helper f cm fs).1.2 !! g = Some (Some c)) →
  ws !! a = Some T →
  shares (copy_wrappers ws cm fs).1.1 (copy_wrappers ws cm fs).1.2 a T.
Proof.
  intros Hdef Hstable Ha. unfold copy_wrappers.
  destruct (foldl_copy_wrapper_shares Hdef Hstable (wrapper_entries ws) ∅ cm fs)
    as [_ Hin].
  { rewrite wrapper_entries_perm. apply NoDup_fst_map_to_list. }
  apply Hin. rewrite wrapper_entries_perm. by apply elem_of_map_to_list.
Qed.

(** When the memo map holds a clone for every stage of the list, the
    loop calls the stage-level primitive for none: the memo map and the
    stage store are as before, and every name gets the memo's clone. *)
Lemma foldl_copy_wrapper_all_hit cm fs entries : ∀ w,
  NoDup entries.*1 →
  (∀ k T, (k, T) ∈ entries → ∃ C, cm !! T = Some (Some C)) →
  (foldl copy_wrapper (w, cm, fs) entries).1.2 = cm ∧
  (foldl copy_wrapper (w, cm, fs) entries).2 = fs ∧
  (∀ k T, (k, T) ∈ entries →
     (foldl copy_wrapper (w, cm, fs) entries).1.1 !! k = cm !! T) ∧
  (∀ k, k ∉ entries.*1 →
     (foldl copy_wrapper (w, cm, fs) entries).1.1 !! k = w !! k).
Proof.
  induction entries as [|[k0 T0] entries IH]; intros w Hnd Hhit.
  - split_and!; try done. intros k T Hin. by apply elem_of_nil in Hin.
  - cbn [foldl]. simpl in Hnd. apply NoDup_cons in Hnd as [Hk0 Hnd].
    destruct (Hhit k0 T0) as [C0 HC0]; [apply elem_of_cons; by left|].
    rewrite (copy_wrapper_reuse _ _ _ _ _ C0 HC0).
    destruct (IH (<[k0:=Some C0]> w) Hnd) as (Hcm & Hfs & Hin & Hout).
    { intros k T Hin. apply (Hhit k T). apply elem_of_cons. by right. }
    split_and!; try done.
    + intros k T Hel. apply elem_of_cons in Hel as [[= -> ->]|Hel]; [|auto].
      rewrite Hout by done. by rewrite lookup_insert_eq.
    + intros k Hk. simpl in Hk. apply not_elem_of_cons in Hk as [Hne Hk].
      rewrite Hout by done. by rewrite lookup_insert_ne.
Qed.

Lemma copy_wrappers_all_hit ws cm fs :
  (∀ k T, ws !! k = Some T → ∃ C, cm !! T = Some (Some C)) →
  (copy_wrappers ws cm fs).1.2 = cm ∧ (copy_wrappers ws cm fs).2 = fs ∧
  ∀ k, (copy_wrappers ws cm fs).1.1 !! k = ws !! k ≫= (cm !!.).
Proof.
  intros Hhit. unfold copy_wrappers.
  destruct (foldl_copy_wrapper_all_hit cm fs (wrapper_entries ws) ∅)
    as (Hcm & Hfs & Hin & Hout).
  { rewrite wrapper_entries_perm. apply NoDup_fst_map_to_list. }
  { intros k T Hel. rewrite wrapper_entries_perm in Hel.
    apply elem_of_map_to_list in Hel. eauto. }
  split; [done|]. split; [done|]. intros k.
  destruct (ws !! k) as [T|] eqn:Hk; simpl.
  - apply Hin. rewrite wrapper_entries_perm. by apply elem_of_map_to_list.
  - rewrite Hout; [done|]. rewrite wrapper_entries_perm.
    intros Hel. apply list_elem_of_fmap in Hel as ([k' T] & -> & Hel).
    apply elem_of_map_to_list in Hel. simpl in Hk. congruence.
Qed.

End Memo.

(** ** The deep-copy engine *)

Section DeepCopyEngine.
Context `{Collaborators}.

(** ** Trees *)

(** Two stores that agree on a set of records that is closed under
    nesting have the same nesting there. *)
Lemma nested_agree (P : loc → Prop) σa σb :
  (∀ x, P x → schedules σb !! x = schedules σa !! x) →
  (∀ x c sp q, P x → schedules σa !! x = Some c → sp ∈ specializations c →
     schedule sp = Some q → P q) →
  ∀ l l', nested σb l l' → P l → nested σa l l' ∧ P l'.
Proof.
  intros Hagree Hclosed l l'.
  induction 1 as [|l c sp q l' Hl Hin Hq _ IH]; intros HP; [by split; [constructor|]|].
  rewrite (Hagree l HP) in Hl.
  destruct IH as [Hn HP']; [by eapply Hclosed|].
  split; [|done]. by eapply nested_below.
Qed.

Lemma holds_rdom_agree (P : loc → Prop) σa σb :
  (∀ x, P x → schedules σb !! x = schedules σa !! x) →
  (∀ x c sp q, P x → schedules σa !! x = Some c → sp ∈ specializations c →
     schedule sp = Some q → P q) →
  ∀ l r, holds_rdom σb l r → P l → holds_rdom σa l r.
Proof.
  intros Hagree Hclosed l r (l' & c & Hn & Hl' & Hr) HP.
  destruct (nested_agree P σa σb Hagree Hclosed l l' Hn HP) as [Hn' HP'].
  exists l', c. rewrite <- (Hagree l' HP'). done.
Qed.

Lemma tree_of_agree (P : loc → Prop) σa σb :
  (∀ x, P x → schedules σb !! x = schedules σa !! x) →
  (∀ x c sp q, P x → schedules σa !! x = Some c → sp ∈ specializations c →
     schedule sp = Some q → P q) →
  (∀ x c r, P x → schedules σa !! x = Some c → reduction_domain c = Some r →
     rdoms σb !! r = rdoms σa !! r) →
  ∀ fuel l, P l → tree_of fuel σb l = tree_of fuel σa l.
Proof.
  intros Hagree Hclosed Hrd. induction fuel as [|fuel IH]; intros l HP; [done|].
  simpl. rewrite (Hagree l HP). destruct (schedules σa !! l) as [c|] eqn:Hc; [|done].
  f_equal.
  - unfold value_of. f_equal. destruct (reduction_domain c) as [r|] eqn:Hr; [|done].
    simpl. by eapply Hrd.
  - apply map_ext_in. intros sp Hin. apply list_elem_of_In in Hin. f_equal.
    destruct (schedule sp) as [q|] eqn:Hq; [|done]. apply IH. by eapply Hclosed.
Qed.

(** With enough fuel nothing is missing from the tree of an allocated
    record of a well-formed store. *)
Lemma tree_of_complete fuel : ∀ σ l,
  wf σ → is_Some (schedules σ !! l) → enough_fuel σ l fuel →
  complete (tree_of fuel σ l) = true.
Proof.
  induction fuel as [|fuel IH]; intros σ l Hwf Hl Hfuel.
  { by destruct (enough_fuel_0 σ l). }
  destruct Hl as [c Hc]. simpl. rewrite Hc. simpl.
  apply forallb_forall. intros [e t] Hin. apply list_elem_of_In in Hin.
  apply list_elem_of_fmap in Hin as (sp & [= -> ->] & Hsp). simpl.
  destruct (wf_nested _ Hwf _ _ _ Hc Hsp) as (q & -> & Hlq & Hqa).
  apply IH; [done..|]. unfold enough_fuel in *.
  pose proof (wf_alloc _ Hwf q Hqa). lia.
Qed.

(** Fuel beyond what is enough does not change the tree. *)
Lemma tree_of_enough f1 : ∀ f2 σ l,
  wf σ → is_Some (schedules σ !! l) → enough_fuel σ l f1 → enough_fuel σ l f2 →
  tree_of f1 σ l = tree_of f2 σ l.
Proof.
  induction f1 as [|f1 IH]; intros f2 σ l Hwf Hl Hf1 Hf2.
  { by destruct (enough_fuel_0 σ l). }
  destruct f2 as [|f2]; [by destruct (enough_fuel_0 σ l)|].
  destruct Hl as [c Hc]. simpl. rewrite Hc. f_equal.
  apply map_ext_in. intros sp Hin. apply list_elem_of_In in Hin. f_equal.
  destruct (wf_nested _ Hwf _ _ _ Hc Hin) as (q & -> & Hlq & Hqa).
  pose proof (wf_alloc _ Hwf q Hqa).
  apply IH; [done..| |]; unfold enough_fuel in *; lia.
Qed.

(** The nested trees of two equal trees. *)
Lemma tree_of_nested f1 f2 σ σ' l l' c c' i sp sp' q q' :
  tree_of (S f2) σ' l' = tree_of (S f1) σ l →
  schedules σ !! l = Some c → schedules σ' !! l' = Some c' →
  specializations c !! i = Some sp → specializations c' !! i = Some sp' →
  schedule sp = Some q → schedule sp' = Some q' →
  tree_of f2 σ' q' = tree_of f1 σ q.
Proof.
  intros Heq Hc Hc' Hi Hi' Hq Hq'. simpl in Heq. rewrite Hc, Hc' in Heq.
  apply (f_equal (λ t, match t with TreeNode _ ks => ks !! i | Missing => None end))
    in Heq as Hkids.
  rewrite !list_lookup_fmap, Hi, Hi' in Hkids. simpl in Hkids.
  rewrite Hq, Hq' in Hkids. by injection Hkids.
Qed.

Lemma flat_map_map {A B C} (f : B → list C) (g : A → B) (l : list A) :
  flat_map f (map g l) = flat_map (λ x, f (g x)) l.
Proof. induction l as [|x l IH]; [done|]. simpl. by rewrite IH. Qed.

(** The traversal order is the order of the expressions of the tree. *)
Lemma visit_order_tree fuel : ∀ σ l,
  visit_order fuel σ l = tree_exprs (tree_of fuel σ l).
Proof.
  induction fuel as [|fuel IH]; intros σ l; [done|].
  simpl. destruct (schedules σ !! l) as [c|]; [|done]. simpl.
  f_equal. f_equal. f_equal.
  - rewrite flat_map_map. apply flat_map_ext. intros sp. simpl. f_equal.
    by destruct (schedule sp).
  - by destruct (reduction_domain c).
Qed.

(** A record of a well-formed store is not nested in a record with a
    larger address. *)
Lemma nested_le σ l l' : wf σ → nested σ l l' → (l ≤ l')%positive.
Proof.
  intros Hwf. induction 1 as [|l c sp q l' Hl Hin Hq _ IH]; [lia|].
  destruct (wf_nested _ Hwf _ _ _ Hl Hin) as (q' & Hq' & Hlt & _).
  rewrite Hq in Hq'. injection Hq' as <-. lia.
Qed.

Lemma nested_inv σ l l' :
  nested σ l l' →
  l' = l ∨ ∃ c sp q, schedules σ !! l = Some c ∧ sp ∈ specializations c ∧
    schedule sp = Some q ∧ nested σ q l'.
Proof. intros Hn. inversion Hn; subst; eauto 8. Qed.

Lemma nested_at_inv σ l path l' :
  nested_at σ l path l' →
  match path with
  | [] => l' = l
  | i :: path' =>
      ∃ c sp q, schedules σ !! l = Some c ∧ specializations c !! i = Some sp ∧
        schedule sp = Some q ∧ nested_at σ q path' l'
  end.
Proof. intros Hn. inversion Hn; subst; eauto 8. Qed.

(** Two stores that agree on a set of records that is closed under
    nesting have the same paths there. *)
Lemma nested_at_agree (P : loc → Prop) σa σb :
  (∀ x, P x → schedules σb !! x = schedules σa !! x) →
  (∀ x c sp q, P x → schedules σa !! x = Some c → sp ∈ specializations c →
     schedule sp = Some q → P q) →
  ∀ l path l', nested_at σa l path l' → P l → nested_at σb l path l' ∧ P l'.
Proof.
  intros Hagree Hclosed l path l'.
  induction 1 as [|l c i sp q path l' Hl Hi Hq _ IH]; intros HP; [by split; [constructor|]|].
  destruct IH as [Hn HP'].
  { eapply Hclosed; [done|done|by eapply list_elem_of_lookup_2|done]. }
  split; [|done]. eapply nested_at_below; [|done..]. by rewrite Hagree.
Qed.

(** [deep_copy_schedule_contents_helper] on an allocated record whose
    nested records all lie below [N]: besides what
    [deep_copy_schedule_contents_helper_total] says, the tree below the
    new record is the tree below the source, every reduction domain
    held below the new record is new, those held below a nested record
    are newer than the one of the record itself, the memo map and the
    stage store only go through the wrapper loops of the records of the
    source, and, when the stage-level primitive returns defined clones
    and keeps the memo entries that hold one, the record that the copy
    has in the place of a record of the source has, under every wrapper
    name, the clone that the memo map returned holds for the stage. *)
Lemma deep_copy_schedule_contents_helper_paths fuel : ∀ src cm σ N,
  wf σ → is_Some (schedules σ !! src) →
  (N ≤ next_schedule σ)%positive → closed_below N σ → (src < N)%positive →
  Pos.to_nat N - Pos.to_nat src ≤ fuel →
  ∃ d cm' σ',
    deep_copy_schedule_contents_helper fuel (Some src) cm σ = Ok (Some d, cm') σ' ∧
    wf σ' ∧ extends σ σ' ∧ (next_schedule σ ≤ d)%positive ∧
    (∃ s c', schedules σ !! src = Some s ∧ schedules σ' !! d = Some c' ∧
       copied σ σ' cm s c') ∧
    (∀ f1 f2, Pos.to_nat N - Pos.to_nat src ≤ f1 →
       Pos.to_nat (next_schedule σ') - Pos.to_nat d ≤ f2 →
       tree_of f2 σ' d = tree_of f1 σ src) ∧
    (∀ r, holds_rdom σ' d r → (next_rdom σ ≤ r)%positive) ∧
    (∀ c' r1 sp q r, schedules σ' !! d = Some c' → reduction_domain c' = Some r1 →
       sp ∈ specializations c' → schedule sp = Some q → holds_rdom σ' q r →
       (r1 < r)%positive) ∧
    (∀ I : DeepCopyMap → FuncStore → Prop,
       (∀ l c cmx fsx, nested σ src l → l ≠ src → schedules σ !! l = Some c →
          I cmx fsx →
          I (copy_wrappers (wrappers c) cmx fsx).1.2
            (copy_wrappers (wrappers c) cmx fsx).2) →
       (∀ s, schedules σ !! src = Some s →
          I (copy_wrappers (wrappers s) cm (stages σ)).1.2
            (copy_wrappers (wrappers s) cm (stages σ)).2) →
       I cm' (stages σ')) ∧
    ((∀ f cm fs, is_Some (deep_copy_function_contents_helper f cm fs).1.1) →
     (∀ f cm fs g c, cm !! g = Some (Some c) →
        (deep_copy_function_contents_helper f cm fs).1.2 !! g = Some (Some c)) →
     ∀ path x cx k T, nested_at σ src path x → schedules σ !! x = Some cx →
       wrappers cx !! k = Some T →
       ∃ x' cx', nested_at σ' d path x' ∧ schedules σ' !! x' = Some cx' ∧
         shares (wrappers cx') cm' k T).
Proof.
  induction fuel as [|fuel IH]; intros src cm σ N Hwf Hsrc HN Hclosed HsrcN Hfuel.
  { lia. }
  destruct Hsrc as [s Hs].
  rewrite deep_copy_schedule_contents_helper_unfold.
  (* dst = new ScheduleContents *)
  destruct (new_ScheduleContents_spec σ Hwf)
    as (σ1 & Hnew & Hwf1 & Hext1 & Hd1 & Hnext1 & Hnr1 & Hrd1 & Hst1 & Hother1).
  remember (next_schedule σ) as d eqn:Hd.
  rewrite (bind_Ok _ _ _ _ _ Hnew).
  assert (Hsrcd : src ≠ d).
  { pose proof (wf_alloc _ Hwf src (ex_intro _ s Hs)). lia. }
  assert (Hs1 : schedules σ1 !! src = Some s) by (rewrite Hother1; done).
  rewrite (bind_Ok _ _ _ _ _ (deref_Some _ _ _ Hs1)).
  (* the reduction domain *)
  destruct (ReductionDomain_deep_copy_spec (reduction_domain s) σ1 Hwf1)
    as (rd & σ2 & Hrdc & Hwf2 & Hext2 & Hsch2 & Hnext2 & Hst2 & Hrdalloc & Hrdspec).
  { intros r Hr. eapply wf_rdom; eauto. }
  rewrite (bind_Ok _ _ _ _ _ Hrdc).
  assert (Hd2 : schedules σ2 !! d = Some ScheduleContents_new) by (rewrite Hsch2; done).
  rewrite (bind_Ok _ _ _ _ _ (deref_Some _ _ _ Hd2)).
  rewrite (bind_Ok _ _ _ _ _ (store_Some _ _ _ _ Hd2)).
  set (c3 := assign_fields _ _ _).
  set (σ3 := with_schedules (<[d:=c3]> (schedules σ2)) σ2).
  unfold get_store at 1. rewrite (bind_Ok _ _ σ3 σ3 σ3) by done.
  destruct (copy_wrappers (wrappers s) cm (stages σ3)) as [[w cm1] fs] eqn:Hcw.
  assert (Hd3 : schedules σ3 !! d = Some c3) by (simpl; by rewrite lookup_insert_eq).
  rewrite (bind_Ok _ _ _ _ _ (deref_Some _ _ _ Hd3)).
  rewrite (bind_Ok _ _ σ3 tt (with_stages fs σ3)) by done.
  rewrite (bind_Ok _ _ _ _ _ (store_Some d _ c3 (with_stages fs σ3) Hd3)).
  set (cb := set_wrappers w c3).
  set (σ4 := with_schedules (<[d:=cb]> (schedules (with_stages fs σ3))) (with_stages fs σ3)).
  assert (Hsize : size w = size (wrappers s)).
  { pose proof (copy_wrappers_size (wrappers s) cm (stages σ3)) as Hsz.
    by rewrite Hcw in Hsz. }
  assert (Hdom : dom w = dom (wrappers s)).
  { pose proof (copy_wrappers_dom (wrappers s) cm (stages σ3)) as Hdm.
    by rewrite Hcw in Hdm. }
  rewrite bool_decide_eq_true_2 by done. unfold internal_assert.
  rewrite (bind_Ok _ _ σ4 tt σ4) by done.
  assert (Hwf3 : wf σ3).
  { eapply wf_update; [done..| |].
    - intros sp Hin. simpl in Hin. by apply elem_of_nil in Hin.
    - intros r Hr. simpl in Hr. auto. }
  assert (Hwf4 : wf σ4).
  { eapply (wf_update (with_stages fs σ3)); [by apply wf_with_stages|done| |].
    - intros sp Hin. simpl in Hin. by apply elem_of_nil in Hin.
    - intros r Hr. simpl in Hr. auto. }
  assert (Hext4 : extends σ σ4).
  { split; simpl.
    - intros l Hl. rewrite !lookup_insert_ne by lia.
      rewrite Hsch2. apply Hother1. lia.
    - intros r Hr. rewrite (ext_rdoms _ _ Hext2) by lia. by rewrite Hrd1.
    - rewrite Hnext2, Hnext1. lia.
    - pose proof (ext_next_rdom _ _ Hext2). lia.
    - rewrite (ext_warnings _ _ Hext2). apply (ext_warnings _ _ Hext1). }
  assert (Hd4 : schedules σ4 !! d = Some cb) by (simpl; by rewrite lookup_insert_eq).
  assert (Hrd4 : rdoms σ4 = rdoms σ2) by done.
  assert (Hnr4 : next_rdom σ4 = next_rdom σ2) by done.
  assert (Hst4 : stages σ4 = fs) by done.
  assert (Hcb : store_level cb = store_level s ∧ compute_level cb = compute_level s ∧
    splits cb = splits s ∧ dims cb = dims s ∧ storage_dims cb = storage_dims s ∧
    bounds cb = bounds s ∧ memoized cb = memoized s ∧ touched cb = touched s ∧
    allow_race_conditions cb = allow_race_conditions s ∧ wrappers cb = w ∧
    reduction_domain cb = rd) by done.
  assert (Hcbs : set_specializations [] cb = cb) by done.
  assert (Hcw' : copy_wrappers (wrappers s) cm (stages σ) = (w, cm1, fs)).
  { rewrite <- Hcw. simpl. by rewrite Hst2, Hst1. }
  clear Hcw Hd3 Hwf3. clearbody σ4 cb. clear σ3 c3.
  (* the source side of the store: the records below [N] *)
  assert (HsrcP : ∀ x c sp q, (x < N)%positive → schedules σ !! x = Some c →
            sp ∈ specializations c → schedule sp = Some q → (q < N)%positive).
  { intros x c sp q Hx Hc Hin Hq. eapply Hclosed; eauto. }
  pose (Q := λ (σi : Store) (cmi : DeepCopyMap) (sp sp' : Specialization),
    condition sp' = condition sp ∧
    ∃ q q', schedule sp = Some q ∧ schedule sp' = Some q' ∧
      (next_schedule σ ≤ q')%positive ∧
      (∀ f1 f2, Pos.to_nat N - Pos.to_nat q ≤ f1 →
         Pos.to_nat (next_schedule σi) - Pos.to_nat q' ≤ f2 →
         tree_of f2 σi q' = tree_of f1 σ q) ∧
      (∀ r, holds_rdom σi q' r → (next_rdom σ4 ≤ r)%positive) ∧
      ((∀ f cm fs, is_Some (deep_copy_function_contents_helper f cm fs).1.1) →
       (∀ f cm fs g c, cm !! g = Some (Some c) →
          (deep_copy_function_contents_helper f cm fs).1.2 !! g = Some (Some c)) →
       ∀ path x cx k T, nested_at σ q path x → schedules σ !! x = Some cx →
         wrappers cx !! k = Some T →
         ∃ x' cx', nested_at σi q' path x' ∧ schedules σi !! x' = Some cx' ∧
           shares (wrappers cx') cmi k T)).
  pose (P := λ (i : nat) (cmi : DeepCopyMap) (σi : Store),
    wf σi ∧ extends σ σi ∧
    (next_rdom σ4 ≤ next_rdom σi)%positive ∧
    (∀ r, (r < next_rdom σ4)%positive → rdoms σi !! r = rdoms σ4 !! r) ∧
    (∃ specs, schedules σi !! d = Some (set_specializations specs cb) ∧
       Forall2 (Q σi cmi) (take i (specializations s)) specs) ∧
    (∀ I : DeepCopyMap → FuncStore → Prop,
       (∀ l c cmx fsx, nested σ src l → l ≠ src → schedules σ !! l = Some c →
          I cmx fsx →
          I (copy_wrappers (wrappers c) cmx fsx).1.2
            (copy_wrappers (wrappers c) cmx fsx).2) →
       I cm1 fs → I cmi (stages σi))).
  assert (HP0 : P 0 cm1 σ4).
  { unfold P. split_and!; try done.
    - exists []. split; [|constructor]. by rewrite Hcbs.
    - intros I _ HI. by rewrite Hst4. }
  match goal with |- context [for_each ?b ?xs ?s0] =>
    destruct (for_each_invariant b xs P) with (s := s0) (σ := σ4)
      as (cm2 & σn & Hloop & HPn); [|done|] end.
  { intros i sp cmi σi Hsp (Hwfi & Hexti & Hnri & Hrdi & (specs & Hdi & Hspecs) & HIi).
    destruct (new_ScheduleContents_spec σi Hwfi)
      as (σt & Hnewt & Hwft & Hextt & Hdt & Hnextt & Hnrt & Hrdt & Hstt & Hothert).
    rewrite (bind_Ok _ _ _ _ _ Hnewt).
    destruct (wf_nested _ Hwf _ _ _ Hs (list_elem_of_lookup_2 _ _ _ Hsp))
      as (q & Hq & Hlq & Hqalloc).
    rewrite Hq.
    assert (Hdlt : (d < next_schedule σi)%positive).
    { eapply wf_alloc; eauto. }
    assert (HqN : (q < N)%positive).
    { eapply Hclosed; eauto using list_elem_of_lookup_2. }
    assert (Hle_i : (next_schedule σ ≤ next_schedule σi)%positive)
      by apply (ext_next_schedule _ _ Hexti).
    assert (Hle_t : (next_schedule σi ≤ next_schedule σt)%positive)
      by apply (ext_next_schedule _ _ Hextt).
    (* the store at the nested call agrees with the first one below [N] *)
    assert (Hsrc_t : ∀ x, (x < N)%positive → schedules σt !! x = schedules σ !! x).
    { intros x Hx. rewrite (ext_schedules _ _ Hextt), (ext_schedules _ _ Hexti); [done|lia|lia]. }
    assert (Hrd_t : ∀ x c r, (x < N)%positive → schedules σ !! x = Some c →
              reduction_domain c = Some r → rdoms σt !! r = rdoms σ !! r).
    { intros x c r Hx Hc Hr. rewrite Hrdt. apply (ext_rdoms _ _ Hexti).
      eapply wf_rdom_alloc; [done|]. by eapply wf_rdom. }
    destruct (IH q cmi σt N)
      as (d' & cm' & σr & Hrec & Hwfr & Hextr & Hd' & (_ & cd' & _ & Hcd' & _) &
          Htree & Hfresh & _ & HIr & Hpr).
    { done. }
    { rewrite Hsrc_t by done. done. }
    { lia. }
    { intros l c sp' q' Hl Hc Hin Hq'. rewrite Hsrc_t in Hc by done.
      eapply Hclosed; eauto. }
    { done. }
    { lia. }
    rewrite (bind_Ok _ _ _ _ _ Hrec). cbn beta iota.
    assert (Hdr : schedules σr !! d = Some (set_specializations specs cb)).
    { rewrite (ext_schedules _ _ Hextr), Hothert; [done|lia|lia]. }
    rewrite (bind_Ok _ _ _ _ _ (deref_Some _ _ _ Hdr)).
    rewrite (bind_Ok _ _ _ _ _ (store_Some _ _ _ _ Hdr)).
    set (cj := set_specializations _ _).
    set (σj := with_schedules (<[d:=cj]> (schedules σr)) σr).
    assert (Hle_r : (next_schedule σt ≤ next_schedule σr)%positive)
      by apply (ext_next_schedule _ _ Hextr).
    (* what the turn leaves as it was *)
    assert (Hkeep : ∀ x, (d < x)%positive → (x < next_schedule σi)%positive →
              schedules σj !! x = schedules σi !! x).
    { intros x Hx1 Hx2. simpl. rewrite lookup_insert_ne by lia.
      rewrite (ext_schedules _ _ Hextr), Hothert; [done|lia|lia]. }
    assert (Hkeep_rd : ∀ r, (r < next_rdom σi)%positive → rdoms σj !! r = rdoms σi !! r).
    { intros r Hr. simpl. rewrite (ext_rdoms _ _ Hextr), Hrdt; [done|lia]. }
    assert (Hclosed_i : ∀ x c sp0 q0,
              (d < x)%positive ∧ (x < next_schedule σi)%positive →
              schedules σi !! x = Some c → sp0 ∈ specializations c →
              schedule sp0 = Some q0 →
              (d < q0)%positive ∧ (q0 < next_schedule σi)%positive).
    { intros x c sp0 q0 [Hx1 Hx2] Hc Hin Hq0.
      destruct (wf_nested _ Hwfi _ _ _ Hc Hin) as (q1 & Hq1 & Hlt & Hqa).
      rewrite Hq0 in Hq1. injection Hq1 as <-.
      pose proof (wf_alloc _ Hwfi q0 Hqa). lia. }
    assert (Hclosed_r : ∀ x c sp0 q0, (d < x)%positive →
              schedules σr !! x = Some c → sp0 ∈ specializations c →
              schedule sp0 = Some q0 → (d < q0)%positive).
    { intros x c sp0 q0 Hx Hc Hin Hq0.
      destruct (wf_nested _ Hwfr _ _ _ Hc Hin) as (q1 & Hq1 & Hlt & Hqa).
      rewrite Hq0 in Hq1. injection Hq1 as <-. lia. }
    assert (Hj_r : ∀ x, (d < x)%positive → schedules σj !! x = schedules σr !! x).
    { intros x Hx. simpl. rewrite lookup_insert_ne by lia. done. }
    eexists _, _. split; [done|]. fold cj σj. split_and!.
    - eapply wf_update; [done..| |].
      + intros sp' Hin. simpl in Hin. apply elem_of_app in Hin as [Hin|Hin].
        * destruct (wf_nested _ Hwfi _ _ sp' Hdi Hin) as (q' & ? & ? & Hqa).
          exists q'. split_and!; try done.
          rewrite (ext_schedules _ _ Hextr), Hothert; [done| |].
          -- pose proof (wf_alloc _ Hwfi q' Hqa). lia.
          -- pose proof (wf_alloc _ Hwfi q' Hqa). lia.
        * apply list_elem_of_singleton in Hin as ->. simpl.
          exists d'. split; [done|]. split; [lia|eauto].
      + intros r Hr. simpl in Hr.
        destruct (wf_rdom _ Hwfi _ _ r Hdi Hr) as [es Hes].
        rewrite (ext_rdoms _ _ Hextr), Hrdt; [eauto|].
        rewrite Hnrt. eapply wf_rdom_alloc; eauto.
    - split; simpl.
      + intros l Hl. rewrite lookup_insert_ne by lia.
        rewrite (ext_schedules _ _ Hextr), (ext_schedules _ _ Hextt),
          (ext_schedules _ _ Hexti); try done; lia.
      + intros r Hr. pose proof (ext_next_rdom _ _ Hexti).
        rewrite (ext_rdoms _ _ Hextr), Hrdt, (ext_rdoms _ _ Hexti); try done. lia.
      + lia.
      + pose proof (ext_next_rdom _ _ Hexti).
        pose proof (ext_next_rdom _ _ Hextr). lia.
      + rewrite (ext_warnings _ _ Hextr), (ext_warnings _ _ Hextt).
        apply (ext_warnings _ _ Hexti).
    - simpl. pose proof (ext_next_rdom _ _ Hextr). lia.
    - intros r Hr. simpl. rewrite (ext_rdoms _ _ Hextr), Hrdt by lia. by apply Hrdi.
    - exists (specs ++ [{| condition := condition sp; schedule := Some d' |}]).
      split; [simpl; by rewrite lookup_insert_eq|].
      rewrite (take_S_r _ _ _ Hsp). apply Forall2_app.
      + (* the copies made in earlier turns *)
        assert (Hin_specs : ∀ sp', sp' ∈ specs →
                  ∀ q', schedule sp' = Some q' →
                  (d < q')%positive ∧ (q' < next_schedule σi)%positive).
        { intros sp' Hin q' Hq'.
          destruct (wf_nested _ Hwfi _ _ sp' Hdi Hin) as (q1 & Hq1 & Hlt & Hqa).
          rewrite Hq' in Hq1. injection Hq1 as <-.
          pose proof (wf_alloc _ Hwfi q' Hqa). lia. }
        apply Forall2_same_length_lookup_2; [by eapply Forall2_length|].
        intros k sp0 sp0' Hk Hk'.
        destruct (Forall2_lookup_lr _ _ _ _ _ _ Hspecs Hk Hk')
          as (Hcond & q0 & q0' & Hq0 & Hq0' & Hq0le & Htree0 & Hfresh0 & Hpath0).
        destruct (Hin_specs sp0' (list_elem_of_lookup_2 _ _ _ Hk') q0' Hq0') as [Hlo Hhi].
        split; [done|]. exists q0, q0'. split_and!; try done.
        * intros f1 f2 Hf1 Hf2.
          rewrite (tree_of_agree
                     (λ x, (d < x)%positive ∧ (x < next_schedule σi)%positive) σi σj).
          -- apply Htree0; [done|]. simpl in Hf2. lia.
          -- intros x [Hx1 Hx2]. by apply Hkeep.
          -- apply Hclosed_i.
          -- intros x c r _ Hc Hr. apply Hkeep_rd.
             eapply wf_rdom_alloc; [done|]. by eapply wf_rdom.
          -- done.
        * intros r Hh. apply Hfresh0.
          eapply (holds_rdom_agree
                    (λ x, (d < x)%positive ∧ (x < next_schedule σi)%positive) σi σj);
            [| |exact Hh|done].
          -- intros x [Hx1 Hx2]. by apply Hkeep.
          -- apply Hclosed_i.
        * intros Hdef Hstable path x cx k0 T Hp Hx HT.
          destruct (Hpath0 Hdef Hstable path x cx k0 T Hp Hx HT)
            as (x' & cx' & Hp' & Hx' & C & HwC & HcmC).
          destruct (nested_at_agree
                      (λ y, (d < y)%positive ∧ (y < next_schedule σi)%positive) σi σj)
            with (l := q0') (path := path) (l' := x') as [Hpj [Hlo' Hhi']];
            [|exact Hclosed_i|done|done|].
          { intros y [Hy1 Hy2]. by apply Hkeep. }
          exists x', cx'. split; [done|]. split; [by rewrite Hkeep|].
          exists C. split; [done|].
          apply (HIr (λ cmx _, cmx !! T = Some (Some C))).
          -- intros l c cmx fsx _ _ _ HI. by apply copy_wrappers_keeps.
          -- intros sq _. by apply copy_wrappers_keeps.
      + (* the copy made in this turn *)
        constructor; [|constructor]. split; [done|]. exists q, d'.
        split_and!; try done.
        * simpl. lia.
        * intros f1 f2 Hf1 Hf2.
          rewrite (tree_of_agree (λ x, (d < x)%positive) σr σj);
            [|done|exact Hclosed_r|done|lia].
          rewrite (Htree f1 f2); [|done|simpl in Hf2; lia].
          apply (tree_of_agree (λ x, (x < N)%positive) σ σt); [done| |done|done].
          intros x c sp0 q0 Hx Hc Hin Hq0. eapply Hclosed; eauto.
        * intros r Hh.
          assert (Hh' : holds_rdom σr d' r).
          { eapply (holds_rdom_agree (λ x, (d < x)%positive) σr σj);
              [done|exact Hclosed_r|exact Hh|lia]. }
          apply Hfresh in Hh'. lia.
        * intros Hdef Hstable path x cx k0 T Hp Hx HT.
          destruct (nested_at_agree (λ y, (y < N)%positive) σ σt)
            with (l := q) (path := path) (l' := x) as [Hpt HxN];
            [exact Hsrc_t| |done|done|].
          { intros y c0 sp0 q0 Hy Hc0 Hin Hq0. eapply Hclosed; eauto. }
          destruct (Hpr Hdef Hstable path x cx k0 T Hpt)
            as (x' & cx' & Hp' & Hx' & Hsh); [by rewrite Hsrc_t|done|].
          destruct (nested_at_agree (λ y, (d < y)%positive) σr σj)
            with (l := d') (path := path) (l' := x') as [Hpj Hdx'];
            [done|exact Hclosed_r|done|lia|].
          exists x', cx'. split; [done|]. split; [by rewrite Hj_r|done].
    - intros I HI HI1. simpl. apply (HIr I).
      + intros l c cmx fsx Hn Hne Hc.
        destruct (nested_agree (λ x, (x < N)%positive) σ σt Hsrc_t) with (l := q) (l' := l)
          as [Hn' Hl']; [|done|done|].
        { intros x c0 sp0 q0 Hx Hc0 Hin Hq0. eapply Hclosed; eauto. }
        rewrite Hsrc_t in Hc by done. apply (HI l c); [| |done].
        * eapply nested_below; [exact Hs|by eapply list_elem_of_lookup_2|done|done].
        * pose proof (nested_le _ _ _ Hwf Hn'). lia.
      + intros sq Hsq. rewrite Hsrc_t in Hsq by done. rewrite Hstt.
        apply (HI q sq); [| |done|by apply HIi].
        * eapply nested_below;
            [exact Hs|by eapply list_elem_of_lookup_2|done|constructor].
        * lia. }
  rewrite (bind_Ok _ _ _ _ _ Hloop).
  destruct HPn as (Hwfn & Hextn & Hnrn & Hrdn & (specs & Hdn & Hspecs) & HIn).
  rewrite firstn_all in Hspecs.
  exists d, cm2, σn. split; [done|]. split; [done|]. split; [done|]. split; [lia|].
  destruct Hcb as (Hsl & Hcl & Hsp & Hdm & Hsd & Hbd & Hmm & Hto & Har & Hw & Hrdcb).
  assert (Hrdn' : ∀ r', rd = Some r' → rdoms σn !! r' = rdoms σ2 !! r').
  { intros r' ->. rewrite Hrdn; [by rewrite Hrd4|].
    rewrite Hnr4. eapply (wf_rdom_alloc _ Hwf2). by apply Hrdalloc. }
  split_and!.
  - exists s, (set_specializations specs cb). split_and!; try done.
    split; try done.
    + simpl. by rewrite Hcw', Hw.
    + simpl. rewrite Hrdcb. destruct (reduction_domain s) as [r|]; [|done].
      destruct Hrdspec as (r' & -> & Hr' & Hcont). exists r'. split_and!; try done.
      * lia.
      * rewrite Hrdn' by done. rewrite Hcont. by rewrite Hrd1.
    + simpl. eapply Forall2_impl; [done|].
      intros sp sp' (Hcond & q & q' & _ & Hq' & Hle & _). split; [done|]. eauto.
  - (* the tree *)
    intros f1 f2 Hf1 Hf2.
    pose proof (wf_alloc _ Hwfn d (ex_intro _ _ Hdn)) as Hdlt.
    destruct f1 as [|f1]; [lia|]. destruct f2 as [|f2]; [lia|].
    simpl. rewrite Hdn, Hs. f_equal.
    + unfold value_of. simpl. rewrite Hsl, Hcl, Hsp, Hdm, Hsd, Hbd, Hmm, Hto, Har, Hw, Hdom.
      f_equal. rewrite Hrdcb. destruct (reduction_domain s) as [r|]; [|by subst].
      destruct Hrdspec as (r' & -> & Hr' & Hcont). simpl.
      rewrite Hrdn' by done. rewrite Hcont. by rewrite Hrd1.
    + simpl. symmetry. apply list_eq_Forall2, Forall2_fmap.
      apply Forall2_same_length_lookup_2; [by eapply Forall2_length|].
      intros k sp sp' Hk Hk'.
      destruct (Forall2_lookup_lr _ _ _ _ _ _ Hspecs Hk Hk')
        as (Hcond & q & q' & Hq & Hq' & Hle & Htr & _). simpl.
      rewrite Hcond, Hq, Hq'. f_equal. symmetry.
      destruct (wf_nested _ Hwf _ _ sp Hs (list_elem_of_lookup_2 _ _ _ Hk))
        as (q0 & Hq0 & Hlt & _).
      rewrite Hq in Hq0. injection Hq0 as <-.
      destruct (wf_nested _ Hwfn _ _ sp' Hdn (list_elem_of_lookup_2 _ _ _ Hk'))
        as (q0 & Hq0 & Hlt' & _).
      rewrite Hq' in Hq0. injection Hq0 as <-.
      apply Htr; lia.
  - (* the reduction domains below the copy are new *)
    intros r (l' & c' & Hn & Hl' & Hr).
    assert (Hle4 : (next_rdom σ ≤ next_rdom σ4)%positive).
    { rewrite Hnr4. pose proof (ext_next_rdom _ _ Hext2). lia. }
    destruct (nested_inv _ _ _ Hn) as [->|(c0 & sp & q & Hl0 & Hin & Hq & Hn')].
    + rewrite Hdn in Hl'. injection Hl' as <-. simpl in Hr. rewrite Hrdcb in Hr.
      rewrite Hr in Hrdspec. revert Hrdspec. destruct (reduction_domain s) as [r0|]; [|done].
      intros (r' & [= <-] & Hr' & _). lia.
    + rewrite Hdn in Hl0. injection Hl0 as <-. simpl in Hin.
      apply list_elem_of_lookup in Hin as [k Hk].
      destruct (Forall2_lookup_r _ _ _ _ _ Hspecs Hk)
        as (sp0 & _ & _ & q0 & q0' & _ & Hq0' & _ & _ & Hfresh0 & _).
      rewrite Hq in Hq0'. injection Hq0' as <-.
      assert ((next_rdom σ4 ≤ r)%positive); [|lia].
      apply Hfresh0. by exists l', c'.
  - (* and newer than the one of the copy itself *)
    intros c' r1 sp q r Hc' Hr1 Hin Hq Hh.
    rewrite Hdn in Hc'. injection Hc' as <-. simpl in Hr1, Hin.
    rewrite Hrdcb in Hr1.
    apply list_elem_of_lookup in Hin as [k Hk].
    destruct (Forall2_lookup_r _ _ _ _ _ Hspecs Hk)
      as (sp0 & _ & _ & q0 & q0' & _ & Hq0' & _ & _ & Hfresh0 & _).
    rewrite Hq in Hq0'. injection Hq0' as <-.
    pose proof (Hfresh0 r Hh).
    pose proof (wf_rdom_alloc _ Hwf2 r1 (Hrdalloc r1 Hr1)). lia.
  - (* the memo map and the stage store *)
    intros I HI HI0. apply HIn; [done|].
    pose proof (HI0 s Hs) as HI1. by rewrite Hcw' in HI1.
  - (* the wrappers of the records of the copy *)
    intros Hdef Hstable path x cx k T Hp Hx HT.
    pose proof (nested_at_inv _ _ _ _ Hp) as Hinv.
    destruct path as [|i path]; simpl in Hinv.
    + subst x. rewrite Hs in Hx. injection Hx as <-.
      exists d, (set_specializations specs cb). split; [constructor|]. split; [done|].
      destruct (copy_wrappers_shares (wrappers s) cm (stages σ) k T Hdef Hstable HT)
        as (C & HwC & HcmC).
      rewrite Hcw' in HwC, HcmC. simpl in HwC, HcmC.
      exists C. simpl. rewrite Hw. split; [done|].
      apply (HIn (λ cmx _, cmx !! T = Some (Some C))); [|done].
      intros l c cmx fsx _ _ _ HI. by apply copy_wrappers_keeps.
    + destruct Hinv as (c0 & sp & q & Hl0 & Hi & Hq & Hp').
      rewrite Hs in Hl0. injection Hl0 as <-.
      destruct (Forall2_lookup_l _ _ _ _ _ Hspecs Hi)
        as (sp' & Hi' & _ & q0 & q' & Hq0 & Hq' & _ & _ & _ & Hpath).
      rewrite Hq in Hq0. injection Hq0 as <-.
      destruct (Hpath Hdef Hstable path x cx k T Hp' Hx HT)
        as (x' & cx' & Hp'' & Hx' & Hsh).
      exists x', cx'. split; [|done].
      eapply nested_at_below; [exact Hdn|exact Hi'|exact Hq'|exact Hp''].
Qed.

(** The same without the wrappers of the nested records. *)
Lemma deep_copy_schedule_contents_helper_tree fuel : ∀ src cm σ N,
  wf σ → is_Some (schedules σ !! src) →
  (N ≤ next_schedule σ)%positive → closed_below N σ → (src < N)%positive →
  Pos.to_nat N - Pos.to_nat src ≤ fuel →
  ∃ d cm' σ',
    deep_copy_schedule_contents_helper fuel (Some src) cm σ = Ok (Some d, cm') σ' ∧
    wf σ' ∧ extends σ σ' ∧ (next_schedule σ ≤ d)%positive ∧
    (∃ s c', schedules σ !! src = Some s ∧ schedules σ' !! d = Some c' ∧
       copied σ σ' cm s c') ∧
    (∀ f1 f2, Pos.to_nat N - Pos.to_nat src ≤ f1 →
       Pos.to_nat (next_schedule σ') - Pos.to_nat d ≤ f2 →
       tree_of f2 σ' d = tree_of f1 σ src) ∧
    (∀ r, holds_rdom σ' d r → (next_rdom σ ≤ r)%positive) ∧
    (∀ c' r1 sp q r, schedules σ' !! d = Some c' → reduction_domain c' = Some r1 →
       sp ∈ specializations c' → schedule sp = Some q → holds_rdom σ' q r →
       (r1 < r)%positive) ∧
    (∀ I : DeepCopyMap → FuncStore → Prop,
       (∀ l c cmx fsx, nested σ src l → l ≠ src → schedules σ !! l = Some c →
          I cmx fsx →
          I (copy_wrappers (wrappers c) cmx fsx).1.2
            (copy_wrappers (wrappers c) cmx fsx).2) →
       (∀ s, schedules σ !! src = Some s →
          I (copy_wrappers (wrappers s) cm (stages σ)).1.2
            (copy_wrappers (wrappers s) cm (stages σ)).2) →
       I cm' (stages σ')).
Proof.
  intros src cm σ N Hwf Hsrc HN Hclosed HsrcN Hfuel.
  destruct (deep_copy_schedule_contents_helper_paths fuel src cm σ N
              Hwf Hsrc HN Hclosed HsrcN Hfuel)
    as (d & cm' & σ' & Hrun & Hwf' & Hext & Hd & Hcp & Htree & Hfresh & Hsep & HI & _).
  by exists d, cm', σ'.
Qed.

Lemma deep_copy_schedule_contents_helper_total fuel : ∀ src cm σ N,
  wf σ → is_Some (schedules σ !! src) →
  (N ≤ next_schedule σ)%positive → closed_below N σ → (src < N)%positive →
  Pos.to_nat N - Pos.to_nat src ≤ fuel →
  ∃ d cm' σ',
    deep_copy_schedule_contents_helper fuel (Some src) cm σ = Ok (Some d, cm') σ' ∧
    wf σ' ∧ extends σ σ' ∧ (next_schedule σ ≤ d)%positive ∧
    ∃ s c', schedules σ !! src = Some s ∧ schedules σ' !! d = Some c' ∧
      copied σ σ' cm s c'.
Proof.
  intros src cm σ N Hwf Hsrc HN Hclosed HsrcN Hfuel.
  destruct (deep_copy_schedule_contents_helper_tree fuel src cm σ N
              Hwf Hsrc HN Hclosed HsrcN Hfuel)
    as (d & cm' & σ' & Hrun & Hwf' & Hext & Hd & Hcp & _).
  by exists d, cm', σ'.
Qed.

Lemma deep_copy_schedule_contents_helper_mono_S fuel : ∀ src cm σ,
  res_le (deep_copy_schedule_contents_helper fuel src cm σ)
         (deep_copy_schedule_contents_helper (S fuel) src cm σ).
Proof.
  induction fuel as [|fuel IH]; intros [src|] cm σ; try apply res_le_refl.
  { by left. }
  rewrite !deep_copy_schedule_contents_helper_unfold.
  apply bind_mono; [apply res_le_refl|]. intros dst σ1.
  apply bind_mono; [apply res_le_refl|]. intros s σ2.
  apply bind_mono; [apply res_le_refl|]. intros rd σ3.
  apply bind_mono; [apply res_le_refl|]. intros d σ4.
  apply bind_mono; [apply res_le_refl|]. intros _ σ5.
  apply bind_mono; [apply res_le_refl|]. intros σ6 σ7.
  destruct (copy_wrappers (wrappers s) cm (stages σ6)) as [[w cm1] fs].
  apply bind_mono; [apply res_le_refl|]. intros d' σ8.
  apply bind_mono; [apply res_le_refl|]. intros _ σ9.
  apply bind_mono; [apply res_le_refl|]. intros _ σ10.
  apply bind_mono; [apply res_le_refl|]. intros _ σ11.
  apply bind_mono; [|intros; apply res_le_refl].
  apply for_each_mono. intros cmi sp σi.
  apply bind_mono; [apply res_le_refl|]. intros _ σi1.
  apply bind_mono; [apply IH|]. intros; apply res_le_refl.
Qed.

Lemma deep_copy_schedule_contents_helper_mono fuel fuel' src cm σ :
  fuel ≤ fuel' →
  res_le (deep_copy_schedule_contents_helper fuel src cm σ)
         (deep_copy_schedule_contents_helper fuel' src cm σ).
Proof.
  induction 1 as [|fuel' _ IH]; [apply res_le_refl|].
  eapply res_le_trans; [exact IH|]. apply deep_copy_schedule_contents_helper_mono_S.
Qed.

Lemma closed_below_next σ : wf σ → closed_below (next_schedule σ) σ.
Proof.
  intros Hwf l c sp q _ Hl Hin Hq.
  destruct (wf_nested _ Hwf _ _ _ Hl Hin) as (q' & Hq' & _ & Hqa).
  simplify_eq. by eapply wf_alloc.
Qed.

(** [Schedule::deep_copy] on a handle with a record behind it, with what
    [deep_copy_schedule_contents_helper_paths] says of the engine. *)
Lemma Schedule_deep_copy_paths fuel this cm σ src :
  wf σ → contents this = Some src → is_Some (schedules σ !! src) →
  enough_fuel σ src fuel →
  ∃ d cm' σ',
    Schedule_deep_copy fuel this cm σ = Ok ({| contents := Some d |}, cm') σ' ∧
    wf σ' ∧ extends σ σ' ∧ (next_schedule σ < d)%positive ∧
    (∃ s c', schedules σ !! src = Some s ∧ schedules σ' !! d = Some c' ∧
       copied σ σ' cm s c') ∧
    (∀ f1 f2, enough_fuel σ src f1 → enough_fuel σ' d f2 →
       tree_of f2 σ' d = tree_of f1 σ src) ∧
    (∀ r, holds_rdom σ' d r → (next_rdom σ ≤ r)%positive) ∧
    (∀ c' r1 sp q r, schedules σ' !! d = Some c' → reduction_domain c' = Some r1 →
       sp ∈ specializations c' → schedule sp = Some q → holds_rdom σ' q r →
       (r1 < r)%positive) ∧
    (∀ I : DeepCopyMap → FuncStore → Prop,
       (∀ l c cmx fsx, nested σ src l → l ≠ src → schedules σ !! l = Some c →
          I cmx fsx →
          I (copy_wrappers (wrappers c) cmx fsx).1.2
            (copy_wrappers (wrappers c) cmx fsx).2) →
       (∀ s, schedules σ !! src = Some s →
          I (copy_wrappers (wrappers s) cm (stages σ)).1.2
            (copy_wrappers (wrappers s) cm (stages σ)).2) →
       I cm' (stages σ')) ∧
    ((∀ f cm fs, is_Some (deep_copy_function_contents_helper f cm fs).1.1) →
     (∀ f cm fs g c, cm !! g = Some (Some c) →
        (deep_copy_function_contents_helper f cm fs).1.2 !! g = Some (Some c)) →
     ∀ path x cx k T, nested_at σ src path x → schedules σ !! x = Some cx →
       wrappers cx !! k = Some T →
       ∃ x' cx', nested_at σ' d path x' ∧ schedules σ' !! x' = Some cx' ∧
         shares (wrappers cx') cm' k T).
Proof.
  intros Hwf Hthis Hsrc Hfuel. unfold Schedule_deep_copy, Schedule_new.
  destruct (new_ScheduleContents_spec σ Hwf)
    as (σ1 & Hnew & Hwf1 & Hext1 & Hd1 & Hnext1 & Hnr1 & Hrd1 & Hst1 & Hother1).
  rewrite Hthis.
  rewrite (bind_Ok _ _ σ {| contents := Some (next_schedule σ) |} σ1)
    by (by rewrite (bind_Ok _ _ _ _ _ Hnew)).
  simpl. unfold internal_assert. rewrite (bind_Ok _ _ σ1 tt σ1) by done.
  pose proof (wf_alloc _ Hwf src Hsrc) as Hlt.
  assert (Hclosed : ∀ x c sp q, (x < next_schedule σ)%positive →
            schedules σ !! x = Some c → sp ∈ specializations c →
            schedule sp = Some q → (q < next_schedule σ)%positive).
  { intros x c sp q Hx Hc Hin Hq. eapply (closed_below_next σ Hwf); eauto. }
  assert (Hagree : ∀ x, (x < next_schedule σ)%positive →
            schedules σ1 !! x = schedules σ !! x).
  { intros x Hx. apply Hother1. lia. }
  destruct (deep_copy_schedule_contents_helper_paths fuel src cm σ1 (next_schedule σ))
    as (d & cm' & σ' & Hrun & Hwf' & Hext' & Hd & (s & c' & Hs & Hc' & Hcp) &
        Htree & Hfresh & Hsep & HI & Hpaths); try done.
  { rewrite Hagree by done. done. }
  { rewrite Hnext1. lia. }
  { intros l c sp q Hl Hc Hin Hq. rewrite Hagree in Hc by done. eauto. }
  rewrite (bind_Ok _ _ _ _ _ Hrun). simpl.
  rewrite Hagree in Hs by done.
  exists d, cm', σ'. split; [done|]. split; [done|].
  split; [by eapply extends_trans|]. split; [lia|]. split_and!.
  - exists s, c'. split_and!; try done.
    destruct Hcp as [? ? ? ? ? ? ? ? ? Hw Hrdcp Hspcp]. split; try done.
    + by rewrite <- Hst1.
    + destruct (reduction_domain s); [|done].
      destruct Hrdcp as (r' & ? & ? & ?). exists r'.
      split_and!; try done; [lia|congruence].
    + eapply Forall2_impl; [done|]. intros sp sp' (? & q' & ? & ?).
      split; [done|]. exists q'. split; [done|lia].
  - intros f1 f2 Hf1 Hf2. rewrite (Htree f1 f2); [|done|done].
    apply (tree_of_agree (λ x, (x < next_schedule σ)%positive) σ σ1);
      [done|done| |done].
    intros x c r _ _ _. by rewrite Hrd1.
  - intros r Hh. apply Hfresh in Hh. lia.
  - done.
  - intros I HIn HItop. apply HI.
    + intros l c cmx fsx Hn Hne Hc.
      destruct (nested_agree (λ x, (x < next_schedule σ)%positive) σ σ1 Hagree Hclosed
                  src l Hn Hlt) as [Hn' Hl'].
      rewrite Hagree in Hc by done. by apply (HIn l c).
    + intros s0 Hs0. rewrite Hagree in Hs0 by done. rewrite Hst1. by apply HItop.
  - intros Hdef Hstable path x cx k T Hp Hx HT.
    destruct (nested_at_agree (λ y, (y < next_schedule σ)%positive) σ σ1)
      with (l := src) (path := path) (l' := x) as [Hp1 Hx1]; [done|done|done|done|].
    apply (Hpaths Hdef Hstable path x cx k T Hp1); [by rewrite Hagree|done].
Qed.

(** The same without the wrappers of the nested records. *)
Lemma Schedule_deep_copy_tree fuel this cm σ src :
  wf σ → contents this = Some src → is_Some (schedules σ !! src) →
  enough_fuel σ src fuel →
  ∃ d cm' σ',
    Schedule_deep_copy fuel this cm σ = Ok ({| contents := Some d |}, cm') σ' ∧
    wf σ' ∧ extends σ σ' ∧ (next_schedule σ < d)%positive ∧
    (∃ s c', schedules σ !! src = Some s ∧ schedules σ' !! d = Some c' ∧
       copied σ σ' cm s c') ∧
    (∀ f1 f2, enough_fuel σ src f1 → enough_fuel σ' d f2 →
       tree_of f2 σ' d = tree_of f1 σ src) ∧
    (∀ r, holds_rdom σ' d r → (next_rdom σ ≤ r)%positive) ∧
    (∀ c' r1 sp q r, schedules σ' !! d = Some c' → reduction_domain c' = Some r1 →
       sp ∈ specializations c' → schedule sp = Some q → holds_rdom σ' q r →
       (r1 < r)%positive) ∧
    (∀ I : DeepCopyMap → FuncStore → Prop,
       (∀ l c cmx fsx, nested σ src l → l ≠ src → schedules σ !! l = Some c →
          I cmx fsx →
          I (copy_wrappers (wrappers c) cmx fsx).1.2
            (copy_wrappers (wrappers c) cmx fsx).2) →
       (∀ s, schedules σ !! src = Some s →
          I (copy_wrappers (wrappers s) cm (stages σ)).1.2
            (copy_wrappers (wrappers s) cm (stages σ)).2) →
       I cm' (stages σ')).
Proof.
  intros Hwf Hthis Hsrc Hfuel.
  destruct (Schedule_deep_copy_paths fuel this cm σ src Hwf Hthis Hsrc Hfuel)
    as (d & cm' & σ' & Hrun & Hwf' & Hext & Hd & Hcp & Htree & Hfresh & Hsep & HI & _).
  by exists d, cm', σ'.
Qed.

(** The records nested in an allocated record of a well-formed store
    are allocated, and so are the reduction domains they hold. *)
Lemma nested_alloc σ l l' :
  wf σ → is_Some (schedules σ !! l) → nested σ l l' → is_Some (schedules σ !! l').
Proof.
  intros Hwf Hl. induction 1 as [|l c sp q l' Hc Hin Hq _ IH]; [done|].
  apply IH. destruct (wf_nested _ Hwf _ _ _ Hc Hin) as (q' & Hq' & _ & Hqa).
  congruence.
Qed.

Lemma holds_rdom_alloc σ l r :
  wf σ → holds_rdom σ l r → (r < next_rdom σ)%positive.
Proof.
  intros Hwf (l' & c & _ & Hc & Hr). eapply wf_rdom_alloc; [done|].
  by eapply wf_rdom.
Qed.

(** [Schedule::deep_copy] on a handle with a record behind it. *)
Lemma Schedule_deep_copy_total fuel this cm σ src :
  wf σ → contents this = Some src → is_Some (schedules σ !! src) →
  enough_fuel σ src fuel →
  ∃ d cm' σ',
    Schedule_deep_copy fuel this cm σ = Ok ({| contents := Some d |}, cm') σ' ∧
    wf σ' ∧ extends σ σ' ∧ (next_schedule σ < d)%positive ∧
    ∃ s c', schedules σ !! src = Some s ∧ schedules σ' !! d = Some c' ∧
      copied σ σ' cm s c'.
Proof.
  intros Hwf Hthis Hsrc Hfuel.
  destruct (Schedule_deep_copy_tree fuel this cm σ src Hwf Hthis Hsrc Hfuel)
    as (d & cm' & σ' & Hrun & Hwf' & Hext & Hd & Hcp & _).
  by exists d, cm', σ'.
Qed.

(** Whatever the budget, [Schedule::deep_copy] on such a handle either
    runs out of budget or returns. *)
Lemma Schedule_deep_copy_any_fuel fuel this cm σ src :
  wf σ → contents this = Some src → is_Some (schedules σ !! src) →
  Schedule_deep_copy fuel this cm σ = OutOfFuel ∨
  ∃ d cm' σ',
    Schedule_deep_copy fuel this cm σ = Ok ({| contents := Some d |}, cm') σ' ∧
    wf σ' ∧ extends σ σ' ∧ (next_schedule σ < d)%positive ∧
    ∃ s c', schedules σ !! src = Some s ∧ schedules σ' !! d = Some c' ∧
      copied σ σ' cm s c'.
Proof.
  intros Hwf Hthis Hsrc.
  set (big := fuel `max` (Pos.to_nat (next_schedule σ) - Pos.to_nat src)).
  destruct (Schedule_deep_copy_total big this cm σ src) as (d & cm' & σ' & Hrun & Hrest);
    try done.
  { unfold enough_fuel, big. lia. }
  assert (Hle : res_le (Schedule_deep_copy fuel this cm σ)
                       (Schedule_deep_copy big this cm σ)).
  { unfold Schedule_deep_copy.
    apply bind_mono; [apply res_le_refl|]. intros copy σ1.
    apply bind_mono; [apply res_le_refl|]. intros _ σ2.
    apply bind_mono; [|intros; apply res_le_refl].
    apply deep_copy_schedule_contents_helper_mono. unfold big. lia. }
  destruct Hle as [Ho|Heq]; [by left|]. right.
  exists d, cm', σ'. split; [congruence|done].
Qed.

(** [Schedule::deep_copy] on an undefined handle. *)
Lemma Schedule_deep_copy_undefined fuel this cm σ :
  contents this = None →
  ∃ σ', Schedule_deep_copy fuel this cm σ =
          Fatal Cannot_deep_copy_undefined_Schedule σ' ∧
        new_ScheduleContents σ = Ok (Some (next_schedule σ)) σ'.
Proof.
  intros Hthis. unfold Schedule_deep_copy, Schedule_new. rewrite Hthis.
  eexists. split; [|done]. done.
Qed.

End DeepCopyEngine.

(** ** The interface *)

Section Interface.
Context `{Collaborators}.

Lemma read_spec {A} (field : ScheduleContents → A) this l c σ :
  contents this = Some l → schedules σ !! l = Some c →
  read field this σ = Ok (field c) σ.
Proof.
  intros Hthis Hl. unfold read. rewrite Hthis.
  by rewrite (bind_Ok _ _ _ _ _ (deref_Some _ _ _ Hl)).
Qed.

Lemma assign_spec upd this l c σ :
  contents this = Some l → schedules σ !! l = Some c →
  assign upd this σ = Ok tt (with_schedules (<[l := upd c]> (schedules σ)) σ).
Proof.
  intros Hthis Hl. unfold assign. rewrite Hthis.
  rewrite (bind_Ok _ _ _ _ _ (deref_Some _ _ _ Hl)).
  by rewrite (store_Some _ _ _ _ Hl).
Qed.

Lemma wf_fresh σ : wf σ → schedules σ !! next_schedule σ = None.
Proof.
  intros Hwf. destruct (schedules σ !! next_schedule σ) eqn:Hl; [|done].
  pose proof (wf_alloc _ Hwf _ (ex_intro _ _ Hl)). lia.
Qed.

(** [add_specialization] on a handle with a record behind it. *)
Lemma Schedule_add_specialization_spec this cond l c σ :
  contents this = Some l → schedules σ !! l = Some c →
  schedules σ !! next_schedule σ = None →
  let p := next_schedule σ in
  let sp := {| condition := cond; schedule := Some p |} in
  Schedule_add_specialization this cond σ =
    Ok sp
       {| schedules :=
            <[l := set_specializations (specializations c ++ [sp]) c]>
              (<[p := assign_fields c (reduction_domain c) ScheduleContents_new]>
                 (<[p := ScheduleContents_new]> (schedules σ)));
          next_schedule := Pos.succ p;
          rdoms := rdoms σ; next_rdom := next_rdom σ; stages := stages σ;
          warnings := warnings σ |}.
Proof.
  intros Hthis Hl Hfresh p sp. unfold Schedule_add_specialization.
  assert (Hlp : l ≠ p) by (intros ->; unfold p in Hl; congruence).
  rewrite (bind_Ok new_ScheduleContents _ σ _ _ eq_refl).
  rewrite (bind_Ok _ _ _ ScheduleContents_new _)
    by (apply deref_Some; simpl; by rewrite lookup_insert_eq).
  rewrite Hthis.
  rewrite (bind_Ok _ _ _ c _)
    by (apply deref_Some; simpl; by rewrite lookup_insert_ne).
  erewrite bind_Ok; [|eapply store_Some; simpl; by rewrite lookup_insert_eq].
  erewrite bind_Ok;
    [|eapply deref_Some; simpl; rewrite !lookup_insert_ne by done; exact Hl].
  erewrite bind_Ok;
    [|eapply store_Some; simpl; rewrite !lookup_insert_ne by done; exact Hl].
  erewrite bind_Ok; [|eapply deref_Some; simpl; by rewrite lookup_insert_eq].
  simpl. by rewrite last_snoc.
Qed.

Lemma Schedule_add_specialization_undefined this cond σ :
  contents this = None → Schedule_add_specialization this cond σ = Undefined.
Proof.
  intros Hthis. unfold Schedule_add_specialization.
  rewrite (bind_Ok new_ScheduleContents _ σ _ _ eq_refl).
  erewrite bind_Ok; [|apply deref_Some; simpl; by rewrite lookup_insert_eq].
  by rewrite Hthis.
Qed.

(** [add_wrapper] on a handle with a record behind it. *)
Lemma Schedule_add_wrapper_spec this f wrapper l c σ :
  contents this = Some l → schedules σ !! l = Some c →
  Schedule_add_wrapper this f wrapper σ =
    match wrappers c !! f with
    | None =>
        Ok tt (with_schedules
                 (<[l := set_wrappers (<[f := wrapper]> (wrappers c)) c]> (schedules σ)) σ)
    | Some _ =>
        if bool_decide (f = EmptyString) then
          Ok tt {| schedules :=
                     <[l := set_wrappers (<[f := wrapper]> (wrappers c)) c]> (schedules σ);
                   next_schedule := next_schedule σ;
                   rdoms := rdoms σ; next_rdom := next_rdom σ; stages := stages σ;
                   warnings := warnings σ ++ [Replacing_global_wrapper f] |}
        else Fatal (Wrapper_redefinition f) σ
    end.
Proof.
  intros Hthis Hl. unfold Schedule_add_wrapper. rewrite Hthis.
  rewrite (bind_Ok _ _ _ _ _ (deref_Some _ _ _ Hl)).
  destruct (wrappers c !! f) as [old|] eqn:Hf.
  - rewrite bool_decide_eq_true_2 by eauto.
    destruct (bool_decide (f = EmptyString)); [|done].
    erewrite bind_Ok; [|done].
    erewrite bind_Ok; [|by eapply deref_Some].
    by erewrite store_Some.
  - rewrite bool_decide_eq_false_2 by (intros [? ?]; done).
    erewrite bind_Ok; [|done].
    rewrite (bind_Ok _ _ _ _ _ (deref_Some _ _ _ Hl)).
    by rewrite (store_Some _ _ _ _ Hl).
Qed.

Lemma ReductionDomain_new_spec es σ :
  wf σ →
  ∃ σ', ReductionDomain_new es σ = Ok (Some (next_rdom σ)) σ' ∧ wf σ' ∧
    rdoms σ' !! next_rdom σ = Some es ∧ schedules σ' = schedules σ.
Proof.
  intros Hwf. eexists. split; [done|]. simpl. split_and!; try done.
  - split; simpl; try apply Hwf.
    + intros r' [es' Hr']. destruct (decide (r' = next_rdom σ)) as [->|Hne]; [lia|].
      rewrite lookup_insert_ne in Hr' by done.
      pose proof (wf_rdom_alloc _ Hwf r' (ex_intro _ es' Hr')). lia.
    + intros l c r' Hl Hr'. destruct (wf_rdom _ Hwf _ _ _ Hl Hr') as [es' Hes'].
      destruct (decide (next_rdom σ = r')) as [->|Hne].
      * rewrite lookup_insert_eq. eauto.
      * rewrite lookup_insert_ne by done. eauto.
  - by rewrite lookup_insert_eq.
Qed.

Lemma Schedule_new_spec σ :
  wf σ →
  ∃ σ', Schedule_new σ = Ok {| contents := Some (next_schedule σ) |} σ' ∧
    new_ScheduleContents σ = Ok (Some (next_schedule σ)) σ' ∧
    wf σ' ∧ extends σ σ' ∧
    schedules σ' !! next_schedule σ = Some ScheduleContents_new.
Proof.
  intros Hwf.
  destruct (new_ScheduleContents_spec σ Hwf) as (σ1 & Hnew & Hwf1 & Hext1 & Hd1 & _).
  exists σ1. split_and!; try done.
  unfold Schedule_new. by rewrite (bind_Ok _ _ _ _ _ Hnew).
Qed.

Lemma setter_update_specializations a c :
  specializations (setter_update a c) = specializations c.
Proof. by destruct a. Qed.

Lemma setter_update_reduction_domain a c :
  reduction_domain (setter_update a c) = reduction_domain c.
Proof. by destruct a. Qed.

Lemma wf_add_specialization σ l c cond :
  wf σ → schedules σ !! l = Some c →
  let p := next_schedule σ in
  let sp := {| condition := cond; schedule := Some p |} in
  wf {| schedules :=
          <[l := set_specializations (specializations c ++ [sp]) c]>
            (<[p := assign_fields c (reduction_domain c) ScheduleContents_new]>
               (<[p := ScheduleContents_new]> (schedules σ)));
        next_schedule := Pos.succ p;
        rdoms := rdoms σ; next_rdom := next_rdom σ; stages := stages σ;
        warnings := warnings σ |}.
Proof.
  intros Hwf Hl p sp.
  destruct (new_ScheduleContents_spec σ Hwf)
    as (σ1 & Hnew & Hwf1 & Hext1 & Hd1 & Hnext1 & Hnr1 & Hrd1 & Hst1 & Hother1).
  injection Hnew as <-.
  pose proof (wf_alloc _ Hwf l (ex_intro _ c Hl)) as Hlt.
  set (σ1 := {| schedules := <[p:=ScheduleContents_new]> (schedules σ);
                next_schedule := Pos.succ p; rdoms := rdoms σ;
                next_rdom := next_rdom σ; stages := stages σ;
                warnings := warnings σ |}) in *.
  set (cp := assign_fields c (reduction_domain c) ScheduleContents_new).
  assert (Hwf2 : wf (with_schedules (<[p := cp]> (schedules σ1)) σ1)).
  { eapply wf_update; [done..| |].
    - intros sp' Hin. simpl in Hin. by apply elem_of_nil in Hin.
    - intros r Hr. simpl in Hr. eapply (wf_rdom _ Hwf); eauto. }
  set (σ2 := with_schedules (<[p := cp]> (schedules σ1)) σ1) in *.
  change (wf (with_schedules
    (<[l := set_specializations (specializations c ++ [sp]) c]> (schedules σ2)) σ2)).
  eapply (wf_update σ2 l c); [done| | |].
  - simpl. rewrite !lookup_insert_ne by (unfold p; lia). done.
  - intros sp' Hin. simpl in Hin. apply elem_of_app in Hin as [Hin|Hin].
    + destruct (wf_nested _ Hwf _ _ _ Hl Hin) as (q & ? & ? & Hqa).
      exists q. split_and!; try done. simpl.
      pose proof (wf_alloc _ Hwf q Hqa).
      rewrite !lookup_insert_ne by (unfold p; lia). done.
    + apply list_elem_of_singleton in Hin as ->. exists p.
      split_and!; try done. simpl. rewrite lookup_insert_eq. eauto.
  - intros r Hr. simpl in Hr |- *. eapply (wf_rdom _ Hwf); eauto.
Qed.

Lemma wf_warn σ d :
  wf σ →
  wf {| schedules := schedules σ; next_schedule := next_schedule σ;
        rdoms := rdoms σ; next_rdom := next_rdom σ; stages := stages σ;
        warnings := warnings σ ++ [d] |}.
Proof. intros []. by split. Qed.

(** Every call keeps the store well formed, whether it returns or aborts. *)
Lemma run_wf σ c σ' :
  wf σ → permitted σ c →
  (run c σ = Ok tt σ' ∨ ∃ d, run c σ = Fatal d σ') → wf σ'.
Proof.
  intros Hwf Hperm Hrun. destruct c; simpl in Hperm, Hrun.
  - (* Schedule() *)
    destruct (Schedule_new_spec σ Hwf) as (σ1 & Hnew & _ & Hwf1 & _).
    rewrite (bind_Ok _ _ _ _ _ Hnew) in Hrun.
    destruct Hrun as [Hrun|[d Hrun]]; [|done]. by injection Hrun as <-.
  - destruct (ReductionDomain_new_spec es σ Hwf) as (σ1 & Hnew & Hwf1 & _).
    rewrite (bind_Ok _ _ _ _ _ Hnew) in Hrun.
    destruct Hrun as [Hrun|[d Hrun]]; [|done]. by injection Hrun as <-.
  - (* an assignment through an accessor *)
    destruct (contents this) as [l|] eqn:Hthis.
    2:{ unfold assign in Hrun. rewrite Hthis in Hrun. by destruct Hrun as [?|[? ?]]. }
    destruct (Hperm l Hthis) as [c Hl].
    rewrite (assign_spec _ _ _ _ _ Hthis Hl) in Hrun.
    destruct Hrun as [Hrun|[d Hrun]]; [|done]. injection Hrun as <-.
    eapply wf_update; [done..| |].
    + rewrite setter_update_specializations. intros sp Hin.
      by eapply wf_nested.
    + rewrite setter_update_reduction_domain. intros r Hr. by eapply wf_rdom.
  - (* set_reduction_domain *)
    destruct Hperm as [Hlive Hrd].
    destruct (contents this) as [l|] eqn:Hthis.
    2:{ unfold Schedule_set_reduction_domain, assign in Hrun. rewrite Hthis in Hrun.
        by destruct Hrun as [?|[? ?]]. }
    destruct (Hlive l Hthis) as [c Hl].
    unfold Schedule_set_reduction_domain in Hrun.
    rewrite (assign_spec _ _ _ _ _ Hthis Hl) in Hrun.
    destruct Hrun as [Hrun|[d' Hrun]]; [|done]. injection Hrun as <-.
    eapply wf_update; [done..| |].
    + simpl. intros sp Hin. by eapply wf_nested.
    + simpl. intros r Hr. by apply Hrd.
  - (* add_specialization *)
    destruct (contents this) as [l|] eqn:Hthis.
    2:{ unfold mbind, Prog_bind in Hrun.
        rewrite (Schedule_add_specialization_undefined _ _ _ Hthis) in Hrun.
        by destruct Hrun as [?|[? ?]]. }
    destruct (Hperm l Hthis) as [c Hl].
    rewrite (bind_Ok _ _ _ _ _
      (Schedule_add_specialization_spec _ cond _ _ _ Hthis Hl (wf_fresh _ Hwf))) in Hrun.
    destruct Hrun as [Hrun|[d Hrun]]; [|done]. injection Hrun as <-.
    by apply wf_add_specialization.
  - (* add_wrapper *)
    destruct (contents this) as [l|] eqn:Hthis.
    2:{ unfold Schedule_add_wrapper in Hrun. rewrite Hthis in Hrun.
        by destruct Hrun as [?|[? ?]]. }
    destruct (Hperm l Hthis) as [c Hl].
    rewrite (Schedule_add_wrapper_spec _ _ _ _ _ _ Hthis Hl) in Hrun.
    assert (Hupd : wf (with_schedules
      (<[l := set_wrappers (<[f := wrapper]> (wrappers c)) c]> (schedules σ)) σ)).
    { eapply wf_update; [done..| |]; simpl.
      - intros sp Hin. by eapply wf_nested.
      - intros r Hr. by eapply wf_rdom. }
    destruct (wrappers c !! f).
    + destruct (bool_decide (f = EmptyString)).
      * destruct Hrun as [Hrun|[d Hrun]]; [|done]. injection Hrun as <-.
        by apply (wf_warn _ _ Hupd).
      * destruct Hrun as [Hrun|[d Hrun]]; [done|]. by injection Hrun as _ <-.
    + destruct Hrun as [Hrun|[d Hrun]]; [|done]. by injection Hrun as <-.
  - (* deep_copy *)
    destruct (contents this) as [l|] eqn:Hthis.
    + destruct (Schedule_deep_copy_any_fuel fuel this copied_map σ l Hwf Hthis
                  (Hperm l Hthis)) as [Ho|(d & cm' & σ1 & Hdc & Hwf1 & _)].
      * unfold mbind, Prog_bind in Hrun. rewrite Ho in Hrun.
        by destruct Hrun as [?|[? ?]].
      * rewrite (bind_Ok _ _ _ _ _ Hdc) in Hrun.
        destruct Hrun as [Hrun|[d' Hrun]]; [|done]. by injection Hrun as <-.
    + destruct (Schedule_deep_copy_undefined fuel this copied_map σ Hthis)
        as (σ1 & Hdc & Hnew).
      unfold mbind, Prog_bind in Hrun. rewrite Hdc in Hrun.
      destruct Hrun as [Hrun|[d' Hrun]]; [done|]. injection Hrun as _ <-.
      destruct (new_ScheduleContents_spec σ Hwf) as (σ2 & Hnew2 & Hwf2 & _).
      congruence.
  - (* mutate *)
    unfold Schedule_mutate in Hrun.
    destruct (contents this) as [l|] eqn:Hthis.
    + destruct (ScheduleContents_mutate_any_fuel mutator_mutate fuel l m σ Hwf
                  (Hperm l Hthis)) as [Ho|(m' & σ1 & Hm & Hrel)].
      * unfold mbind, Prog_bind in Hrun. rewrite Ho in Hrun.
        by destruct Hrun as [?|[? ?]].
      * rewrite (bind_Ok _ _ _ _ _ Hm) in Hrun.
        destruct Hrun as [Hrun|[d' Hrun]]; [|done]. injection Hrun as <-.
        by eapply wf_related.
    + destruct Hrun as [Hrun|[d' Hrun]]; [|done]. by injection Hrun as <-.
Qed.

Lemma wf_initial fs : wf (initial_store fs).
Proof.
  split; simpl.
  - intros l [c Hl]. by rewrite lookup_empty in Hl.
  - intros l c sp Hl. by rewrite lookup_empty in Hl.
  - intros r [c Hr]. by rewrite lookup_empty in Hr.
  - intros l c r Hl. by rewrite lookup_empty in Hl.
Qed.

(** Every store the interface leads to is well formed. *)
Lemma reachable_wf σ : reachable σ → wf σ.
Proof.
  induction 1 as [fs|σ c σ' _ IH Hperm Hrun|σ c d σ' _ IH Hperm Hrun].
  - apply wf_initial.
  - eapply run_wf; eauto.
  - eapply run_wf; eauto.
Qed.

End Interface.

(** ** The accept traversal *)

Section Accept.
Context `{Collaborators} {V : Type} (visit : IRNode → V → V).

Abbreviation fold_visit := (foldl (λ v n, visit n v)).

Lemma accept_splits_loop ss v σ :
  for_each (λ v s, if defined (factor s) then Expr_accept visit (factor s) v else mret v)
    ss v σ = Ok (fold_visit v (omap id (map factor ss))) σ.
Proof.
  revert v. induction ss as [|s ss IH]; intros v; [done|].
  simpl. destruct (factor s) as [n|]; simpl.
  - erewrite bind_Ok; [|done]. apply IH.
  - erewrite bind_Ok; [|done]. apply IH.
Qed.

Lemma accept_bounds_loop bs v σ :
  for_each (λ v b,
      v' ← (if defined (min b) then Expr_accept visit (min b) v else mret v);
      if defined (extent b) then Expr_accept visit (extent b) v' else mret v')
    bs v σ = Ok (fold_visit v (omap id (flat_map (λ b, [min b; extent b]) bs))) σ.
Proof.
  revert v. induction bs as [|b bs IH]; intros v; [done|].
  simpl. destruct (min b) as [n1|], (extent b) as [n2|]; simpl.
  all: erewrite bind_Ok; [|done]; apply IH.
Qed.

Lemma accept_conditions_loop_defined sps v σ :
  Forall (λ sp, is_Some (condition sp)) sps →
  for_each (λ v s, Expr_accept visit (condition s) v) sps v σ =
    Ok (fold_visit v (omap id (map condition sps))) σ.
Proof.
  intros Hall. revert v. induction Hall as [|sp sps [n Hn] _ IH]; intros v; [done|].
  simpl. rewrite Hn. simpl. erewrite bind_Ok; [|done]. apply IH.
Qed.

Lemma accept_conditions_loop_undefined sps v σ :
  ¬ Forall (λ sp, is_Some (condition sp)) sps →
  for_each (λ v s, Expr_accept visit (condition s) v) sps v σ = Undefined.
Proof.
  revert v. induction sps as [|sp sps IH]; intros v Hnot.
  - destruct Hnot. constructor.
  - simpl. destruct (condition sp) as [n|] eqn:Hc; simpl.
    + erewrite bind_Ok; [|done]. apply IH. intros Hall. apply Hnot.
      constructor; [by rewrite Hc|done].
    + done.
Qed.

Lemma Schedule_accept_spec this l c v σ :
  contents this = Some l → schedules σ !! l = Some c →
  Schedule_accept visit this v σ =
    if decide (Forall (λ sp, is_Some (condition sp)) (specializations c))
    then Ok (fold_visit v (accept_order c)) σ
    else Undefined.
Proof.
  intros Hthis Hl. unfold Schedule_accept. rewrite Hthis.
  rewrite (bind_Ok _ _ _ _ _ (deref_Some _ _ _ Hl)).
  rewrite (bind_Ok _ _ _ _ _ (accept_splits_loop _ _ _)).
  rewrite (bind_Ok _ _ _ _ _ (deref_Some _ _ _ Hl)).
  rewrite (bind_Ok _ _ _ _ _ (accept_bounds_loop _ _ _)).
  rewrite (bind_Ok _ _ _ _ _ (deref_Some _ _ _ Hl)).
  unfold accept_order. rewrite !foldl_app.
  case_decide.
  - by apply accept_conditions_loop_defined.
  - by apply accept_conditions_loop_undefined.
Qed.

Lemma Schedule_accept_undefined this v σ :
  (∀ l, contents this = Some l → schedules σ !! l = None) →
  Schedule_accept visit this v σ = Undefined.
Proof.
  intros Hthis. unfold Schedule_accept, deref, mbind, Prog_bind.
  destruct (contents this) as [l|]; [|done]. by rewrite (Hthis l).
Qed.

End Accept.

(** * The claims of the specification *)

Section Reachability.
Context `{Collaborators}.

Lemma liveb_live σ this : liveb σ this = true → live σ this.
Proof.
  unfold liveb, live. intros Hb l Hl. rewrite Hl in Hb.
  by apply bool_decide_eq_true_1 in Hb.
Qed.

Lemma permittedb_permitted σ c : permittedb σ c = true → permitted σ c.
Proof.
  destruct c; simpl; try done; try apply liveb_live.
  intros [Hl Hd]%andb_true_iff. split; [by apply liveb_live|].
  intros r ->. by apply bool_decide_eq_true_1 in Hd.
Qed.

Lemma reachable_run_all cs : ∀ σ σ',
  reachable σ → run_all cs σ = Some σ' → reachable σ'.
Proof.
  induction cs as [|c cs IH]; intros σ σ' Hσ Hrun; simpl in Hrun.
  - by simplify_eq.
  - destruct (permittedb σ c) eqn:Hp; [|done].
    destruct (run c σ) as [[] σ1| | |] eqn:Hc; try done.
    eapply IH; [|done]. eapply reachable_return; [done| |done].
    by apply permittedb_permitted.
Qed.

End Reachability.

Section DemoFacts.
#[local] Existing Instance Demo.collaborators.
Import Demo.

Lemma example_store_reachable : reachable example_store.
Proof.
  eapply (reachable_run_all example_calls (@initial_store collaborators 1%positive)).
  - apply reachable_initial.
  - vm_compute. reflexivity.
Qed.

Lemma example_store_wf : wf example_store.
Proof. apply reachable_wf, example_store_reachable. Qed.

End DemoFacts.

Section Traversal.
Context `{Collaborators}.

Lemma foldl_snoc_log {A} (log xs : list A) :
  foldl (λ log e, log ++ [e]) log xs = log ++ xs.
Proof.
  revert log. induction xs as [|x xs IH]; intros log; simpl.
  - by rewrite app_nil_r.
  - by rewrite IH, <- app_assoc.
Qed.

Lemma foldl_keep {A B} (m : A) (xs : list B) : foldl (λ m _, m) m xs = m.
Proof. by induction xs. Qed.

Lemma visited_rewritten_by {M : Type} (f : Expr → Expr) e e' :
  (∀ e, f (f e) = f e) →
  visited (λ e (m : M), (f e, m)) e e' → rewritten_by f e e'.
Proof.
  intros Hidem. unfold visited, rewritten_by.
  destruct (defined e) eqn:Hd; [|intros ->; by destruct e].
  clear Hd. induction 1 as [x y [_ [m ->]]|x y z [_ [m ->]] _ IH]; [done|].
  simpl in *. by rewrite IH, Hidem.
Qed.

(** C5: with the identity transform [mutate] leaves the store as it is,
    so no field changes its value or its defined/undefined status; with
    a transform [f] that gives the same result when applied twice as
    when applied once, as rewriting the leaves to a fixed sentinel does,
    in the record and in every nested record at any depth every defined
    split factor, bound min, bound extent and specialization condition
    [e] is replaced by [f e], every undefined one stays undefined, and
    the rest of the record, the Dim and StorageDim descriptors included,
    is unchanged; in particular, the transform that returns a fixed
    sentinel leaves the sentinel in the place of every defined one of
    these fields; and the mutator is handed the expressions in the
    order splits, bounds, specializations (condition, then nested
    record), reduction domain. In each case [mutate] returns. *)
Theorem mutate_traversal_complete σ l fuel :
  wf σ → is_Some (schedules σ !! l) → enough_fuel σ l fuel →
  (∀ (M : Type) (m : M),
     ScheduleContents_mutate (λ e m, (e, m)) fuel l m σ = Ok m σ) ∧
  (∀ (f : Expr → Expr) (M : Type) (m : M), (∀ e, f (f e) = f e) → ∃ m' σ',
     ScheduleContents_mutate (λ e m, (f e, m)) fuel l m σ = Ok m' σ' ∧
     ∀ l' c, nested σ l l' → schedules σ !! l' = Some c →
       ∃ c', schedules σ' !! l' = Some c' ∧ related (rewritten_by f) c c' ∧
         dims c' = dims c ∧ storage_dims c' = storage_dims c) ∧
  (∀ (sentinel : IRNode) (M : Type) (m : M), ∃ m' σ',
     ScheduleContents_mutate (λ _ m, (Some sentinel, m)) fuel l m σ = Ok m' σ' ∧
     ∀ l' c, nested σ l l' → schedules σ !! l' = Some c →
       ∃ c', schedules σ' !! l' = Some c' ∧ related (becomes sentinel) c c' ∧
         dims c' = dims c ∧ storage_dims c' = storage_dims c) ∧
  (∀ log : list Expr,
     ScheduleContents_mutate (observer (λ log e, log ++ [e])) fuel l log σ =
       Ok (log ++ visit_order fuel σ l) σ).
Proof.
  intros Hwf Hl Hfuel.
  assert (Hrewrite : ∀ (f : Expr → Expr) (M : Type) (m : M),
    (∀ e, f (f e) = f e) → ∃ m' σ',
      ScheduleContents_mutate (λ e m, (f e, m)) fuel l m σ = Ok m' σ' ∧
      ∀ l' c, nested σ l l' → schedules σ !! l' = Some c →
        ∃ c', schedules σ' !! l' = Some c' ∧ related (rewritten_by f) c c' ∧
          dims c' = dims c ∧ storage_dims c' = storage_dims c).
  { intros f M m Hidem.
    destruct (ScheduleContents_mutate_total (λ e (m : M), (f e, m))
                fuel l m σ Hwf Hl Hfuel) as (m' & σ' & Hrun & _ & _ & Hnested).
    exists m', σ'. split; [done|]. intros l' c Hn Hc.
    destruct (Hnested l' c Hn Hc) as (c' & Hc' & Hrel).
    exists c'. split; [done|].
    split; [|by destruct Hrel].
    eapply related_impl; [|done]. intros e e'. by apply visited_rewritten_by. }
  split_and!.
  - intros M m.
    pose proof (ScheduleContents_mutate_observer (λ m _, m) fuel l m σ Hwf Hl Hfuel)
      as Hobs.
    rewrite foldl_keep in Hobs. exact Hobs.
  - intros f M m Hidem. by apply Hrewrite.
  - intros sentinel M m. by apply (Hrewrite (λ _, Some sentinel)).
  - intros log.
    rewrite (ScheduleContents_mutate_observer _ fuel l log σ Hwf Hl Hfuel).
    by rewrite foldl_snoc_log.
Qed.

End Traversal.

Section TraversalWitness.
#[local] Existing Instance Demo.collaborators.
Import Demo.

Lemma example_base_allocated : is_Some (schedules example_store !! 1%positive).
Proof. vm_compute. eauto. Qed.

Lemma example_enough_fuel : enough_fuel example_store 1%positive 2.
Proof. unfold enough_fuel. vm_compute. lia. Qed.

Lemma mutate_traversal_complete_witness :
  (∀ (M : Type) (m : M),
     ScheduleContents_mutate (λ e m, (e, m)) 2 1%positive m example_store =
       Ok m example_store) ∧
  (∀ (f : Expr → Expr) (M : Type) (m : M), (∀ e, f (f e) = f e) → ∃ m' σ',
     ScheduleContents_mutate (λ e m, (f e, m)) 2 1%positive m example_store =
       Ok m' σ' ∧
     ∀ l' c, nested example_store 1%positive l' → schedules example_store !! l' = Some c →
       ∃ c', schedules σ' !! l' = Some c' ∧ related (rewritten_by f) c c' ∧
         dims c' = dims c ∧ storage_dims c' = storage_dims c) ∧
  (∀ (sentinel : IRNode) (M : Type) (m : M), ∃ m' σ',
     ScheduleContents_mutate (λ _ m, (Some sentinel, m)) 2 1%positive m example_store =
       Ok m' σ' ∧
     ∀ l' c, nested example_store 1%positive l' → schedules example_store !! l' = Some c →
       ∃ c', schedules σ' !! l' = Some c' ∧ related (becomes sentinel) c c' ∧
         dims c' = dims c ∧ storage_dims c' = storage_dims c) ∧
  (∀ log : list Expr,
     ScheduleContents_mutate (observer (λ log e, log ++ [e])) 2 1%positive log
       example_store =
       Ok (log ++ visit_order 2 example_store 1%positive) example_store).
Proof.
  apply (mutate_traversal_complete example_store 1%positive 2).
  - exact example_store_wf.
  - exact example_base_allocated.
  - exact example_enough_fuel.
Defined.

(** The order in which the example is traversed. *)
Example example_visit_order :
  visit_order 2 example_store 1%positive =
    [ Some (IntImm 8); Some (IntImm 0); Some (IntImm 16);
      p_is_1; Some (IntImm 8); Some (IntImm 4); Some (IntImm 0); Some (IntImm 16);
      Some (IntImm 3) ].
Proof. vm_compute. reflexivity. Qed.

(** The sentinel transform on the example: the factors, the bound, the
    condition and the defined expression of the reduction domain become
    the sentinel, in the nested record too; the undefined expression of
    the reduction domain and the dims stay. *)
Example example_sentinel :
  ∃ σ' c n,
    ScheduleContents_mutate (λ _ (m : unit), (Some (Param "s"), m)) 2 1%positive tt
      example_store = Ok tt σ' ∧
    schedules σ' !! 1%positive = Some c ∧
    factor <$> splits c = [Some (Param "s")] ∧
    min <$> bounds c = [Some (Param "s")] ∧
    extent <$> bounds c = [Some (Param "s")] ∧
    condition <$> specializations c = [Some (Param "s")] ∧
    dims c = ["x"] ∧
    schedules σ' !! 2%positive = Some n ∧
    factor <$> splits n = [Some (Param "s"); Some (Param "s")] ∧
    rdoms σ' !! 1%positive = Some [Some (Param "s"); None].
Proof. eexists _, _, _. split_and!; vm_compute; reflexivity. Qed.

End TraversalWitness.

Section AcceptClaims.
Context `{Collaborators}.

(** C10: [accept] checks split factors and bound mins and extents for
    definedness, but hands every condition of the record's
    specializations to the visitor unchecked: it returns exactly when
    all these conditions are defined, whatever the factors and bounds
    are, and otherwise dereferences an undefined expression; [mutate],
    which checks the condition too, returns in both cases. *)
Theorem accept_total_iff_conditions_defined {V M : Type}
    (visit : IRNode → V → V) (mutator_mutate : Expr → M → Expr * M)
    this l c v m fuel σ :
  wf σ → contents this = Some l → schedules σ !! l = Some c →
  enough_fuel σ l fuel →
  (Forall (λ sp, is_Some (condition sp)) (specializations c) →
     Schedule_accept visit this v σ =
       Ok (foldl (λ v n, visit n v) v (accept_order c)) σ) ∧
  (¬ Forall (λ sp, is_Some (condition sp)) (specializations c) →
     Schedule_accept visit this v σ = Undefined) ∧
  (∃ m' σ', Schedule_mutate mutator_mutate fuel this m σ = Ok m' σ').
Proof.
  intros Hwf Hthis Hl Hfuel.
  pose proof (Schedule_accept_spec visit this l c v σ Hthis Hl) as Hacc.
  split_and!.
  - intros Hall. by rewrite Hacc, decide_True.
  - intros Hnot. by rewrite Hacc, decide_False.
  - unfold Schedule_mutate. rewrite Hthis.
    destruct (ScheduleContents_mutate_total mutator_mutate fuel l m σ Hwf
                (ex_intro _ c Hl) Hfuel) as (m' & σ' & Hrun & _).
    eauto.
Qed.

End AcceptClaims.

Section AcceptExamples.
#[local] Existing Instance Demo.collaborators.
Import Demo.

Lemma example_base_record :
  ∃ c, schedules example_store !! 1%positive = Some c ∧
       Forall (λ sp, is_Some (condition sp)) (specializations c).
Proof.
  eexists. split; [vm_compute; reflexivity|].
  repeat constructor. by eexists.
Qed.

Lemma accept_total_iff_conditions_defined_witness :
  ∃ c, schedules example_store !! 1%positive = Some c ∧
    (Forall (λ sp, is_Some (condition sp)) (specializations c) →
       Schedule_accept recording_visit base [] example_store =
         Ok (foldl (λ v n, recording_visit n v) [] (accept_order c)) example_store) ∧
    (¬ Forall (λ sp, is_Some (condition sp)) (specializations c) →
       Schedule_accept recording_visit base [] example_store = Undefined) ∧
    (∃ m' σ', Schedule_mutate recording_mutate 2 base [] example_store = Ok m' σ').
Proof.
  destruct example_base_record as (c & Hc & _). exists c. split; [exact Hc|].
  apply (@accept_total_iff_conditions_defined collaborators _ _
           recording_visit recording_mutate base 1%positive c [] [] 2 example_store).
  - exact example_store_wf.
  - reflexivity.
  - exact Hc.
  - exact example_enough_fuel.
Defined.

(** C1: on the example, [accept] hands the visitor the split factor, the
    bound and the condition of the record itself and stops there, while
    [mutate] goes on into the nested record of the specialization (its
    two split factors and its bound) and into the reduction domain. *)
Theorem accept_skips_nested_records :
  Schedule_accept recording_visit base [] example_store =
    Ok [ IntImm 8; IntImm 0; IntImm 16; EQ (Param "p") (IntImm 1) ] example_store ∧
  Schedule_mutate recording_mutate 2 base [] example_store =
    Ok [ Some (IntImm 8); Some (IntImm 0); Some (IntImm 16); p_is_1;
         Some (IntImm 8); Some (IntImm 4); Some (IntImm 0); Some (IntImm 16);
         Some (IntImm 3) ] example_store.
Proof. split; vm_compute; reflexivity. Qed.

(** A specialization whose condition is undefined: [accept] dereferences
    it, [mutate] steps over it. *)
Example accept_undefined_condition :
  ∀ σ, run_all [Call_new; Call_add_specialization base None]
         (initial_store 1%positive) = Some σ →
    Schedule_accept recording_visit base [] σ = Undefined ∧
    Schedule_mutate recording_mutate 2 base [] σ = Ok [] σ.
Proof. intros σ [= <-]. split; vm_compute; reflexivity. Qed.

End AcceptExamples.

Section WrapperClaims.
Context `{Collaborators}.

(** C3: [add_wrapper(name, stage)] on a schedule whose wrapper map has no
    entry for the name inserts the entry and prints nothing; when the
    name is present and empty the entry is overwritten and exactly one
    warning is added; when the name is present and not empty the call
    aborts with the fatal diagnostic and the store, hence the wrapper
    map, is as it was before the call. *)
Theorem add_wrapper_redefinition_policy this l c f wrapper σ :
  contents this = Some l → schedules σ !! l = Some c →
  (wrappers c !! f = None →
     ∃ σ', Schedule_add_wrapper this f wrapper σ = Ok tt σ' ∧
       Schedule_wrappers this σ' = Ok (<[f := wrapper]> (wrappers c)) σ' ∧
       warnings σ' = warnings σ) ∧
  (is_Some (wrappers c !! f) → f = EmptyString →
     ∃ σ', Schedule_add_wrapper this f wrapper σ = Ok tt σ' ∧
       Schedule_wrappers this σ' = Ok (<[f := wrapper]> (wrappers c)) σ' ∧
       warnings σ' = warnings σ ++ [Replacing_global_wrapper f]) ∧
  (is_Some (wrappers c !! f) → f ≠ EmptyString →
     Schedule_add_wrapper this f wrapper σ = Fatal (Wrapper_redefinition f) σ ∧
     Schedule_wrappers this σ = Ok (wrappers c) σ).
Proof.
  intros Hthis Hl.
  pose proof (Schedule_add_wrapper_spec this f wrapper l c σ Hthis Hl) as Hspec.
  split_and!.
  - intros Hf. rewrite Hf in Hspec. eexists. split; [exact Hspec|]. split; [|done].
    unfold Schedule_wrappers.
    rewrite (read_spec wrappers this l (set_wrappers (<[f := wrapper]> (wrappers c)) c));
      [done|done|simpl; by rewrite lookup_insert_eq].
  - intros [old Hf] Hempty. rewrite Hf, bool_decide_eq_true_2 in Hspec by done.
    eexists. split; [exact Hspec|]. split; [|done].
    unfold Schedule_wrappers.
    rewrite (read_spec wrappers this l (set_wrappers (<[f := wrapper]> (wrappers c)) c));
      [done|done|simpl; by rewrite lookup_insert_eq].
  - intros [old Hf] Hne. rewrite Hf, bool_decide_eq_false_2 in Hspec by done.
    split; [done|]. unfold Schedule_wrappers. by rewrite (read_spec wrappers this l c).
Qed.

End WrapperClaims.

Section WrapperExamples.
#[local] Existing Instance Demo.collaborators.
Import Demo.

Lemma add_wrapper_redefinition_policy_witness :
  ∃ c, schedules example_store !! 1%positive = Some c ∧
  (wrappers c !! "a" = None →
     ∃ σ', Schedule_add_wrapper base "a" (Some 9%positive) example_store = Ok tt σ' ∧
       Schedule_wrappers base σ' = Ok (<["a" := Some 9%positive]> (wrappers c)) σ' ∧
       warnings σ' = warnings example_store) ∧
  (is_Some (wrappers c !! "a") → "a" = EmptyString →
     ∃ σ', Schedule_add_wrapper base "a" (Some 9%positive) example_store = Ok tt σ' ∧
       Schedule_wrappers base σ' = Ok (<["a" := Some 9%positive]> (wrappers c)) σ' ∧
       warnings σ' = warnings example_store ++ [Replacing_global_wrapper "a"]) ∧
  (is_Some (wrappers c !! "a") → "a" ≠ EmptyString →
     Schedule_add_wrapper base "a" (Some 9%positive) example_store =
       Fatal (Wrapper_redefinition "a") example_store ∧
     Schedule_wrappers base example_store = Ok (wrappers c) example_store).
Proof.
  destruct example_base_record as (c & Hc & _). exists c. split; [exact Hc|].
  apply (add_wrapper_redefinition_policy base 1%positive c "a" (Some 9%positive)
           example_store).
  - reflexivity.
  - exact Hc.
Defined.

(** The two scenarios of the redefinition policy, from an empty schedule. *)
Example add_wrapper_twice :
  ∀ σ, run_all [Call_new] (initial_store 1%positive) = Some σ →
    (∃ σ1 σ2 c2,
       Schedule_add_wrapper base EmptyString (Some 7%positive) σ = Ok tt σ1 ∧
       Schedule_add_wrapper base EmptyString (Some 8%positive) σ1 = Ok tt σ2 ∧
       warnings σ2 = [Replacing_global_wrapper EmptyString] ∧
       schedules σ2 !! 1%positive = Some c2 ∧
       wrappers c2 = {[ EmptyString := Some 8%positive ]}) ∧
    (∃ σ1 c1,
       Schedule_add_wrapper base "f" (Some 7%positive) σ = Ok tt σ1 ∧
       Schedule_add_wrapper base "f" (Some 8%positive) σ1 =
         Fatal (Wrapper_redefinition "f") σ1 ∧
       schedules σ1 !! 1%positive = Some c1 ∧
       wrappers c1 = {[ "f" := Some 7%positive ]}).
Proof.
  intros σ [= <-]. split.
  - eexists _, _, _. split_and!; vm_compute; reflexivity.
  - eexists _, _. split_and!; vm_compute; reflexivity.
Qed.

End WrapperExamples.

Section SpecializationClaims.
Context `{Collaborators}.

(** C2, as amended: [add_specialization(condition)] allocates a record
    at a fresh address, gives it the placement, splits, dims, storage
    dims, bounds, reduction domain and the three flags of the current
    record and leaves its specialization list empty, appends the pair of
    the condition and the new record to the specialization list of the
    current record, and returns that last entry.  The reduction domain
    is given as a handle (line 195): no reduction domain is created, and
    the two records hold the same one.  Afterwards an assignment through
    the parent's handle leaves the nested record as it is, an
    assignment through the nested record's handle leaves the parent's
    record as it is, and neither changes a reduction domain; a [mutate]
    pass through the nested record's handle leaves the parent's record
    as it is too, but it rewrites the expressions of the reduction
    domain that the parent holds. *)
Theorem add_specialization_snapshot this l c cond σ :
  wf σ → contents this = Some l → schedules σ !! l = Some c →
  ∃ p σ' n,
    Schedule_add_specialization this cond σ =
      Ok {| condition := cond; schedule := Some p |} σ' ∧
    schedules σ !! p = None ∧
    schedules σ' !! p = Some n ∧
    (store_level n = store_level c ∧ compute_level n = compute_level c ∧
     splits n = splits c ∧ dims n = dims c ∧ storage_dims n = storage_dims c ∧
     bounds n = bounds c ∧ reduction_domain n = reduction_domain c ∧
     memoized n = memoized c ∧ touched n = touched c ∧
     allow_race_conditions n = allow_race_conditions c) ∧
    specializations n = [] ∧
    schedules σ' !! l =
      Some (set_specializations
              (specializations c ++ [{| condition := cond; schedule := Some p |}]) c) ∧
    (∀ l', l' ≠ l → l' ≠ p → schedules σ' !! l' = schedules σ !! l') ∧
    rdoms σ' = rdoms σ ∧
    (∀ upd, ∃ σ'', assign upd this σ' = Ok tt σ'' ∧
       schedules σ'' !! p = Some n ∧ rdoms σ'' = rdoms σ') ∧
    (∀ upd, ∃ σ'', assign upd {| contents := Some p |} σ' = Ok tt σ'' ∧
       schedules σ'' !! l = schedules σ' !! l ∧ rdoms σ'' = rdoms σ') ∧
    (∀ (M : Type) (mutator_mutate : Expr → M → Expr * M) fuel m,
       ∃ m' σ'',
         Schedule_mutate mutator_mutate (S fuel) {| contents := Some p |} m σ' =
           Ok m' σ'' ∧
         schedules σ'' !! l = schedules σ' !! l ∧
         (∀ r es, reduction_domain c = Some r → rdoms σ !! r = Some es →
            rdoms σ'' !! r =
              Some (mutate_exprs mutator_mutate es
                      (mutate_bounds mutator_mutate (bounds c)
                         (mutate_splits mutator_mutate (splits c) m).2).2).1) ∧
         (reduction_domain c = None → rdoms σ'' = rdoms σ)).
Proof.
  intros Hwf Hthis Hl.
  pose proof (wf_fresh σ Hwf) as Hfresh.
  pose proof (Schedule_add_specialization_spec this cond l c σ Hthis Hl Hfresh) as Hspec.
  simpl in Hspec.
  assert (Hlp : l ≠ next_schedule σ) by congruence.
  eexists _, _, _. split; [exact Hspec|]. simpl.
  rewrite lookup_insert_eq, lookup_insert_ne, lookup_insert_eq by done.
  split_and!; try done.
  - intros l' Hl1 Hl2. by rewrite !lookup_insert_ne.
  - intros upd. eexists. split.
    + eapply assign_spec; [done|]. simpl. by rewrite lookup_insert_eq.
    + simpl. rewrite !lookup_insert_ne by done. by rewrite lookup_insert_eq.
  - intros upd. eexists. split.
    + eapply assign_spec; [done|]. simpl.
      rewrite lookup_insert_ne by done. by rewrite lookup_insert_eq.
    + simpl. rewrite lookup_insert_ne by done. by rewrite lookup_insert_eq.
  - intros M mut fuel m. unfold Schedule_mutate. cbn [contents].
    erewrite ScheduleContents_mutate_leaf;
      [|simpl; rewrite lookup_insert_ne by done; by rewrite lookup_insert_eq|done].
    simpl.
    destruct (mutate_splits mut (splits c) m) as [ss m1]. cbn [fst snd].
    destruct (mutate_bounds mut (bounds c) m1) as [bs m2]. cbn [fst snd].
    destruct (reduction_domain c) as [r|] eqn:Hr; simpl.
    + destruct (wf_rdom _ Hwf _ _ r Hl Hr) as [es Hes]. rewrite Hes.
      destruct (mutate_exprs mut es m2) as [es' m3] eqn:Hes'.
      eexists _, _. split; [done|]. simpl. split.
      { rewrite lookup_insert_ne by done. by rewrite lookup_insert_eq. }
      split; [|done].
      intros r0 es0 [= <-] Hes0. rewrite lookup_insert_eq.
      rewrite Hes in Hes0. injection Hes0 as <-. by rewrite Hes'.
    + eexists _, _. split; [done|]. simpl. split.
      { rewrite lookup_insert_ne by done. by rewrite lookup_insert_eq. }
      split; done.
Qed.

End SpecializationClaims.

Section SpecializationExamples.
#[local] Existing Instance Demo.collaborators.
Import Demo.

Lemma add_specialization_snapshot_witness :
  ∃ c, schedules example_store !! 1%positive = Some c ∧
  ∃ p σ' n,
    Schedule_add_specialization base None example_store =
      Ok {| condition := None; schedule := Some p |} σ' ∧
    schedules example_store !! p = None ∧
    schedules σ' !! p = Some n ∧
    (store_level n = store_level c ∧ compute_level n = compute_level c ∧
     splits n = splits c ∧ dims n = dims c ∧ storage_dims n = storage_dims c ∧
     bounds n = bounds c ∧ reduction_domain n = reduction_domain c ∧
     memoized n = memoized c ∧ touched n = touched c ∧
     allow_race_conditions n = allow_race_conditions c) ∧
    specializations n = [] ∧
    schedules σ' !! 1%positive =
      Some (set_specializations
              (specializations c ++ [{| condition := None; schedule := Some p |}]) c) ∧
    (∀ l', l' ≠ 1%positive → l' ≠ p → schedules σ' !! l' = schedules example_store !! l') ∧
    rdoms σ' = rdoms example_store ∧
    (∀ upd, ∃ σ'', assign upd base σ' = Ok tt σ'' ∧
       schedules σ'' !! p = Some n ∧ rdoms σ'' = rdoms σ') ∧
    (∀ upd, ∃ σ'', assign upd {| contents := Some p |} σ' = Ok tt σ'' ∧
       schedules σ'' !! 1%positive = schedules σ' !! 1%positive ∧ rdoms σ'' = rdoms σ') ∧
    (∀ (M : Type) (mutator_mutate : Expr → M → Expr * M) fuel m,
       ∃ m' σ'',
         Schedule_mutate mutator_mutate (S fuel) {| contents := Some p |} m σ' =
           Ok m' σ'' ∧
         schedules σ'' !! 1%positive = schedules σ' !! 1%positive ∧
         (∀ r es, reduction_domain c = Some r → rdoms example_store !! r = Some es →
            rdoms σ'' !! r =
              Some (mutate_exprs mutator_mutate es
                      (mutate_bounds mutator_mutate (bounds c)
                         (mutate_splits mutator_mutate (splits c) m).2).2).1) ∧
         (reduction_domain c = None → rdoms σ'' = rdoms example_store)).
Proof.
  destruct example_base_record as (c & Hc & _). exists c. split; [exact Hc|].
  apply (add_specialization_snapshot base 1%positive c None example_store).
  - exact example_store_wf.
  - reflexivity.
  - exact Hc.
Defined.

(** C2 as stated fails for the reduction domain: on the example, the
    record that [add_specialization] creates holds the reduction domain
    of the schedule, and a pass of the incrementing mutator through the
    new record alone turns the 3 that the reduction domain of the
    schedule holds into 4. *)
Lemma add_specialization_shares_reduction_domain :
  ∃ p σ1 σ2,
    Schedule_add_specialization base None example_store =
      Ok {| condition := None; schedule := Some p |} σ1 ∧
    Schedule_reduction_domain base σ1 = Ok (Some 1%positive) σ1 ∧
    Schedule_reduction_domain {| contents := Some p |} σ1 = Ok (Some 1%positive) σ1 ∧
    rdoms σ1 !! 1%positive = Some [Some (IntImm 3); None] ∧
    Schedule_mutate increment 1 {| contents := Some p |} tt σ1 = Ok tt σ2 ∧
    Schedule_reduction_domain base σ2 = Ok (Some 1%positive) σ2 ∧
    rdoms σ2 !! 1%positive = Some [Some (IntImm 4); None].
Proof. eexists _, _, _. split_and!; vm_compute; reflexivity. Qed.

(** The wrapper map is not among the members that lines 189-198 assign:
    the schedule of the example has the wrappers "a" and "b", and the
    nested record that [add_specialization] creates for it has none. *)
Example add_specialization_drops_wrappers :
  ∃ c σ' p n,
    schedules example_store !! 1%positive = Some c ∧
    wrappers c !! "a" = Some (Some 7%positive) ∧
    Schedule_add_specialization base None example_store =
      Ok {| condition := None; schedule := Some p |} σ' ∧
    schedules σ' !! p = Some n ∧
    wrappers n !! "a" = None ∧ wrappers n ≠ wrappers c.
Proof.
  eexists _, _, _, _.
  split; [vm_compute; reflexivity|].
  split; [vm_compute; reflexivity|].
  split; [vm_compute; reflexivity|].
  split; [vm_compute; reflexivity|].
  split; [reflexivity|].
  vm_compute. discriminate.
Qed.

End SpecializationExamples.

Section CopyClaims.
Context `{Collaborators}.

(** C7: a copy of a handle refers to the same record, so that an
    assignment to the splits through the copy is read back through the
    original handle; the schedule returned by [deep_copy] sits at an
    address of its own and holds the placement, splits, dims, storage
    dims, bounds and the three flags of the source by value, so that an
    assignment to its splits leaves the splits of the source as they
    were (and the other way round). *)
Theorem alias_versus_deep_copy this src s fuel copied_map σ :
  wf σ → contents this = Some src → schedules σ !! src = Some s →
  enough_fuel σ src fuel →
  (∀ v, ∃ σ', assign_splits v (Schedule_copy this) σ = Ok tt σ' ∧
      Schedule_splits this σ' = Ok v σ') ∧
  (∃ d copied_map' σ3 c3,
      Schedule_deep_copy fuel this copied_map σ =
        Ok ({| contents := Some d |}, copied_map') σ3 ∧
      d ≠ src ∧ schedules σ !! d = None ∧
      schedules σ3 !! src = Some s ∧ schedules σ3 !! d = Some c3 ∧
      (store_level c3 = store_level s ∧ compute_level c3 = compute_level s ∧
       splits c3 = splits s ∧ dims c3 = dims s ∧
       storage_dims c3 = storage_dims s ∧ bounds c3 = bounds s ∧
       memoized c3 = memoized s ∧ touched c3 = touched s ∧
       allow_race_conditions c3 = allow_race_conditions s) ∧
      (∀ v, ∃ σ', assign_splits v {| contents := Some d |} σ3 = Ok tt σ' ∧
         Schedule_splits {| contents := Some d |} σ' = Ok v σ' ∧
         Schedule_splits this σ' = Ok (splits s) σ') ∧
      (∀ v, ∃ σ', assign_splits v this σ3 = Ok tt σ' ∧
         Schedule_splits this σ' = Ok v σ' ∧
         Schedule_splits {| contents := Some d |} σ' = Ok (splits s) σ')).
Proof.
  intros Hwf Hthis Hs Hfuel. split.
  - intros v. eexists. split.
    + unfold assign_splits. by eapply assign_spec.
    + unfold Schedule_splits.
      rewrite (read_spec splits this src (set_splits v s)); [done|done|].
      simpl. by rewrite lookup_insert_eq.
  - destruct (Schedule_deep_copy_total fuel this copied_map σ src Hwf Hthis
                (ex_intro _ s Hs) Hfuel)
      as (d & cm' & σ3 & Hrun & Hwf3 & Hext & Hd & s' & c3 & Hs' & Hc3 & Hcp).
    rewrite Hs in Hs'. injection Hs' as <-.
    pose proof (wf_alloc _ Hwf src (ex_intro _ s Hs)) as Hlt.
    assert (Hne : d ≠ src) by lia.
    assert (Hs3 : schedules σ3 !! src = Some s).
    { rewrite (ext_schedules _ _ Hext) by done. done. }
    exists d, cm', σ3, c3. split; [done|]. split; [done|]. split.
    { destruct (schedules σ !! d) eqn:Hdd; [|done].
      pose proof (wf_alloc _ Hwf d (ex_intro _ _ Hdd)). lia. }
    split; [done|]. split; [done|]. split.
    { destruct Hcp. by split_and!. }
    split.
    + intros v. eexists. split; [|split].
      * unfold assign_splits. by eapply assign_spec.
      * unfold Schedule_splits.
        rewrite (read_spec splits _ d (set_splits v c3)); [done|done|].
        simpl. by rewrite lookup_insert_eq.
      * unfold Schedule_splits.
        rewrite (read_spec splits this src s); [done|done|].
        simpl. by rewrite lookup_insert_ne.
    + intros v. eexists. split; [|split].
      * unfold assign_splits. by eapply assign_spec.
      * unfold Schedule_splits.
        rewrite (read_spec splits this src (set_splits v s)); [done|done|].
        simpl. by rewrite lookup_insert_eq.
      * unfold Schedule_splits.
        rewrite (read_spec splits _ d c3); [by rewrite (cp_splits _ _ _ _ _ Hcp)|done|].
        simpl. by rewrite lookup_insert_ne.
Qed.

(** C4: when the stage-level primitive returns defined clones and keeps
    the memo entries that already hold a clone, a deep copy that starts
    from an empty memo map gives two wrappers of the same stage one and
    the same clone, which the memo map that comes back holds for the
    stage.  The clone is in the memo map before the copy goes on to the
    nested records: at every depth, the record that the copy has in the
    place of a record of the source holds, under every wrapper name, the
    clone that the memo map holds for the stage wrapped under that name
    in the source, so that the wrappers of one stage get one clone
    wherever they are.  Entry by entry, a stage whose memo entry holds
    a clone gets that clone without a call of the primitive, while
    any other stage is cloned by the primitive and the clone is
    recorded under the stage in the memo map. *)
Theorem deep_copy_preserves_sharing this src s a b T fuel σ :
  (∀ f cm fs, is_Some (deep_copy_function_contents_helper f cm fs).1.1) →
  (∀ f cm fs g c, cm !! g = Some (Some c) →
     (deep_copy_function_contents_helper f cm fs).1.2 !! g = Some (Some c)) →
  wf σ → contents this = Some src → schedules σ !! src = Some s →
  enough_fuel σ src fuel →
  wrappers s !! a = Some T → wrappers s !! b = Some T →
  (∃ d copied_map' σ' c' clone,
      Schedule_deep_copy fuel this ∅ σ =
        Ok ({| contents := Some d |}, copied_map') σ' ∧
      schedules σ' !! d = Some c' ∧
      wrappers c' !! a = Some (Some clone) ∧
      wrappers c' !! b = Some (Some clone) ∧
      copied_map' !! T = Some (Some clone) ∧
      (∀ path x cx k T', nested_at σ src path x → schedules σ !! x = Some cx →
         wrappers cx !! k = Some T' →
         ∃ x' cx', nested_at σ' d path x' ∧ schedules σ' !! x' = Some cx' ∧
           shares (wrappers cx') copied_map' k T')) ∧
  (∀ w cm fs k stage clone, cm !! stage = Some (Some clone) →
     copy_wrapper (w, cm, fs) (k, stage) = (<[k := Some clone]> w, cm, fs)) ∧
  (∀ w cm fs k stage, cm !! stage = None ∨ cm !! stage = Some None →
     copy_wrapper (w, cm, fs) (k, stage) =
       let '(clone, cm', fs') :=
         deep_copy_function_contents_helper stage (<[stage := None]> cm) fs in
       (<[k := clone]> w, <[stage := clone]> cm', fs')).
Proof.
  intros Hdef Hstable Hwf Hthis Hs Hfuel Ha Hb. split_and!.
  - destruct (Schedule_deep_copy_paths fuel this ∅ σ src Hwf Hthis
                (ex_intro _ s Hs) Hfuel)
      as (d & cm' & σ' & Hrun & _ & _ & _ & _ & _ & _ & _ & _ & Hpaths).
    specialize (Hpaths Hdef Hstable).
    destruct (Hpaths [] src s a T (nested_at_here σ src) Hs Ha)
      as (x' & c' & Hx' & Hc' & C & HaC & HTC).
    apply nested_at_inv in Hx'. subst x'.
    destruct (Hpaths [] src s b T (nested_at_here σ src) Hs Hb)
      as (x' & c'' & Hx' & Hc'' & C' & HbC & HTC').
    apply nested_at_inv in Hx'. subst x'.
    rewrite Hc' in Hc''. injection Hc'' as <-.
    rewrite HTC in HTC'. injection HTC' as <-.
    by exists d, cm', σ', c', C.
  - intros. by apply copy_wrapper_reuse.
  - intros. by apply copy_wrapper_clone.
Qed.

End CopyClaims.

Section CopyExamples.
#[local] Existing Instance Demo.collaborators.
Import Demo.

Lemma alias_versus_deep_copy_witness :
  ∃ s, schedules example_store !! 1%positive = Some s ∧
  (∀ v, ∃ σ', assign_splits v (Schedule_copy base) example_store = Ok tt σ' ∧
      Schedule_splits base σ' = Ok v σ') ∧
  (∃ d copied_map' σ3 c3,
      Schedule_deep_copy 2 base ∅ example_store =
        Ok ({| contents := Some d |}, copied_map') σ3 ∧
      d ≠ 1%positive ∧ schedules example_store !! d = None ∧
      schedules σ3 !! 1%positive = Some s ∧ schedules σ3 !! d = Some c3 ∧
      (store_level c3 = store_level s ∧ compute_level c3 = compute_level s ∧
       splits c3 = splits s ∧ dims c3 = dims s ∧
       storage_dims c3 = storage_dims s ∧ bounds c3 = bounds s ∧
       memoized c3 = memoized s ∧ touched c3 = touched s ∧
       allow_race_conditions c3 = allow_race_conditions s) ∧
      (∀ v, ∃ σ', assign_splits v {| contents := Some d |} σ3 = Ok tt σ' ∧
         Schedule_splits {| contents := Some d |} σ' = Ok v σ' ∧
         Schedule_splits base σ' = Ok (splits s) σ') ∧
      (∀ v, ∃ σ', assign_splits v base σ3 = Ok tt σ' ∧
         Schedule_splits base σ' = Ok v σ' ∧
         Schedule_splits {| contents := Some d |} σ' = Ok (splits s) σ')).
Proof.
  destruct example_base_record as (s & Hs & _). exists s. split; [exact Hs|].
  apply (alias_versus_deep_copy base 1%positive s 2 ∅ example_store).
  - exact example_store_wf.
  - reflexivity.
  - exact Hs.
  - exact example_enough_fuel.
Defined.

Lemma example_wrappers :
  ∃ s, schedules example_store !! 1%positive = Some s ∧
       wrappers s !! "a" = Some (Some 7%positive) ∧
       wrappers s !! "b" = Some (Some 7%positive).
Proof. eexists. split_and!; vm_compute; reflexivity. Qed.

Lemma deep_copy_preserves_sharing_witness :
  (∃ d copied_map' σ' c' clone,
      Schedule_deep_copy 2 base ∅ example_store =
        Ok ({| contents := Some d |}, copied_map') σ' ∧
      schedules σ' !! d = Some c' ∧
      wrappers c' !! "a" = Some (Some clone) ∧
      wrappers c' !! "b" = Some (Some clone) ∧
      copied_map' !! Some 7%positive = Some (Some clone) ∧
      (∀ path x cx k T', nested_at example_store 1%positive path x →
         schedules example_store !! x = Some cx →
         wrappers cx !! k = Some T' →
         ∃ x' cx', nested_at σ' d path x' ∧ schedules σ' !! x' = Some cx' ∧
           shares (wrappers cx') copied_map' k T')) ∧
  (∀ w cm fs k stage clone, cm !! stage = Some (Some clone) →
     copy_wrapper (w, cm, fs) (k, stage) = (<[k := Some clone]> w, cm, fs)) ∧
  (∀ w cm fs k stage, cm !! stage = None ∨ cm !! stage = Some None →
     copy_wrapper (w, cm, fs) (k, stage) =
       let '(clone, cm', fs') :=
         deep_copy_function_contents_helper stage (<[stage := None]> cm) fs in
       (<[k := clone]> w, <[stage := clone]> cm', fs')).
Proof.
  destruct example_wrappers as (s & Hs & Ha & Hb).
  apply (deep_copy_preserves_sharing base 1%positive s "a" "b" (Some 7%positive)
           2 example_store).
  - intros f cm fs. simpl. eauto.
  - intros f cm fs g c Hg. exact Hg.
  - exact example_store_wf.
  - reflexivity.
  - exact Hs.
  - exact example_enough_fuel.
  - exact Ha.
  - exact Hb.
Defined.

(** The clone of the example: both wrappers hold the stage clone made
    for "a", the record has one split and one bound, and its one
    specialization has a nested record with two splits whose change
    leaves the source alone. *)
Example example_deep_copy :
  ∃ copied_map' σ' c' n' σ'' n,
    Schedule_deep_copy 2 base ∅ example_store =
      Ok ({| contents := Some 4%positive |}, copied_map') σ' ∧
    schedules σ' !! 4%positive = Some c' ∧
    wrappers c' = {[ "a" := Some 1%positive; "b" := Some 1%positive ]} ∧
    splits c' = [split_x] ∧ bounds c' = [bound_x] ∧
    specializations c' = [{| condition := p_is_1; schedule := Some 6%positive |}] ∧
    schedules σ' !! 6%positive = Some n' ∧ splits n' = [split_x; split_y] ∧
    assign_splits [split_x; {| old_var := "y"; outer := "yo"; inner := "yi";
                               factor := Some (IntImm 2) |}]
      {| contents := Some 6%positive |} σ' = Ok tt σ'' ∧
    schedules σ'' !! 2%positive = Some n ∧ splits n = [split_x; split_y].
Proof. eexists _, _, _, _, _, _. split_and!; vm_compute; reflexivity. Qed.

(** A wrapper of the nested record on the stage that the wrappers "a"
    and "b" of the schedule wrap: in the deep copy the nested record of
    the copy holds, under "c", the clone that "a" and "b" hold.  The
    stage-level primitive of the example makes a new clone at every
    call, so the copy of the nested record found the clone in the memo
    map. *)
Example example_nested_wrapper :
  ∃ n copied_map' σ' c' n',
    schedules nested_wrapper_store !! 2%positive = Some n ∧
    wrappers n = {[ "c" := Some 7%positive ]} ∧
    Schedule_deep_copy 2 base ∅ nested_wrapper_store =
      Ok ({| contents := Some 4%positive |}, copied_map') σ' ∧
    copied_map' = {[ Some 7%positive := Some 1%positive ]} ∧
    schedules σ' !! 4%positive = Some c' ∧
    wrappers c' = {[ "a" := Some 1%positive; "b" := Some 1%positive ]} ∧
    specializations c' = [{| condition := p_is_1; schedule := Some 6%positive |}] ∧
    schedules σ' !! 6%positive = Some n' ∧
    wrappers n' = {[ "c" := Some 1%positive ]}.
Proof. eexists _, _, _, _, _. split_and!; vm_compute; reflexivity. Qed.

End CopyExamples.

Section ErrorClaims.
Context `{Collaborators}.

Lemma Schedule_deep_copy_not_fatal fuel this l cm σ d σ' :
  wf σ → contents this = Some l → is_Some (schedules σ !! l) →
  Schedule_deep_copy fuel this cm σ ≠ Fatal d σ'.
Proof.
  intros Hwf Hthis Hl Hrun.
  destruct (Schedule_deep_copy_any_fuel fuel this cm σ l Hwf Hthis Hl)
    as [Ho|(d' & cm' & σ1 & Hdc & _)]; congruence.
Qed.

Lemma Schedule_mutate_not_fatal {M} (mut : Expr → M → Expr * M) fuel this m σ d σ' :
  wf σ → live σ this → Schedule_mutate mut fuel this m σ ≠ Fatal d σ'.
Proof.
  intros Hwf Hlive Hrun. unfold Schedule_mutate in Hrun.
  destruct (contents this) as [l|] eqn:Hthis; [|done].
  destruct (ScheduleContents_mutate_any_fuel mut fuel l m σ Hwf (Hlive l Hthis))
    as [Ho|(m' & σ1 & Hm & _)]; congruence.
Qed.

Lemma Schedule_accept_not_fatal {V} (visit : IRNode → V → V) this v σ d σ' :
  live σ this → Schedule_accept visit this v σ ≠ Fatal d σ'.
Proof.
  intros Hlive Hrun. destruct (contents this) as [l|] eqn:Hthis.
  - destruct (Hlive l Hthis) as [c Hc].
    rewrite (Schedule_accept_spec visit this l c v σ Hthis Hc) in Hrun.
    by case_decide.
  - rewrite Schedule_accept_undefined in Hrun; [done|]. congruence.
Qed.

(** C6: deep-copying an undefined contents reference returns the
    undefined reference and leaves the store and the memo map as they
    were; [Schedule::deep_copy] on an undefined handle aborts with the
    fatal diagnostic; and on a store that the interface leads to, with a
    handle that is undefined or live, that is the only fatal diagnostic
    [deep_copy] raises, [mutate] and [accept] raise none, and with a
    record behind the handle [deep_copy] and [mutate] return. *)
Theorem deep_copy_errors σ this :
  reachable σ → live σ this →
  (∀ fuel copied_map σ0,
     deep_copy_schedule_contents_helper fuel None copied_map σ0 =
       Ok (None, copied_map) σ0) ∧
  (∀ fuel undef copied_map σ0, contents undef = None →
     ∃ σ1, Schedule_deep_copy fuel undef copied_map σ0 =
             Fatal Cannot_deep_copy_undefined_Schedule σ1) ∧
  (∀ fuel copied_map d σ',
     Schedule_deep_copy fuel this copied_map σ = Fatal d σ' →
     contents this = None ∧ d = Cannot_deep_copy_undefined_Schedule) ∧
  (∀ (M : Type) (mutator_mutate : Expr → M → Expr * M) fuel m d σ',
     Schedule_mutate mutator_mutate fuel this m σ ≠ Fatal d σ') ∧
  (∀ (V : Type) (visit : IRNode → V → V) v d σ',
     Schedule_accept visit this v σ ≠ Fatal d σ') ∧
  (∀ l fuel, contents this = Some l → enough_fuel σ l fuel →
     (∀ copied_map, ∃ r σ', Schedule_deep_copy fuel this copied_map σ = Ok r σ') ∧
     (∀ (M : Type) (mutator_mutate : Expr → M → Expr * M) m,
        ∃ m' σ', Schedule_mutate mutator_mutate fuel this m σ = Ok m' σ')).
Proof.
  intros Hσ Hlive. pose proof (reachable_wf σ Hσ) as Hwf. split_and!.
  - intros fuel cm σ0. by destruct fuel.
  - intros fuel undef cm σ0 Hundef.
    destruct (Schedule_deep_copy_undefined fuel undef cm σ0 Hundef) as (σ1 & ? & _).
    eauto.
  - intros fuel cm d σ' Hrun. destruct (contents this) as [l|] eqn:Hthis.
    + by destruct (Schedule_deep_copy_not_fatal fuel this l cm σ d σ' Hwf Hthis
                     (Hlive l Hthis)).
    + destruct (Schedule_deep_copy_undefined fuel this cm σ Hthis) as (σ1 & Hf & _).
      split; [done|]. congruence.
  - intros. by apply Schedule_mutate_not_fatal.
  - intros. by apply Schedule_accept_not_fatal.
  - intros l fuel Hthis Hfuel. split.
    + intros cm.
      destruct (Schedule_deep_copy_total fuel this cm σ l Hwf Hthis (Hlive l Hthis) Hfuel)
        as (d & cm' & σ' & Hrun & _). eauto.
    + intros M mut m. unfold Schedule_mutate. rewrite Hthis.
      destruct (ScheduleContents_mutate_total mut fuel l m σ Hwf (Hlive l Hthis) Hfuel)
        as (m' & σ' & Hrun & _). eauto.
Qed.

(** C8: in every store that the interface leads to, every
    specialization of every record holds the handle of an allocated
    nested record; [add_specialization] attaches a record at a fresh
    address, which no specialization held before the call, as the last
    entry of the specialization list of the schedule; the
    specializations of a deep copy are as many as those of the source
    and have their conditions, and each of them holds the handle of a
    new record whose tree is the tree of the nested record of the
    source; every call, returning or aborting, leads to a store with
    the same property, and [mutate] never fails the assertion on the
    nested schedule. *)
Theorem specializations_always_defined σ :
  reachable σ →
  (∀ l c sp, schedules σ !! l = Some c → sp ∈ specializations c →
     ∃ q, schedule sp = Some q ∧ is_Some (schedules σ !! q)) ∧
  (∀ this l c cond, contents this = Some l → schedules σ !! l = Some c →
     ∃ p σ', Schedule_add_specialization this cond σ =
               Ok {| condition := cond; schedule := Some p |} σ' ∧
       schedules σ !! p = None ∧ is_Some (schedules σ' !! p) ∧
       (∀ l' c' sp', schedules σ !! l' = Some c' → sp' ∈ specializations c' →
          schedule sp' ≠ Some p) ∧
       schedules σ' !! l =
         Some (set_specializations
                 (specializations c ++ [{| condition := cond; schedule := Some p |}])
                 c)) ∧
  (∀ this l s fuel copied_map, contents this = Some l →
     schedules σ !! l = Some s → enough_fuel σ l fuel →
     ∃ d copied_map' σ' c',
       Schedule_deep_copy fuel this copied_map σ =
         Ok ({| contents := Some d |}, copied_map') σ' ∧
       schedules σ' !! d = Some c' ∧
       Forall2 (λ sp sp', condition sp' = condition sp ∧
                  ∃ q q', schedule sp = Some q ∧ schedule sp' = Some q' ∧
                    schedules σ !! q' = None ∧ is_Some (schedules σ' !! q') ∧
                    ∀ f1 f2, enough_fuel σ q f1 → enough_fuel σ' q' f2 →
                      tree_of f2 σ' q' = tree_of f1 σ q)
         (specializations s) (specializations c') ∧
       (∀ l' c sp, schedules σ' !! l' = Some c → sp ∈ specializations c →
          ∃ q, schedule sp = Some q ∧ is_Some (schedules σ' !! q))) ∧
  (∀ call σ', permitted σ call →
     (run call σ = Ok tt σ' ∨ ∃ d, run call σ = Fatal d σ') →
     ∀ l c sp, schedules σ' !! l = Some c → sp ∈ specializations c →
       ∃ q, schedule sp = Some q ∧ is_Some (schedules σ' !! q)) ∧
  (∀ this (M : Type) (mutator_mutate : Expr → M → Expr * M) fuel m σ',
     live σ this →
     Schedule_mutate mutator_mutate fuel this m σ ≠
       Fatal Specialization_schedule_undefined σ').
Proof.
  intros Hσ. pose proof (reachable_wf σ Hσ) as Hwf.
  assert (Hinv : ∀ σ0, wf σ0 → ∀ l c sp, schedules σ0 !! l = Some c →
            sp ∈ specializations c →
            ∃ q, schedule sp = Some q ∧ is_Some (schedules σ0 !! q)).
  { intros σ0 Hwf0 l c sp Hl Hin.
    destruct (wf_nested _ Hwf0 _ _ _ Hl Hin) as (q & ? & _ & ?). eauto. }
  split_and!.
  - by apply Hinv.
  - intros this l c cond Hthis Hl.
    pose proof (wf_fresh σ Hwf) as Hfresh.
    pose proof (Schedule_add_specialization_spec this cond l c σ Hthis Hl Hfresh)
      as Hspec. simpl in Hspec.
    assert (Hlp : l ≠ next_schedule σ) by congruence.
    eexists _, _. split; [exact Hspec|]. split; [done|]. simpl. split_and!.
    + rewrite lookup_insert_ne by done. rewrite lookup_insert_eq. eauto.
    + intros l' c' sp' Hl' Hin Hsp'.
      destruct (Hinv σ Hwf l' c' sp' Hl' Hin) as (q & Hq & [cq Hcq]).
      rewrite Hsp' in Hq. injection Hq as <-. congruence.
    + by rewrite lookup_insert_eq.
  - intros this l s fuel cm Hthis Hl Hfuel.
    destruct (Schedule_deep_copy_tree fuel this cm σ l Hwf Hthis (ex_intro _ s Hl) Hfuel)
      as (d & cm' & σ' & Hrun & Hwf' & Hext & Hd & (s' & c' & Hs' & Hc' & Hcp) &
          Htree & _).
    rewrite Hl in Hs'. injection Hs' as <-.
    exists d, cm', σ', c'. split; [done|]. split; [done|]. split; [|by apply Hinv].
    pose proof (cp_specializations _ _ _ _ _ Hcp) as Hspecs.
    apply Forall2_same_length_lookup_2; [by eapply Forall2_length|].
    intros i sp sp' Hi Hi'.
    destruct (Forall2_lookup_lr _ _ _ _ _ _ Hspecs Hi Hi') as (Hcond & q' & Hq' & Hle).
    destruct (wf_nested _ Hwf _ _ _ Hl (list_elem_of_lookup_2 _ _ _ Hi))
      as (q & Hq & Hlq & Hqa).
    destruct (wf_nested _ Hwf' _ _ _ Hc' (list_elem_of_lookup_2 _ _ _ Hi'))
      as (q'' & Hq'' & Hdq & Hqa').
    rewrite Hq' in Hq''. injection Hq'' as <-.
    split; [done|]. exists q, q'. split_and!; try done.
    + destruct (schedules σ !! q') eqn:Hold; [|done].
      pose proof (wf_alloc _ Hwf q' (ex_intro _ _ Hold)). lia.
    + intros f1 f2 Hf1 Hf2.
      pose proof (wf_alloc _ Hwf q Hqa) as Hqlt.
      pose proof (wf_alloc _ Hwf' q' Hqa') as Hqlt'.
      pose proof (wf_alloc _ Hwf l (ex_intro _ _ Hl)) as Hllt.
      set (F1 := Pos.to_nat (next_schedule σ)).
      set (F2 := Pos.to_nat (next_schedule σ')).
      rewrite (tree_of_enough f2 F2 σ' q'), (tree_of_enough f1 F1 σ q);
        try done; try (unfold enough_fuel, F1, F2 in *; lia).
      eapply (tree_of_nested F1 F2 σ σ' l d); try done.
      apply Htree; unfold enough_fuel, F1, F2; lia.
  - intros call σ' Hperm Hrun. apply Hinv. by eapply run_wf.
  - intros. by apply Schedule_mutate_not_fatal.
Qed.

(** C9, as amended: on every store that the interface leads to, the
    default constructor returns a handle with defined contents on an
    empty record (no splits, dims, storage dims, bounds, specializations
    or wrappers, the three flags false); [deep_copy] of a handle with a
    record behind it returns a handle with defined contents on a record
    that holds the placement, splits, dims, storage dims, bounds and
    flags of the source, specializations with the conditions of those
    of the source and wrappers under the names of those of the source,
    so that it is empty exactly when the source is; and [deep_copy] of
    a handle with defined contents never takes the branch of the
    undefined schedule. *)
Theorem constructed_schedules_are_defined σ :
  reachable σ →
  (∃ l σ', Schedule_new σ = Ok {| contents := Some l |} σ' ∧
     schedules σ' !! l = Some ScheduleContents_new ∧
     splits ScheduleContents_new = [] ∧ dims ScheduleContents_new = [] ∧
     storage_dims ScheduleContents_new = [] ∧ bounds ScheduleContents_new = [] ∧
     specializations ScheduleContents_new = [] ∧
     wrappers ScheduleContents_new = ∅ ∧
     memoized ScheduleContents_new = false ∧ touched ScheduleContents_new = false ∧
     allow_race_conditions ScheduleContents_new = false) ∧
  (∀ this l s fuel copied_map, contents this = Some l →
     schedules σ !! l = Some s → enough_fuel σ l fuel →
     ∃ d copied_map' σ' c',
       Schedule_deep_copy fuel this copied_map σ =
         Ok ({| contents := Some d |}, copied_map') σ' ∧
       schedules σ' !! d = Some c' ∧
       store_level c' = store_level s ∧ compute_level c' = compute_level s ∧
       splits c' = splits s ∧ dims c' = dims s ∧
       storage_dims c' = storage_dims s ∧ bounds c' = bounds s ∧
       memoized c' = memoized s ∧ touched c' = touched s ∧
       allow_race_conditions c' = allow_race_conditions s ∧
       condition <$> specializations c' = condition <$> specializations s ∧
       dom (wrappers c') = dom (wrappers s) ∧
       (empty_record c' ↔ empty_record s)) ∧
  (∀ this fuel copied_map σ', live σ this → is_Some (contents this) →
     Schedule_deep_copy fuel this copied_map σ ≠
       Fatal Cannot_deep_copy_undefined_Schedule σ').
Proof.
  intros Hσ. pose proof (reachable_wf σ Hσ) as Hwf. split_and!.
  - destruct (Schedule_new_spec σ Hwf) as (σ' & Hnew & _ & _ & _ & Hrec).
    exists (next_schedule σ), σ'. by split_and!.
  - intros this l s fuel cm Hthis Hl Hfuel.
    destruct (Schedule_deep_copy_total fuel this cm σ l Hwf Hthis (ex_intro _ s Hl) Hfuel)
      as (d & cm' & σ' & Hrun & _ & _ & _ & s' & c' & Hs' & Hc' & Hcp).
    rewrite Hl in Hs'. injection Hs' as <-.
    exists d, cm', σ', c'.
    destruct Hcp as [Hsl Hcl Hsp Hdm Hsd Hbd Hmm Hto Har Hw _ Hspecs].
    assert (Hconds : condition <$> specializations c' = condition <$> specializations s).
    { apply list_eq_Forall2, Forall2_fmap, Forall2_flip.
      eapply Forall2_impl; [done|]. by intros sp sp' [-> _]. }
    assert (Hdom : dom (wrappers c') = dom (wrappers s)).
    { rewrite Hw. apply copy_wrappers_dom. }
    split_and!; try done.
    assert (Hnil : specializations c' = [] ↔ specializations s = []).
    { split; intros Hnil; rewrite Hnil in Hconds.
      - by destruct (specializations s).
      - by destruct (specializations c'). }
    assert (Hemp : wrappers c' = ∅ ↔ wrappers s = ∅).
    { rewrite <- !dom_empty_iff_L. by rewrite Hdom. }
    unfold empty_record. rewrite Hsp, Hdm, Hsd, Hbd, Hmm, Hto, Har, Hnil, Hemp. done.
  - intros this fuel cm σ' Hlive [l Hthis].
    by apply (Schedule_deep_copy_not_fatal fuel this l cm σ _ σ' Hwf Hthis
                (Hlive l Hthis)).
Qed.

End ErrorClaims.

Section ErrorExamples.
#[local] Existing Instance Demo.collaborators.
Import Demo.

Lemma example_base_live : live example_store base.
Proof. apply liveb_live. vm_compute. reflexivity. Qed.

Lemma deep_copy_errors_witness :
  (∀ fuel copied_map σ0,
     deep_copy_schedule_contents_helper fuel None copied_map σ0 =
       Ok (None, copied_map) σ0) ∧
  (∀ fuel undef copied_map σ0, contents undef = None →
     ∃ σ1, Schedule_deep_copy fuel undef copied_map σ0 =
             Fatal Cannot_deep_copy_undefined_Schedule σ1) ∧
  (∀ fuel copied_map d σ',
     Schedule_deep_copy fuel base copied_map example_store = Fatal d σ' →
     contents base = None ∧ d = Cannot_deep_copy_undefined_Schedule) ∧
  (∀ (M : Type) (mutator_mutate : Expr → M → Expr * M) fuel m d σ',
     Schedule_mutate mutator_mutate fuel base m example_store ≠ Fatal d σ') ∧
  (∀ (V : Type) (visit : IRNode → V → V) v d σ',
     Schedule_accept visit base v example_store ≠ Fatal d σ') ∧
  (∀ l fuel, contents base = Some l → enough_fuel example_store l fuel →
     (∀ copied_map, ∃ r σ',
        Schedule_deep_copy fuel base copied_map example_store = Ok r σ') ∧
     (∀ (M : Type) (mutator_mutate : Expr → M → Expr * M) m,
        ∃ m' σ', Schedule_mutate mutator_mutate fuel base m example_store = Ok m' σ')).
Proof.
  apply (deep_copy_errors example_store base).
  - exact example_store_reachable.
  - exact example_base_live.
Defined.

Lemma specializations_always_defined_witness :
  reachable example_store ∧
  (∀ l c sp, schedules example_store !! l = Some c → sp ∈ specializations c →
     ∃ q, schedule sp = Some q ∧ is_Some (schedules example_store !! q)) ∧
  (∀ this l c cond, contents this = Some l → schedules example_store !! l = Some c →
     ∃ p σ', Schedule_add_specialization this cond example_store =
               Ok {| condition := cond; schedule := Some p |} σ' ∧
       schedules example_store !! p = None ∧ is_Some (schedules σ' !! p) ∧
       (∀ l' c' sp', schedules example_store !! l' = Some c' → sp' ∈ specializations c' →
          schedule sp' ≠ Some p) ∧
       schedules σ' !! l =
         Some (set_specializations
                 (specializations c ++ [{| condition := cond; schedule := Some p |}])
                 c)) ∧
  (∀ this l s fuel copied_map, contents this = Some l →
     schedules example_store !! l = Some s → enough_fuel example_store l fuel →
     ∃ d copied_map' σ' c',
       Schedule_deep_copy fuel this copied_map example_store =
         Ok ({| contents := Some d |}, copied_map') σ' ∧
       schedules σ' !! d = Some c' ∧
       Forall2 (λ sp sp', condition sp' = condition sp ∧
                  ∃ q q', schedule sp = Some q ∧ schedule sp' = Some q' ∧
                    schedules example_store !! q' = None ∧ is_Some (schedules σ' !! q') ∧
                    ∀ f1 f2, enough_fuel example_store q f1 → enough_fuel σ' q' f2 →
                      tree_of f2 σ' q' = tree_of f1 example_store q)
         (specializations s) (specializations c') ∧
       (∀ l' c sp, schedules σ' !! l' = Some c → sp ∈ specializations c →
          ∃ q, schedule sp = Some q ∧ is_Some (schedules σ' !! q))) ∧
  (∀ call σ', permitted example_store call →
     (run call example_store = Ok tt σ' ∨ ∃ d, run call example_store = Fatal d σ') →
     ∀ l c sp, schedules σ' !! l = Some c → sp ∈ specializations c →
       ∃ q, schedule sp = Some q ∧ is_Some (schedules σ' !! q)) ∧
  (∀ this (M : Type) (mutator_mutate : Expr → M → Expr * M) fuel m σ',
     live example_store this →
     Schedule_mutate mutator_mutate fuel this m example_store ≠
       Fatal Specialization_schedule_undefined σ').
Proof.
  split; [exact example_store_reachable|].
  exact (specializations_always_defined example_store example_store_reachable).
Defined.

Lemma constructed_schedules_are_defined_witness :
  reachable example_store ∧
  (∃ l σ', Schedule_new example_store = Ok {| contents := Some l |} σ' ∧
     schedules σ' !! l = Some ScheduleContents_new ∧
     splits ScheduleContents_new = [] ∧ dims ScheduleContents_new = [] ∧
     storage_dims ScheduleContents_new = [] ∧ bounds ScheduleContents_new = [] ∧
     specializations ScheduleContents_new = [] ∧
     wrappers ScheduleContents_new = ∅ ∧
     memoized ScheduleContents_new = false ∧ touched ScheduleContents_new = false ∧
     allow_race_conditions ScheduleContents_new = false) ∧
  (∀ this l s fuel copied_map, contents this = Some l →
     schedules example_store !! l = Some s → enough_fuel example_store l fuel →
     ∃ d copied_map' σ' c',
       Schedule_deep_copy fuel this copied_map example_store =
         Ok ({| contents := Some d |}, copied_map') σ' ∧
       schedules σ' !! d = Some c' ∧
       store_level c' = store_level s ∧ compute_level c' = compute_level s ∧
       splits c' = splits s ∧ dims c' = dims s ∧
       storage_dims c' = storage_dims s ∧ bounds c' = bounds s ∧
       memoized c' = memoized s ∧ touched c' = touched s ∧
       allow_race_conditions c' = allow_race_conditions s ∧
       condition <$> specializations c' = condition <$> specializations s ∧
       dom (wrappers c') = dom (wrappers s) ∧
       (empty_record c' ↔ empty_record s)) ∧
  (∀ this fuel copied_map σ', live example_store this → is_Some (contents this) →
     Schedule_deep_copy fuel this copied_map example_store ≠
       Fatal Cannot_deep_copy_undefined_Schedule σ').
Proof.
  split; [exact example_store_reachable|].
  exact (constructed_schedules_are_defined example_store example_store_reachable).
Defined.

(** C9 as stated fails: the schedule that [deep_copy] returns for the
    example, a store the interface leads to, has defined contents on a
    record that holds the split of the source; it is not the empty
    record. *)
Lemma deep_copy_returns_nonempty_record :
  ∃ copied_map' σ' c,
    reachable example_store ∧ live example_store base ∧
    Schedule_deep_copy 2 base ∅ example_store =
      Ok ({| contents := Some 4%positive |}, copied_map') σ' ∧
    schedules σ' !! 4%positive = Some c ∧
    splits c = [split_x] ∧
    schedules σ' !! 4%positive ≠ Some ScheduleContents_new.
Proof.
  eexists _, _, _. split; [exact example_store_reachable|].
  split; [exact example_base_live|].
  split; [vm_compute; reflexivity|].
  split; [vm_compute; reflexivity|].
  split; [reflexivity|].
  vm_compute. discriminate.
Qed.

End ErrorExamples.

(** * Further properties of Schedule.cpp *)

(** ** Accessors and undefined handles *)

Section Accessors.
Context `{Collaborators}.

Lemma reads_frame a other l c c' σ σ' :
  contents other = Some l → schedules σ !! l = Some c → schedules σ' !! l = Some c' →
  (match a with
   | Set_memoized _ => memoized c' = memoized c
   | Set_touched _ => touched c' = touched c
   | Set_splits _ => splits c' = splits c
   | Set_dims _ => dims c' = dims c
   | Set_storage_dims _ => storage_dims c' = storage_dims c
   | Set_bounds _ => bounds c' = bounds c
   | Set_store_level _ => store_level c' = store_level c
   | Set_compute_level _ => compute_level c' = compute_level c
   | Set_allow_race_conditions _ => allow_race_conditions c' = allow_race_conditions c
   end) →
  reads a other σ → reads a other σ'.
Proof.
  intros Hother Hc Hc' Heq.
  destruct a; simpl;
    unfold Schedule_memoized, Schedule_touched, Schedule_splits, Schedule_dims,
      Schedule_storage_dims, Schedule_bounds, Schedule_store_level,
      Schedule_compute_level, Schedule_allow_race_conditions;
    rewrite (read_spec _ other l c σ Hother Hc), (read_spec _ other l c' σ' Hother Hc');
    intros [= <-]; by rewrite Heq.
Qed.

(** X1: the accessors (lines 131-181, 204-206, 222-253): an assignment
    through the reference that a mutable accessor returns is read back
    by the const accessor of the same member through every handle on
    the record; what the other accessors return is as before, and so
    are all other records, the reduction domains and the warnings.
    [set_reduction_domain] stores the handle it is given: it is read
    back as it is, and no reduction domain is created or changed. *)
Theorem accessors_read_what_was_assigned this other l c σ :
  contents this = Some l → contents other = Some l → schedules σ !! l = Some c →
  (∀ a, ∃ σ', assign (setter_update a) this σ = Ok tt σ' ∧
     reads a other σ' ∧
     (∀ b, same_member a b = false → reads b other σ → reads b other σ') ∧
     Schedule_specializations other σ' = Ok (specializations c) σ' ∧
     Schedule_wrappers other σ' = Ok (wrappers c) σ' ∧
     Schedule_reduction_domain other σ' = Ok (reduction_domain c) σ' ∧
     (∀ l', l' ≠ l → schedules σ' !! l' = schedules σ !! l') ∧
     rdoms σ' = rdoms σ ∧ warnings σ' = warnings σ) ∧
  (∀ d, ∃ σ', Schedule_set_reduction_domain this d σ = Ok tt σ' ∧
     Schedule_reduction_domain other σ' = Ok d σ' ∧
     (∀ b, reads b other σ → reads b other σ') ∧
     Schedule_specializations other σ' = Ok (specializations c) σ' ∧
     Schedule_wrappers other σ' = Ok (wrappers c) σ' ∧
     (∀ l', l' ≠ l → schedules σ' !! l' = schedules σ !! l') ∧
     rdoms σ' = rdoms σ ∧ warnings σ' = warnings σ).
Proof.
  intros Hthis Hother Hc. split.
  - intros a. eexists. split; [by eapply assign_spec|].
    set (σ' := with_schedules _ σ).
    assert (Hc' : schedules σ' !! l = Some (setter_update a c))
      by (simpl; by rewrite lookup_insert_eq).
    split_and!; try done.
    + destruct a; simpl;
        unfold Schedule_memoized, Schedule_touched, Schedule_splits, Schedule_dims,
          Schedule_storage_dims, Schedule_bounds, Schedule_store_level,
          Schedule_compute_level, Schedule_allow_race_conditions;
        by rewrite (read_spec _ other l _ σ' Hother Hc').
    + intros b Hab. eapply reads_frame; [done..|].
      by destruct a, b.
    + unfold Schedule_specializations.
      rewrite (read_spec _ other l _ σ' Hother Hc'). by destruct a.
    + unfold Schedule_wrappers.
      rewrite (read_spec _ other l _ σ' Hother Hc'). by destruct a.
    + unfold Schedule_reduction_domain.
      rewrite (read_spec _ other l _ σ' Hother Hc'). by destruct a.
    + intros l' Hne. simpl. by rewrite lookup_insert_ne.
  - intros d. unfold Schedule_set_reduction_domain.
    eexists. split; [by eapply assign_spec|].
    set (σ' := with_schedules _ σ).
    assert (Hc' : schedules σ' !! l = Some (set_reduction_domain_field d c))
      by (simpl; by rewrite lookup_insert_eq).
    split_and!; try done.
    + unfold Schedule_reduction_domain.
      by rewrite (read_spec _ other l _ σ' Hother Hc').
    + intros b. eapply reads_frame; [done..|]. by destruct b.
    + unfold Schedule_specializations.
      by rewrite (read_spec _ other l _ σ' Hother Hc').
    + unfold Schedule_wrappers.
      by rewrite (read_spec _ other l _ σ' Hother Hc').
    + intros l' Hne. simpl. by rewrite lookup_insert_ne.
Qed.

End Accessors.

Section UndefinedHandles.
Context `{Collaborators}.

(** X2: an undefined [Schedule]: [mutate] (lines 274-278) checks the handle
    and returns at once, whatever the mutator; [deep_copy] aborts with
    its diagnostic (line 126); [accept], every accessor,
    [set_reduction_domain], [add_specialization] and [add_wrapper] go
    through the handle unchecked, which is undefined behaviour. *)
Theorem undefined_schedule_is_checked_by_mutate_and_deep_copy_only this σ :
  contents this = None →
  (∀ (M : Type) (mut : Expr → M → Expr * M) fuel m,
     Schedule_mutate mut fuel this m σ = Ok m σ) ∧
  (∀ fuel cm, ∃ σ',
     Schedule_deep_copy fuel this cm σ = Fatal Cannot_deep_copy_undefined_Schedule σ') ∧
  (∀ (V : Type) (visit : IRNode → V → V) v, Schedule_accept visit this v σ = Undefined) ∧
  (∀ (A : Type) (field : ScheduleContents → A), read field this σ = Undefined) ∧
  (∀ upd, assign upd this σ = Undefined) ∧
  (∀ d, Schedule_set_reduction_domain this d σ = Undefined) ∧
  (∀ cond, Schedule_add_specialization this cond σ = Undefined) ∧
  (∀ f wrapper, Schedule_add_wrapper this f wrapper σ = Undefined).
Proof.
  intros Hthis. split_and!.
  - intros M mut fuel m. unfold Schedule_mutate. by rewrite Hthis.
  - intros fuel cm.
    destruct (Schedule_deep_copy_undefined fuel this cm σ Hthis) as (σ' & Hrun & _).
    eauto.
  - intros V visit v. apply Schedule_accept_undefined. intros l Hl. congruence.
  - intros A field. unfold read. by rewrite Hthis.
  - intros upd. unfold assign. by rewrite Hthis.
  - intros d. unfold Schedule_set_reduction_domain, assign. by rewrite Hthis.
  - intros cond. by apply Schedule_add_specialization_undefined.
  - intros f wrapper. unfold Schedule_add_wrapper. by rewrite Hthis.
Qed.

End UndefinedHandles.

(** ** Specializations *)

Section SpecializationOrder.
Context `{Collaborators}.

Lemma nth_fresh_0 σ : nth_fresh σ 0 = next_schedule σ.
Proof. done. Qed.

Lemma iter_succ_shift i p : Nat.iter i Pos.succ (Pos.succ p) = Pos.succ (Nat.iter i Pos.succ p).
Proof. induction i as [|i IH]; [done|]. simpl. by rewrite IH. Qed.

Lemma nth_fresh_lt σ i : (next_schedule σ ≤ nth_fresh σ i)%positive.
Proof. unfold nth_fresh. induction i as [|i IH]; simpl; lia. Qed.

(** X3: specializations are kept in the order of the calls of
    [add_specialization] (lines 183-202): after one call per condition
    the specialization list of the schedule is the one before followed
    by one entry per condition, in order; their nested records are the
    records allocated one after the other by the calls, and each of
    them is the snapshot of the schedule (all of them the same, with no
    specialization of its own); the other records and the reduction
    domains are as before. *)
Theorem specializations_keep_the_order_of_the_calls this l conds : ∀ c σ,
  wf σ → contents this = Some l → schedules σ !! l = Some c →
  ∃ σ', add_specializations this conds σ = Ok tt σ' ∧
    schedules σ' !! l =
      Some (set_specializations
              (specializations c ++
                 imap (λ i cond, {| condition := cond;
                                    schedule := Some (nth_fresh σ i) |}) conds) c) ∧
    (∀ i, i < length conds →
       schedules σ' !! nth_fresh σ i =
         Some (assign_fields c (reduction_domain c) ScheduleContents_new)) ∧
    (∀ x, x ≠ l → (x < next_schedule σ)%positive →
       schedules σ' !! x = schedules σ !! x) ∧
    next_schedule σ' = nth_fresh σ (length conds) ∧ rdoms σ' = rdoms σ ∧ wf σ'.
Proof.
  unfold add_specializations.
  induction conds as [|cond conds IH]; intros c σ Hwf Hthis Hc.
  - exists σ. split; [done|]. split_and!; try done.
    + rewrite Hc. f_equal. destruct c; simpl. unfold set_specializations; simpl.
      by rewrite app_nil_r.
    + simpl. lia.
  - pose proof (wf_fresh σ Hwf) as Hfresh.
    pose proof (Schedule_add_specialization_spec this cond l c σ Hthis Hc Hfresh) as Hadd.
    pose proof (wf_add_specialization σ l c cond Hwf Hc) as Hwf1.
    pose proof (wf_alloc _ Hwf l (ex_intro _ _ Hc)) as Hlt.
    simpl in Hadd, Hwf1.
    set (p := next_schedule σ) in *.
    set (sp := {| condition := cond; schedule := Some p |}) in *.
    set (c1 := set_specializations (specializations c ++ [sp]) c) in *.
    set (n := assign_fields c (reduction_domain c) ScheduleContents_new) in *.
    set (σ1 := {| schedules := _ |}) in *.
    assert (Hc1 : schedules σ1 !! l = Some c1) by (simpl; by rewrite lookup_insert_eq).
    assert (Hp1 : schedules σ1 !! p = Some n).
    { simpl. rewrite lookup_insert_ne by (unfold p; lia). by rewrite lookup_insert_eq. }
    destruct (IH c1 σ1 Hwf1 Hthis Hc1) as (σ' & Hrun & Hl' & Hnested & Hframe & Hnext & Hrd & Hwf').
    exists σ'. split.
    { cbn [for_each]. rewrite (bind_Ok _ _ σ tt σ1); [done|].
      by rewrite (bind_Ok _ _ _ _ _ Hadd). }
    assert (Hshift : ∀ i, nth_fresh σ1 i = nth_fresh σ (S i)).
    { intros i. unfold nth_fresh. simpl. apply iter_succ_shift. }
    split_and!.
    + rewrite Hl'. f_equal. unfold c1, set_specializations. simpl. f_equal.
      rewrite <- (assoc_L (++)). f_equal. simpl. f_equal.
      apply imap_ext. intros i x _. simpl. by rewrite Hshift.
    + intros [|i] Hi.
      * rewrite nth_fresh_0. rewrite Hframe; [done|unfold p; lia|simpl; unfold p; lia].
      * rewrite <- Hshift. rewrite Hnested by (simpl in Hi; lia). done.
    + intros x Hne Hx. rewrite Hframe; [|done|simpl; lia].
      simpl. rewrite !lookup_insert_ne by (unfold p; lia). done.
    + rewrite Hnext. apply Hshift.
    + done.
    + done.
Qed.

End SpecializationOrder.

Section Acyclic.
Context `{Collaborators}.

(** X4: in every store that calls of the interface lead to, no schedule is
    nested in itself: the nested record of a specialization is created
    by the call that appends the specialization (lines 186 and 200, 82
    and 114), after the record that holds it. *)
Theorem no_schedule_is_nested_in_itself σ l c sp q :
  reachable σ → schedules σ !! l = Some c → sp ∈ specializations c →
  schedule sp = Some q → q ≠ l ∧ ¬ nested σ q l.
Proof.
  intros Hreach Hc Hin Hq. pose proof (reachable_wf σ Hreach) as Hwf.
  destruct (wf_nested _ Hwf _ _ _ Hc Hin) as (q' & Hq' & Hlt & _).
  rewrite Hq in Hq'. injection Hq' as <-. split; [lia|].
  intros Hn. pose proof (nested_le _ _ _ Hwf Hn). lia.
Qed.

End Acyclic.

Section SharedDomain.
Context `{Collaborators} {M : Type} (mut : Expr → M → Expr * M).

(** X5: a specialization shares the reduction domain of its schedule: line
    195 copies the handle.  So one pass of [mutate] over the schedule
    rewrites the expressions of the domain twice, once from the nested
    record (line 54) and once from the record itself (line 56): what the
    domain holds afterwards is the result of the mutator on the result
    of the mutator. *)
Theorem specialization_shares_the_reduction_domain this l c r es cond fuel m σ :
  wf σ → contents this = Some l → schedules σ !! l = Some c →
  specializations c = [] → reduction_domain c = Some r → rdoms σ !! r = Some es →
  ∃ p σ1 n,
    Schedule_add_specialization this cond σ =
      Ok {| condition := cond; schedule := Some p |} σ1 ∧
    schedules σ1 !! p = Some n ∧ reduction_domain n = Some r ∧
    Schedule_reduction_domain this σ1 = Ok (Some r) σ1 ∧
    rdoms σ1 = rdoms σ ∧
    ∃ m' σ2 ma mb,
      ScheduleContents_mutate mut (S (S fuel)) l m σ1 = Ok m' σ2 ∧
      rdoms σ2 !! r = Some (mutate_exprs mut (mutate_exprs mut es ma).1 mb).1.
Proof.
  intros Hwf Hthis Hc Hsp Hr Hes.
  pose proof (wf_fresh σ Hwf) as Hfresh.
  pose proof (Schedule_add_specialization_spec this cond l c σ Hthis Hc Hfresh) as Hadd.
  pose proof (wf_alloc _ Hwf l (ex_intro _ _ Hc)) as Hlt.
  simpl in Hadd. rewrite Hsp, Hr in Hadd. simpl in Hadd.
  set (p := next_schedule σ) in *.
  set (sp := {| condition := cond; schedule := Some p |}) in *.
  set (c1 := set_specializations [sp] c) in *.
  set (n := assign_fields c (Some r) ScheduleContents_new) in *.
  set (σ1 := {| schedules := _ |}) in *.
  assert (Hlp : l ≠ p) by (unfold p; lia).
  assert (Hc1 : schedules σ1 !! l = Some c1) by (simpl; by rewrite lookup_insert_eq).
  assert (Hp1 : schedules σ1 !! p = Some n).
  { simpl. rewrite lookup_insert_ne by done. by rewrite lookup_insert_eq. }
  exists p, σ1, n. split; [exact Hadd|]. split; [exact Hp1|]. split; [reflexivity|].
  split.
  { unfold Schedule_reduction_domain. rewrite (read_spec _ this l c1 σ1) by done.
    change (reduction_domain c1) with (reduction_domain c). by rewrite Hr. }
  split; [reflexivity|].
  (* what the mutator returns, call by call *)
  destruct (mutate_splits mut (splits c) m) as [ss m1] eqn:Hss.
  destruct (mutate_bounds mut (bounds c) m1) as [bs m2] eqn:Hbs.
  destruct (mutate_if_defined mut cond m2) as [e m3] eqn:He.
  destruct (mutate_splits mut (splits c) m3) as [ss' m4] eqn:Hss'.
  destruct (mutate_bounds mut (bounds c) m4) as [bs' m5] eqn:Hbs'.
  destruct (mutate_exprs mut es m5) as [es1 m6] eqn:Hes1.
  destruct (mutate_exprs mut es1 m6) as [es2 m7] eqn:Hes2.
  set (c2 := set_bounds bs (set_splits ss c1)).
  set (σa := with_schedules (<[l:=c2]> (schedules σ1)) σ1).
  set (c3 := set_specializations [{| condition := e; schedule := Some p |}] c2).
  set (σb := with_schedules (<[l:=c3]> (schedules σa)) σa).
  set (n2 := set_bounds bs' (set_splits ss' n)).
  set (σc := with_schedules (<[p:=n2]> (schedules σb)) σb).
  set (σd := with_rdoms (<[r:=es1]> (rdoms σc)) σc).
  set (σe := with_rdoms (<[r:=es2]> (rdoms σd)) σd).
  exists m7, σe, m5, m6. split.
  2:{ rewrite Hes1. cbn [fst]. rewrite Hes2. simpl. by rewrite lookup_insert_eq. }
  assert (Hc2 : schedules σa !! l = Some c2) by (simpl; by rewrite lookup_insert_eq).
  assert (Hpb : schedules σb !! p = Some n).
  { simpl. rewrite !lookup_insert_ne by done. by rewrite lookup_insert_eq. }
  (* the pass over the nested record *)
  assert (Hnested : ScheduleContents_mutate mut (S fuel) p m3 σb = Ok m6 σd).
  { rewrite (ScheduleContents_mutate_leaf mut fuel p n m3 σb Hpb eq_refl).
    change (splits n) with (splits c). change (bounds n) with (bounds c).
    rewrite Hss'. cbn [fst snd]. rewrite Hbs'. cbn [fst snd].
    change (reduction_domain n) with (Some r). fold n2. fold σc.
    cbn [ReductionDomain_mutate].
    assert (Hrc : rdoms σc !! r = Some es) by done.
    rewrite Hrc, Hes1. done. }
  (* the turn of the loop for the specialization *)
  assert (Hturn :
    (c0 ← deref (Some l);
     match specializations c0 !! 0 with
     | Some s =>
         let '(e, m') := mutate_if_defined mut (condition s) m2 in
         store (Some l)
           (set_specializations
              (<[0 := {| condition := e; schedule := schedule s |}]> (specializations c0))
              c0);;
         internal_assert (defined (schedule s)) Specialization_schedule_undefined;;
         match schedule s with
         | Some q => ScheduleContents_mutate mut (S fuel) q m'
         | None => undefined_behaviour
         end
     | None => undefined_behaviour
     end) σa = Ok m6 σd).
  { rewrite (bind_Ok _ _ σa _ _ (deref_Some _ _ _ Hc2)).
    change (specializations c2) with [sp]. cbn [lookup list_lookup].
    change (condition sp) with cond. change (schedule sp) with (Some p).
    rewrite He.
    rewrite (bind_Ok _ _ _ _ _ (store_Some _ _ _ _ Hc2)).
    cbn [defined]. unfold internal_assert.
    rewrite (bind_Ok _ (λ _, ScheduleContents_mutate mut (S fuel) p m3) σb tt σb) by done.
    exact Hnested. }
  (* the pass over the record at [l] *)
  rewrite ScheduleContents_mutate_unfold.
  rewrite (bind_Ok _ _ _ _ _ (deref_Some _ _ _ Hc1)).
  change (splits c1) with (splits c). change (bounds c1) with (bounds c).
  rewrite Hss, Hbs.
  rewrite (bind_Ok _ _ _ _ _ (store_Some _ _ _ _ Hc1)). fold c2. fold σa.
  change (specializations c1) with [sp]. cbn [length seq for_each].
  erewrite (bind_Ok _ _ σa m6 σd).
  2:{ erewrite bind_Ok; [reflexivity|exact Hturn]. }
  assert (Hld : schedules σd !! l = Some c3).
  { simpl. rewrite lookup_insert_ne by done. by rewrite lookup_insert_eq. }
  rewrite (bind_Ok _ _ _ _ _ (deref_Some _ _ _ Hld)).
  change (reduction_domain c3) with (reduction_domain c). rewrite Hr.
  cbn [ReductionDomain_mutate].
  assert (Hrd : rdoms σd !! r = Some es1) by (simpl; by rewrite lookup_insert_eq).
  rewrite Hrd, Hes2. done.
Qed.

End SharedDomain.

(** ** The traversals *)

Section AcceptWithinMutate.
Context `{Collaborators}.

Lemma Some_omap_id (es : list Expr) : Some <$> omap id es = defined_exprs es.
Proof.
  induction es as [|[n|] es IH]; [done|..].
  - rewrite (defined_exprs_cons (Some n) es), <- IH. done.
  - rewrite (defined_exprs_cons None es), <- IH. done.
Qed.

Lemma conditions_sublist (rest : Specialization → list Expr) sps :
  defined_exprs (map condition sps) `sublist_of`
    flat_map (λ sp, defined_exprs [condition sp] ++ rest sp) sps.
Proof.
  induction sps as [|sp sps IH]; [done|].
  simpl. rewrite (defined_exprs_cons (condition sp) (map condition sps)).
  rewrite <- (assoc_L (++)). apply sublist_app; [done|].
  by apply sublist_inserts_l.
Qed.

(** X6: [accept] (lines 255-272) hands to the visitor a part of what
    [mutate] hands to the mutator, in the same order: the nodes it
    visits, in its order, are a sublist of the expressions of the mutate
    traversal; for a record without specializations and without
    reduction domain the two are the same list.  [accept] leaves the
    store as it is. *)
Theorem accept_visits_part_of_the_mutate_traversal this l c fuel σ :
  wf σ → contents this = Some l → schedules σ !! l = Some c →
  Forall (λ sp, is_Some (condition sp)) (specializations c) →
  enough_fuel σ l fuel →
  (∀ (V : Type) (visit : IRNode → V → V) v,
     Schedule_accept visit this v σ =
       Ok (foldl (λ v n, visit n v) v (accept_order c)) σ) ∧
  (∀ (M : Type) (g : M → Expr → M) m,
     Schedule_mutate (observer g) fuel this m σ =
       Ok (foldl g m (visit_order fuel σ l)) σ) ∧
  (Some <$> accept_order c) `sublist_of` visit_order fuel σ l ∧
  (specializations c = [] → reduction_domain c = None →
     visit_order fuel σ l = Some <$> accept_order c).
Proof.
  intros Hwf Hthis Hc Hall Hfuel.
  assert (Hvisit : visit_order fuel σ l =
    defined_exprs (map factor (splits c)) ++
    defined_exprs (flat_map (λ b, [min b; extent b]) (bounds c)) ++
    flat_map (λ sp, defined_exprs [condition sp] ++
                match schedule sp with
                | Some q => visit_order (pred fuel) σ q
                | None => []
                end) (specializations c) ++
    match reduction_domain c with
    | Some r => defined_exprs (default [] (rdoms σ !! r))
    | None => []
    end).
  { destruct fuel as [|fuel]; [by destruct (enough_fuel_0 σ l Hwf (ex_intro _ _ Hc))|].
    simpl. by rewrite Hc. }
  assert (Horder : Some <$> accept_order c =
    defined_exprs (map factor (splits c)) ++
    defined_exprs (flat_map (λ b, [min b; extent b]) (bounds c)) ++
    defined_exprs (map condition (specializations c))).
  { unfold accept_order. by rewrite !fmap_app, !Some_omap_id. }
  split_and!.
  - intros V visit v. rewrite (Schedule_accept_spec visit this l c v σ Hthis Hc).
    by rewrite decide_True.
  - intros M g m. unfold Schedule_mutate. rewrite Hthis.
    apply ScheduleContents_mutate_observer; eauto.
  - rewrite Hvisit, Horder. apply sublist_app; [done|]. apply sublist_app; [done|].
    apply sublist_inserts_r, conditions_sublist.
  - intros Hsp Hrd. rewrite Hvisit, Horder, Hsp, Hrd. simpl. by rewrite !app_nil_r.
Qed.

End AcceptWithinMutate.

Section MutateFrame.
Context `{Collaborators} {M : Type} (mut : Expr → M → Expr * M).

(** X7: [ScheduleContents::mutate] (lines 35-57) changes nothing but the
    records nested in the record it is called on and the reduction
    domains those hold: every other record and every other reduction
    domain is as before, no record or reduction domain is created or
    dropped, and the stage store and the warnings are as before. *)
Theorem mutate_changes_only_what_is_nested σ l fuel m :
  wf σ → is_Some (schedules σ !! l) → enough_fuel σ l fuel →
  ∃ m' σ', ScheduleContents_mutate mut fuel l m σ = Ok m' σ' ∧
    (∀ l', ¬ nested σ l l' → schedules σ' !! l' = schedules σ !! l') ∧
    (∀ r, ¬ holds_rdom σ l r → rdoms σ' !! r = rdoms σ !! r) ∧
    (∀ l', is_Some (schedules σ' !! l') ↔ is_Some (schedules σ !! l')) ∧
    (∀ r, is_Some (rdoms σ' !! r) ↔ is_Some (rdoms σ !! r)) ∧
    next_schedule σ' = next_schedule σ ∧ next_rdom σ' = next_rdom σ ∧
    stages σ' = stages σ ∧ warnings σ' = warnings σ.
Proof.
  intros Hwf Hl Hfuel.
  destruct (ScheduleContents_mutate_total mut fuel l m σ Hwf Hl Hfuel)
    as (m' & σ' & Hrun & Hrel & _).
  destruct (ScheduleContents_mutate_footprint mut fuel l m σ m' σ' Hwf Hl Hrun)
    as [Hrec Hrd].
  exists m', σ'. split; [done|]. split; [done|]. split; [done|].
  destruct Hrel as [Hns Hnr Hst Hw Hs Hr]. split_and!; try done.
  - intros l'. specialize (Hs l'). inversion Hs; split; intros [? ?]; eauto; congruence.
  - intros r. specialize (Hr r). inversion Hr; split; intros [? ?]; eauto; congruence.
Qed.

End MutateFrame.

Section MutateAbort.
Context `{Collaborators} {M : Type} (mut : Expr → M → Expr * M).

Lemma ScheduleContents_mutate_undefined_nested l c sp rest fuel m σ :
  schedules σ !! l = Some c → specializations c = sp :: rest → schedule sp = None →
  ∃ σ' c',
    ScheduleContents_mutate mut (S fuel) l m σ =
      Fatal Specialization_schedule_undefined σ' ∧
    schedules σ' !! l = Some c' ∧
    splits c' = (mutate_splits mut (splits c) m).1 ∧
    bounds c' = (mutate_bounds mut (bounds c) (mutate_splits mut (splits c) m).2).1 ∧
    specializations c' =
      {| condition :=
           (mutate_if_defined mut (condition sp)
              (mutate_bounds mut (bounds c) (mutate_splits mut (splits c) m).2).2).1;
         schedule := None |} :: rest ∧
    reduction_domain c' = reduction_domain c ∧
    (∀ l', l' ≠ l → schedules σ' !! l' = schedules σ !! l') ∧
    rdoms σ' = rdoms σ.
Proof.
  intros Hc Hsp Hq.
  destruct (mutate_splits mut (splits c) m) as [ss m1] eqn:Hss. cbn [fst snd].
  destruct (mutate_bounds mut (bounds c) m1) as [bs m2] eqn:Hbs. cbn [fst snd].
  destruct (mutate_if_defined mut (condition sp) m2) as [e m3] eqn:He. cbn [fst snd].
  rewrite ScheduleContents_mutate_unfold.
  rewrite (bind_Ok _ _ _ _ _ (deref_Some _ _ _ Hc)). rewrite Hss, Hbs.
  rewrite (bind_Ok _ _ _ _ _ (store_Some _ _ _ _ Hc)).
  set (c1 := set_bounds bs (set_splits ss c)).
  set (σ1 := with_schedules (<[l:=c1]> (schedules σ)) σ).
  assert (Hc1 : schedules σ1 !! l = Some c1) by (simpl; by rewrite lookup_insert_eq).
  assert (Hsp1 : specializations c1 = sp :: rest) by done.
  rewrite Hsp. cbn [length seq for_each].
  eexists _, _. split.
  { apply bind_Fatal, bind_Fatal.
    rewrite (bind_Ok _ _ _ _ _ (deref_Some _ _ _ Hc1)). rewrite Hsp1.
    cbn [lookup list_lookup]. rewrite He.
    rewrite (bind_Ok _ _ _ _ _ (store_Some _ _ _ _ Hc1)).
    rewrite Hq. reflexivity. }
  simpl. rewrite lookup_insert_eq. split_and!; try done.
  intros l' Hne. by rewrite !lookup_insert_ne.
Qed.

(** X8: when the assertion of line 53 fails on the first specialization,
    the loops of lines 36-48 and the assignment of line 51 have been
    done: the abort leaves the record with its split factors, its
    bounds and the condition of that specialization rewritten, and
    everything else as it was. *)
Theorem mutate_aborts_after_rewriting l c sp rest fuel m σ :
  schedules σ !! l = Some c → specializations c = sp :: rest → schedule sp = None →
  ∃ σ' c',
    ScheduleContents_mutate mut (S fuel) l m σ =
      Fatal Specialization_schedule_undefined σ' ∧
    schedules σ' !! l = Some c' ∧
    splits c' = (mutate_splits mut (splits c) m).1 ∧
    bounds c' = (mutate_bounds mut (bounds c) (mutate_splits mut (splits c) m).2).1 ∧
    specializations c' =
      {| condition :=
           (mutate_if_defined mut (condition sp)
              (mutate_bounds mut (bounds c) (mutate_splits mut (splits c) m).2).2).1;
         schedule := None |} :: rest ∧
    reduction_domain c' = reduction_domain c ∧
    (∀ l', l' ≠ l → schedules σ' !! l' = schedules σ !! l') ∧
    rdoms σ' = rdoms σ.
Proof. apply ScheduleContents_mutate_undefined_nested. Qed.

End MutateAbort.

(** ** Deep copies *)

Section DeepCopyTheorems.
Context `{Collaborators}.

(** X9: [Schedule::deep_copy] (lines 122-129) with the engine of lines
    74-116 copies the schedule at every level: the records and reduction
    domains that existed before the call are as they were, every record
    nested in the copy and every reduction domain held there is new,
    and the tree below the copy -- values, wrapper names, expressions
    of the reduction domains, conditions and nested trees -- is the tree
    below the source, which has no missing part. *)
Theorem deep_copy_copies_every_level this src fuel cm σ :
  wf σ → contents this = Some src → is_Some (schedules σ !! src) →
  enough_fuel σ src fuel →
  ∃ d cm' σ',
    Schedule_deep_copy fuel this cm σ = Ok ({| contents := Some d |}, cm') σ' ∧
    (∀ l, (l < next_schedule σ)%positive → schedules σ' !! l = schedules σ !! l) ∧
    (∀ r, (r < next_rdom σ)%positive → rdoms σ' !! r = rdoms σ !! r) ∧
    (∀ l', nested σ' d l' → schedules σ !! l' = None ∧ is_Some (schedules σ' !! l')) ∧
    (∀ r, holds_rdom σ' d r → rdoms σ !! r = None ∧ is_Some (rdoms σ' !! r)) ∧
    (∀ f1 f2, enough_fuel σ src f1 → enough_fuel σ' d f2 →
       tree_of f2 σ' d = tree_of f1 σ src ∧ complete (tree_of f1 σ src) = true).
Proof.
  intros Hwf Hthis Hsrc Hfuel.
  destruct (Schedule_deep_copy_tree fuel this cm σ src Hwf Hthis Hsrc Hfuel)
    as (d & cm' & σ' & Hrun & Hwf' & Hext & Hd & (s & c' & Hs & Hc' & _) &
        Htree & Hfresh & _).
  exists d, cm', σ'. split; [done|]. split_and!.
  - apply (ext_schedules _ _ Hext).
  - apply (ext_rdoms _ _ Hext).
  - intros l' Hn. pose proof (nested_le _ _ _ Hwf' Hn) as Hle. split.
    + destruct (schedules σ !! l') eqn:Hl'; [|done].
      pose proof (wf_alloc _ Hwf l' (ex_intro _ _ Hl')). lia.
    + eapply nested_alloc; eauto.
  - intros r Hh. pose proof (Hfresh r Hh) as Hle. split.
    + destruct (rdoms σ !! r) eqn:Hr; [|done].
      pose proof (wf_rdom_alloc _ Hwf r (ex_intro _ _ Hr)). lia.
    + destruct Hh as (l' & c & _ & Hc & Hr). by eapply wf_rdom.
  - intros f1 f2 Hf1 Hf2. split; [by apply Htree|by apply tree_of_complete].
Qed.

(** X10: a traversal does not tell the copy from the source: an observing
    mutator records over the copy what it records over the source, and
    [accept] on the copy returns what it returns on the source, or is
    undefined as it is on the source. *)
Theorem deep_copy_is_traversed_alike this src fuel cm σ :
  wf σ → contents this = Some src → is_Some (schedules σ !! src) →
  enough_fuel σ src fuel →
  ∃ d cm' σ',
    Schedule_deep_copy fuel this cm σ = Ok ({| contents := Some d |}, cm') σ' ∧
    (∀ (M : Type) (g : M → Expr → M) m f1 f2,
       enough_fuel σ src f1 → enough_fuel σ' d f2 →
       ∃ m', Schedule_mutate (observer g) f1 this m σ = Ok m' σ ∧
             Schedule_mutate (observer g) f2 {| contents := Some d |} m σ' = Ok m' σ') ∧
    (∀ (V : Type) (visit : IRNode → V → V) v,
       (∀ v', Schedule_accept visit this v σ = Ok v' σ →
          Schedule_accept visit {| contents := Some d |} v σ' = Ok v' σ') ∧
       (Schedule_accept visit this v σ = Undefined →
          Schedule_accept visit {| contents := Some d |} v σ' = Undefined)).
Proof.
  intros Hwf Hthis Hsrc Hfuel.
  destruct (Schedule_deep_copy_tree fuel this cm σ src Hwf Hthis Hsrc Hfuel)
    as (d & cm' & σ' & Hrun & Hwf' & Hext & Hd & (s & c' & Hs & Hc' & Hcp) &
        Htree & _).
  exists d, cm', σ'. split; [done|]. split.
  - intros M g m f1 f2 Hf1 Hf2. exists (foldl g m (visit_order f1 σ src)).
    unfold Schedule_mutate. rewrite Hthis. simpl. split.
    + by apply ScheduleContents_mutate_observer.
    + rewrite ScheduleContents_mutate_observer by eauto.
      by rewrite !visit_order_tree, (Htree f1 f2).
  - intros V visit v.
    rewrite (Schedule_accept_spec visit this src s v σ Hthis Hs).
    rewrite (Schedule_accept_spec visit {| contents := Some d |} d c' v σ' eq_refl Hc').
    assert (Hconds : map condition (specializations c') = map condition (specializations s)).
    { symmetry. apply list_eq_Forall2, Forall2_fmap.
      eapply Forall2_impl; [apply (cp_specializations _ _ _ _ _ Hcp)|].
      intros sp sp' [Hc _]. done. }
    assert (Horder : accept_order c' = accept_order s).
    { unfold accept_order.
      by rewrite (cp_splits _ _ _ _ _ Hcp), (cp_bounds _ _ _ _ _ Hcp), Hconds. }
    assert (Hall : Forall (λ sp, is_Some (condition sp)) (specializations c') ↔
                   Forall (λ sp, is_Some (condition sp)) (specializations s)).
    { rewrite <- (Forall_fmap condition is_Some (specializations c')),
        <- (Forall_fmap condition is_Some (specializations s)).
      change (condition <$> specializations c') with (map condition (specializations c')).
      change (condition <$> specializations s) with (map condition (specializations s)).
      by rewrite Hconds. }
    rewrite Horder. split.
    + intros v'. do 2 case_decide; try done; [congruence|tauto].
    + do 2 case_decide; try done. tauto.
Qed.

(** X11: the copy and the source are apart under [mutate]: a pass over the
    copy changes no record and no reduction domain that existed before
    the copy was made, and a pass over the source changes no record
    nested in the copy and no reduction domain held there. *)
Theorem deep_copy_is_apart_under_mutate {M : Type} (mut : Expr → M → Expr * M)
    this src fuel cm σ :
  wf σ → contents this = Some src → is_Some (schedules σ !! src) →
  enough_fuel σ src fuel →
  ∃ d cm' σ',
    Schedule_deep_copy fuel this cm σ = Ok ({| contents := Some d |}, cm') σ' ∧
    (∀ f m, enough_fuel σ' d f →
       ∃ m' σ'', Schedule_mutate mut f {| contents := Some d |} m σ' = Ok m' σ'' ∧
         (∀ l, (l < next_schedule σ)%positive → schedules σ'' !! l = schedules σ !! l) ∧
         (∀ r, (r < next_rdom σ)%positive → rdoms σ'' !! r = rdoms σ !! r)) ∧
    (∀ f m, enough_fuel σ' src f →
       ∃ m' σ'', Schedule_mutate mut f this m σ' = Ok m' σ'' ∧
         (∀ l', nested σ' d l' → schedules σ'' !! l' = schedules σ' !! l') ∧
         (∀ r, holds_rdom σ' d r → rdoms σ'' !! r = rdoms σ' !! r)).
Proof.
  intros Hwf Hthis Hsrc Hfuel.
  destruct (Schedule_deep_copy_tree fuel this cm σ src Hwf Hthis Hsrc Hfuel)
    as (d & cm' & σ' & Hrun & Hwf' & Hext & Hd & (s & c' & Hs & Hc' & _) &
        _ & Hfresh & _).
  pose proof (wf_alloc _ Hwf src Hsrc) as Hlt.
  assert (Hsrc' : is_Some (schedules σ' !! src)).
  { rewrite (ext_schedules _ _ Hext) by done. done. }
  exists d, cm', σ'. split; [done|]. split.
  - intros f m Hf. unfold Schedule_mutate. simpl.
    destruct (ScheduleContents_mutate_total mut f d m σ' Hwf' (ex_intro _ _ Hc') Hf)
      as (m' & σ'' & Hm & _).
    destruct (ScheduleContents_mutate_footprint mut f d m σ' m' σ'' Hwf'
                (ex_intro _ _ Hc') Hm) as [Hrec Hrd].
    exists m', σ''. split; [done|]. split.
    + intros l Hl. rewrite Hrec; [by apply (ext_schedules _ _ Hext)|].
      intros Hn. pose proof (nested_le _ _ _ Hwf' Hn). lia.
    + intros r Hr. rewrite Hrd; [by apply (ext_rdoms _ _ Hext)|].
      intros Hh. apply Hfresh in Hh. lia.
  - intros f m Hf. unfold Schedule_mutate. rewrite Hthis. simpl.
    destruct (ScheduleContents_mutate_total mut f src m σ' Hwf' Hsrc' Hf)
      as (m' & σ'' & Hm & _).
    destruct (ScheduleContents_mutate_footprint mut f src m σ' m' σ'' Hwf' Hsrc' Hm)
      as [Hrec Hrd].
    assert (Hclosed : ∀ x c sp q, (x < next_schedule σ)%positive →
              schedules σ !! x = Some c → sp ∈ specializations c →
              schedule sp = Some q → (q < next_schedule σ)%positive).
    { intros x c sp q Hx Hc Hin Hq. eapply (closed_below_next σ Hwf); eauto. }
    exists m', σ''. split; [done|]. split.
    + intros l' Hn. apply Hrec. intros Hn'.
      destruct (nested_agree (λ x, (x < next_schedule σ)%positive) σ σ'
                  (ext_schedules _ _ Hext) Hclosed src l' Hn' Hlt) as [_ Hl'].
      pose proof (nested_le _ _ _ Hwf' Hn). simpl in Hl'. lia.
    + intros r Hh. apply Hrd. intros Hh'.
      apply (holds_rdom_agree (λ x, (x < next_schedule σ)%positive) σ σ'
               (ext_schedules _ _ Hext) Hclosed src r) in Hh'; [|done].
      pose proof (holds_rdom_alloc _ _ _ Hwf Hh').
      pose proof (Hfresh r Hh). lia.
Qed.

(** X12: the copy shares no reduction domain between a record and the
    records nested in it, whatever the source shares: line 89 makes a
    new reduction domain for every record. *)
Theorem deep_copy_unshares_reduction_domains this src fuel cm σ :
  wf σ → contents this = Some src → is_Some (schedules σ !! src) →
  enough_fuel σ src fuel →
  ∃ d cm' σ' c',
    Schedule_deep_copy fuel this cm σ = Ok ({| contents := Some d |}, cm') σ' ∧
    schedules σ' !! d = Some c' ∧
    ∀ r sp q, reduction_domain c' = Some r → sp ∈ specializations c' →
      schedule sp = Some q → ¬ holds_rdom σ' q r.
Proof.
  intros Hwf Hthis Hsrc Hfuel.
  destruct (Schedule_deep_copy_tree fuel this cm σ src Hwf Hthis Hsrc Hfuel)
    as (d & cm' & σ' & Hrun & Hwf' & Hext & Hd & (s & c' & Hs & Hc' & _) &
        _ & _ & Hsep & _).
  exists d, cm', σ', c'. split; [done|]. split; [done|].
  intros r sp q Hr Hin Hq Hh.
  pose proof (Hsep c' r sp q r Hc' Hr Hin Hq Hh). lia.
Qed.

End DeepCopyTheorems.

Section MemoTheorems.
Context `{Collaborators}.

(** X13: two deep copies that pass the memo map on share the clones of the
    stages (lines 97-105, with the memo map taken by reference at lines
    122-129): when the stage-level primitive returns defined clones and
    keeps the memo entries that hold one, after each copy every wrapper
    of the copy and the memo entry of the stage that the source wraps
    under that name hold one and the same clone, and the second copy
    keeps the clones that the memo map held; so two wrappers on one
    stage, one in each source, get one clone. *)
Theorem deep_copies_share_clones this1 this2 src1 src2 s1 s2 fuel1 cm σ :
  (∀ f cm fs, is_Some (deep_copy_function_contents_helper f cm fs).1.1) →
  (∀ f cm fs g c, cm !! g = Some (Some c) →
     (deep_copy_function_contents_helper f cm fs).1.2 !! g = Some (Some c)) →
  wf σ → contents this1 = Some src1 → contents this2 = Some src2 →
  schedules σ !! src1 = Some s1 → schedules σ !! src2 = Some s2 →
  enough_fuel σ src1 fuel1 →
  ∃ d1 cm1 σ1 c1,
    Schedule_deep_copy fuel1 this1 cm σ = Ok ({| contents := Some d1 |}, cm1) σ1 ∧
    schedules σ1 !! d1 = Some c1 ∧
    (∀ k T, wrappers s1 !! k = Some T → shares (wrappers c1) cm1 k T) ∧
    ∀ fuel2, enough_fuel σ1 src2 fuel2 →
      ∃ d2 cm2 σ2 c2,
        Schedule_deep_copy fuel2 this2 cm1 σ1 =
          Ok ({| contents := Some d2 |}, cm2) σ2 ∧
        schedules σ2 !! d2 = Some c2 ∧
        schedules σ2 !! d1 = Some c1 ∧ d1 ≠ d2 ∧
        (∀ k T, wrappers s2 !! k = Some T → shares (wrappers c2) cm2 k T) ∧
        (∀ T clone, cm1 !! T = Some (Some clone) → cm2 !! T = Some (Some clone)) ∧
        (∀ a b T, wrappers s1 !! a = Some T → wrappers s2 !! b = Some T →
           ∃ clone, wrappers c1 !! a = Some (Some clone) ∧
                    wrappers c2 !! b = Some (Some clone)).
Proof.
  intros Hdef Hstable Hwf Hthis1 Hthis2 Hs1 Hs2 Hfuel1.
  assert (Hshares : ∀ this src s fuel cm σ,
    wf σ → contents this = Some src → schedules σ !! src = Some s →
    enough_fuel σ src fuel →
    ∃ d cm' σ' c',
      Schedule_deep_copy fuel this cm σ = Ok ({| contents := Some d |}, cm') σ' ∧
      wf σ' ∧ extends σ σ' ∧ (next_schedule σ < d)%positive ∧
      schedules σ' !! d = Some c' ∧
      (∀ k T, wrappers s !! k = Some T → shares (wrappers c') cm' k T) ∧
      (∀ T clone, cm !! T = Some (Some clone) → cm' !! T = Some (Some clone))).
  { clear - Hdef Hstable. intros this src s fuel cm σ Hwf Hthis Hs Hfuel.
    destruct (Schedule_deep_copy_tree fuel this cm σ src Hwf Hthis
                (ex_intro _ _ Hs) Hfuel)
      as (d & cm' & σ' & Hrun & Hwf' & Hext & Hd & (s0 & c' & Hs0 & Hc' & Hcp) &
          _ & _ & _ & HI).
    rewrite Hs in Hs0. injection Hs0 as <-.
    exists d, cm', σ', c'. split_and!; try done.
    - intros k T Hk.
      destruct (copy_wrappers_shares (wrappers s) cm (stages σ) k T Hdef Hstable Hk)
        as (clone & Hw & Hcm).
      exists clone. split; [by rewrite (cp_wrappers _ _ _ _ _ Hcp)|].
      apply (HI (λ cmx _, cmx !! T = Some (Some clone))).
      + intros l c cmx fsx _ _ _ Hx. by apply copy_wrappers_keeps.
      + intros s0 Hs0. rewrite Hs in Hs0. by injection Hs0 as <-.
    - intros T clone HT.
      apply (HI (λ cmx _, cmx !! T = Some (Some clone))).
      + intros l c cmx fsx _ _ _ Hx. by apply copy_wrappers_keeps.
      + intros s0 _. by apply copy_wrappers_keeps. }
  destruct (Hshares this1 src1 s1 fuel1 cm σ Hwf Hthis1 Hs1 Hfuel1)
    as (d1 & cm1 & σ1 & c1 & Hrun1 & Hwf1 & Hext1 & Hd1 & Hc1 & Hsh1 & _).
  exists d1, cm1, σ1, c1. split; [done|]. split; [done|]. split; [done|].
  intros fuel2 Hfuel2.
  pose proof (wf_alloc _ Hwf src2 (ex_intro _ _ Hs2)) as Hlt2.
  assert (Hs2' : schedules σ1 !! src2 = Some s2).
  { rewrite (ext_schedules _ _ Hext1) by done. done. }
  destruct (Hshares this2 src2 s2 fuel2 cm1 σ1 Hwf1 Hthis2 Hs2' Hfuel2)
    as (d2 & cm2 & σ2 & c2 & Hrun2 & Hwf2 & Hext2 & Hd2 & Hc2 & Hsh2 & Hkeep).
  pose proof (wf_alloc _ Hwf1 d1 (ex_intro _ _ Hc1)) as Hlt1.
  exists d2, cm2, σ2, c2. split_and!; try done.
  - rewrite (ext_schedules _ _ Hext2) by done. done.
  - lia.
  - intros a b T Ha Hb.
    destruct (Hsh1 a T Ha) as (clone & Hwa & Hcm1).
    destruct (Hsh2 b T Hb) as (clone' & Hwb & Hcm2).
    pose proof (Hkeep T clone Hcm1) as Hcm2'.
    exists clone. split; [done|]. congruence.
Qed.

(** X14: when the memo map already holds a clone for the stage of every
    wrapper found below the source, [deep_copy] creates no stage: the
    memo map and the stage store come back as they were, and every
    wrapper of the copy is the clone that the memo map holds for the
    stage of the same name in the source (the branch of lines 99-100). *)
Theorem deep_copy_reuses_known_clones this src s fuel cm σ :
  wf σ → contents this = Some src → schedules σ !! src = Some s →
  enough_fuel σ src fuel →
  (∀ l c k T, nested σ src l → schedules σ !! l = Some c →
     wrappers c !! k = Some T → ∃ C, cm !! T = Some (Some C)) →
  ∃ d σ' c',
    Schedule_deep_copy fuel this cm σ = Ok ({| contents := Some d |}, cm) σ' ∧
    stages σ' = stages σ ∧
    schedules σ' !! d = Some c' ∧
    ∀ k, wrappers c' !! k = wrappers s !! k ≫= (cm !!.).
Proof.
  intros Hwf Hthis Hs Hfuel Hhit.
  destruct (Schedule_deep_copy_tree fuel this cm σ src Hwf Hthis
              (ex_intro _ _ Hs) Hfuel)
    as (d & cm' & σ' & Hrun & Hwf' & Hext & Hd & (s0 & c' & Hs0 & Hc' & Hcp) &
        _ & _ & _ & HI).
  rewrite Hs in Hs0. injection Hs0 as <-.
  destruct (HI (λ cmx fsx, cmx = cm ∧ fsx = stages σ)) as [-> Hst].
  - intros l c cmx fsx Hn _ Hc [-> ->].
    destruct (copy_wrappers_all_hit (wrappers c) cm (stages σ)) as (? & ? & _); [|done].
    intros k T Hk. by eapply Hhit.
  - intros s0 Hs0. rewrite Hs in Hs0. injection Hs0 as <-.
    destruct (copy_wrappers_all_hit (wrappers s) cm (stages σ)) as (? & ? & _); [|done].
    intros k T Hk. eapply Hhit; [constructor|done..].
  - exists d, σ', c'. split; [done|]. split; [done|]. split; [done|].
    rewrite (cp_wrappers _ _ _ _ _ Hcp).
    apply copy_wrappers_all_hit. intros k T Hk. eapply Hhit; [constructor|done..].
Qed.

End MemoTheorems.

Section UndefinedNested.
Context `{Collaborators}.

(** The engine copies an undefined nested handle to an undefined one
    (lines 78-81 under line 113): the record made at line 112 for the
    copy of the specialization is dropped. *)
Lemma deep_copy_undefined_nested_loop fuel d cb cm : ∀ sps done σ,
  Forall (λ sp, schedule sp = None) sps →
  schedules σ !! d = Some (set_specializations done cb) →
  (d < next_schedule σ)%positive →
  ∃ σ',
    for_each (λ cm sp,
        _ ← new_ScheduleContents;
        '(q, cm') ← deep_copy_schedule_contents_helper fuel (schedule sp) cm;
        d0 ← deref (Some d);
        store (Some d)
          (set_specializations
             (specializations d0 ++ [{| condition := condition sp; schedule := q |}]) d0);;
        mret cm') sps cm σ = Ok cm σ' ∧
    schedules σ' !! d = Some (set_specializations (done ++ sps) cb) ∧
    (∀ x, (x < next_schedule σ)%positive → x ≠ d → schedules σ' !! x = schedules σ !! x) ∧
    rdoms σ' = rdoms σ ∧ stages σ' = stages σ ∧ warnings σ' = warnings σ.
Proof.
  induction sps as [|sp sps IH]; intros done σ Hall Hd Hlt.
  - exists σ. split; [done|]. rewrite app_nil_r. done.
  - apply Forall_cons in Hall as [Hsp Hall].
    cbn [for_each]. rewrite Hsp.
    set (t := next_schedule σ).
    set (σt := {| schedules := <[t := ScheduleContents_new]> (schedules σ);
                  next_schedule := Pos.succ t; rdoms := rdoms σ;
                  next_rdom := next_rdom σ; stages := stages σ;
                  warnings := warnings σ |}).
    assert (Hdt : schedules σt !! d = Some (set_specializations done cb)).
    { simpl. rewrite lookup_insert_ne by (unfold t; lia). done. }
    set (cj := set_specializations (done ++ [sp]) cb).
    set (σj := with_schedules (<[d := cj]> (schedules σt)) σt).
    destruct (IH (done ++ [sp]) σj Hall) as (σ' & Hrun & Hd' & Hframe & Hrd & Hst & Hw).
    { simpl. by rewrite lookup_insert_eq. }
    { simpl. unfold t. lia. }
    exists σ'. split.
    + erewrite (bind_Ok _ _ σ cm σj); [exact Hrun|].
      rewrite (bind_Ok new_ScheduleContents _ σ (Some t) σt) by done.
      erewrite (bind_Ok _ _ σt (None, cm) σt); [|by destruct fuel]. cbn beta iota.
      rewrite (bind_Ok _ _ _ _ _ (deref_Some _ _ _ Hdt)).
      rewrite (bind_Ok _ _ _ _ _ (store_Some _ _ _ _ Hdt)).
      unfold σj, cj. simpl. do 3 f_equal. by destruct sp; simpl in *; subst.
    + rewrite <- (assoc_L (++)) in Hd'. split_and!; try done.
      intros x Hx Hne. rewrite Hframe; [|simpl; unfold t; lia|done].
      simpl. rewrite !lookup_insert_ne by (unfold t; lia). done.
Qed.

(** X15: where the specializations of a record have undefined nested
    schedules, the deep copy has the same specializations, undefined
    nested schedules included; [mutate] on the copy then fails the
    assertion of line 53 as it does on the source. *)
Theorem deep_copy_keeps_undefined_nested_schedules src s sp rest fuel cm σ :
  schedules σ !! src = Some s → (src < next_schedule σ)%positive →
  specializations s = sp :: rest →
  Forall (λ sp, schedule sp = None) (specializations s) →
  reduction_domain s = None →
  ∃ cm' σ' c',
    deep_copy_schedule_contents_helper (S fuel) (Some src) cm σ =
      Ok (Some (next_schedule σ), cm') σ' ∧
    schedules σ' !! next_schedule σ = Some c' ∧
    specializations c' = specializations s ∧
    schedules σ' !! src = Some s ∧
    ∀ (M : Type) (mut : Expr → M → Expr * M) f m,
      (∃ σ'', ScheduleContents_mutate mut (S f) src m σ' =
                Fatal Specialization_schedule_undefined σ'') ∧
      (∃ σ'', ScheduleContents_mutate mut (S f) (next_schedule σ) m σ' =
                Fatal Specialization_schedule_undefined σ'').
Proof.
  intros Hs Hlt Hsps Hall Hrd.
  rewrite deep_copy_schedule_contents_helper_unfold.
  set (d := next_schedule σ).
  set (σ1 := {| schedules := <[d := ScheduleContents_new]> (schedules σ);
                next_schedule := Pos.succ d; rdoms := rdoms σ;
                next_rdom := next_rdom σ; stages := stages σ;
                warnings := warnings σ |}).
  rewrite (bind_Ok new_ScheduleContents _ σ (Some d) σ1) by done.
  assert (Hs1 : schedules σ1 !! src = Some s).
  { simpl. rewrite lookup_insert_ne by (unfold d; lia). done. }
  rewrite (bind_Ok _ _ _ _ _ (deref_Some _ _ _ Hs1)).
  rewrite Hrd. cbn [ReductionDomain_deep_copy].
  erewrite (bind_Ok _ _ σ1 None σ1); [|done].
  assert (Hd1 : schedules σ1 !! d = Some ScheduleContents_new)
    by (simpl; by rewrite lookup_insert_eq).
  rewrite (bind_Ok _ _ _ _ _ (deref_Some _ _ _ Hd1)).
  rewrite (bind_Ok _ _ _ _ _ (store_Some _ _ _ _ Hd1)).
  set (c3 := assign_fields _ _ _).
  set (σ3 := with_schedules (<[d:=c3]> (schedules σ1)) σ1).
  unfold get_store at 1. rewrite (bind_Ok _ _ σ3 σ3 σ3) by done.
  destruct (copy_wrappers (wrappers s) cm (stages σ3)) as [[w cm1] fs] eqn:Hcw.
  assert (Hd3 : schedules σ3 !! d = Some c3) by (simpl; by rewrite lookup_insert_eq).
  rewrite (bind_Ok _ _ _ _ _ (deref_Some _ _ _ Hd3)).
  rewrite (bind_Ok _ _ σ3 tt (with_stages fs σ3)) by done.
  rewrite (bind_Ok _ _ _ _ _ (store_Some d _ c3 (with_stages fs σ3) Hd3)).
  set (cb := set_wrappers w c3).
  set (σ4 := with_schedules (<[d:=cb]> (schedules (with_stages fs σ3))) (with_stages fs σ3)).
  assert (Hsize : size w = size (wrappers s)).
  { pose proof (copy_wrappers_size (wrappers s) cm (stages σ3)) as Hsz.
    by rewrite Hcw in Hsz. }
  rewrite bool_decide_eq_true_2 by done. unfold internal_assert.
  rewrite (bind_Ok _ _ σ4 tt σ4) by done.
  assert (Hd4 : schedules σ4 !! d = Some (set_specializations [] cb))
    by (simpl; by rewrite lookup_insert_eq).
  assert (Hs4 : schedules σ4 !! src = Some s).
  { simpl. rewrite !lookup_insert_ne by (unfold d; lia). done. }
  assert (Hnext4 : next_schedule σ4 = Pos.succ d) by done.
  clearbody σ4 cb. clear Hd3 Hcw σ3 c3.
  destruct (deep_copy_undefined_nested_loop fuel d cb cm1 (specializations s) [] σ4 Hall Hd4)
    as (σ' & Hloop & Hd' & Hframe & _); [lia|].
  rewrite (bind_Ok _ _ _ _ _ Hloop). simpl in Hd'.
  assert (Hs' : schedules σ' !! src = Some s).
  { rewrite Hframe; [done|lia|unfold d; lia]. }
  assert (Hsp : schedule sp = None).
  { apply Forall_forall with (x := sp) in Hall; [done|].
    rewrite Hsps. apply elem_of_cons. by left. }
  eexists _, _, _. split; [reflexivity|]. split; [exact Hd'|]. split; [done|].
  split; [done|]. intros M mut f m. split.
  - destruct (ScheduleContents_mutate_undefined_nested mut src s sp rest f m σ' Hs' Hsps Hsp)
      as (σ'' & ? & Hm & _). eauto.
  - destruct (ScheduleContents_mutate_undefined_nested mut d
                (set_specializations (specializations s) cb) sp rest f m σ' Hd')
      as (σ'' & ? & Hm & _); [done|done|eauto].
Qed.

End UndefinedNested.

(** ** The properties on the example *)

Section Witnesses.
#[local] Existing Instance Demo.collaborators.
Import Demo.

Lemma domain_store_wf : wf domain_store.
Proof.
  apply reachable_wf.
  eapply (reachable_run_all domain_calls (@initial_store collaborators 1%positive)).
  - apply reachable_initial.
  - vm_compute. reflexivity.
Qed.

Lemma specialized_domain_store_wf : wf specialized_domain_store.
Proof.
  apply reachable_wf.
  eapply (reachable_run_all (domain_calls ++ [Call_add_specialization base p_is_1])
            (@initial_store collaborators 1%positive)).
  - apply reachable_initial.
  - vm_compute. reflexivity.
Qed.

Lemma domain_store_record :
  ∃ c, schedules domain_store !! 1%positive = Some c ∧
       specializations c = [] ∧ reduction_domain c = Some 1%positive.
Proof. eexists. split_and!; vm_compute; reflexivity. Qed.

Lemma example_specialization :
  ∃ c sp, schedules example_store !! 1%positive = Some c ∧
          sp ∈ specializations c ∧ schedule sp = Some 2%positive.
Proof.
  eexists _, _. split; [vm_compute; reflexivity|].
  split; [simpl; apply elem_of_cons; left; reflexivity|reflexivity].
Qed.

Lemma example_specialized_allocated : is_Some (schedules example_store !! 2%positive).
Proof. vm_compute. eauto. Qed.

Lemma example_specialized_enough_fuel : enough_fuel example_store 2%positive 1.
Proof. vm_compute. lia. Qed.

Lemma mutate_changes_only_what_is_nested_witness :
  ∃ m' σ', ScheduleContents_mutate recording_mutate 1 2%positive [] example_store = Ok m' σ' ∧
    (∀ l', ¬ nested example_store 2%positive l' →
       schedules σ' !! l' = schedules example_store !! l') ∧
    (∀ r, ¬ holds_rdom example_store 2%positive r →
       rdoms σ' !! r = rdoms example_store !! r) ∧
    (∀ l', is_Some (schedules σ' !! l') ↔ is_Some (schedules example_store !! l')) ∧
    (∀ r, is_Some (rdoms σ' !! r) ↔ is_Some (rdoms example_store !! r)) ∧
    next_schedule σ' = next_schedule example_store ∧
    next_rdom σ' = next_rdom example_store ∧
    stages σ' = stages example_store ∧ warnings σ' = warnings example_store.
Proof.
  apply (mutate_changes_only_what_is_nested recording_mutate example_store 2%positive 1 []).
  - exact example_store_wf.
  - exact example_specialized_allocated.
  - exact example_specialized_enough_fuel.
Defined.

Lemma deep_copy_copies_every_level_witness :
  ∃ d cm' σ',
    Schedule_deep_copy 2 base ∅ example_store = Ok ({| contents := Some d |}, cm') σ' ∧
    (∀ l, (l < next_schedule example_store)%positive →
       schedules σ' !! l = schedules example_store !! l) ∧
    (∀ r, (r < next_rdom example_store)%positive →
       rdoms σ' !! r = rdoms example_store !! r) ∧
    (∀ l', nested σ' d l' →
       schedules example_store !! l' = None ∧ is_Some (schedules σ' !! l')) ∧
    (∀ r, holds_rdom σ' d r →
       rdoms example_store !! r = None ∧ is_Some (rdoms σ' !! r)) ∧
    (∀ f1 f2, enough_fuel example_store 1%positive f1 → enough_fuel σ' d f2 →
       tree_of f2 σ' d = tree_of f1 example_store 1%positive ∧
       complete (tree_of f1 example_store 1%positive) = true).
Proof.
  apply (deep_copy_copies_every_level base 1%positive 2 ∅ example_store).
  - exact example_store_wf.
  - reflexivity.
  - exact example_base_allocated.
  - exact example_enough_fuel.
Defined.

Lemma deep_copy_is_traversed_alike_witness :
  ∃ d cm' σ',
    Schedule_deep_copy 2 base ∅ example_store = Ok ({| contents := Some d |}, cm') σ' ∧
    (∀ (M : Type) (g : M → Expr → M) m f1 f2,
       enough_fuel example_store 1%positive f1 → enough_fuel σ' d f2 →
       ∃ m', Schedule_mutate (observer g) f1 base m example_store = Ok m' example_store ∧
             Schedule_mutate (observer g) f2 {| contents := Some d |} m σ' = Ok m' σ') ∧
    (∀ (V : Type) (visit : Node → V → V) v,
       (∀ v', Schedule_accept visit base v example_store = Ok v' example_store →
          Schedule_accept visit {| contents := Some d |} v σ' = Ok v' σ') ∧
       (Schedule_accept visit base v example_store = Undefined →
          Schedule_accept visit {| contents := Some d |} v σ' = Undefined)).
Proof.
  apply (deep_copy_is_traversed_alike base 1%positive 2 ∅ example_store).
  - exact example_store_wf.
  - reflexivity.
  - exact example_base_allocated.
  - exact example_enough_fuel.
Defined.

Lemma deep_copy_is_apart_under_mutate_witness :
  ∃ d cm' σ',
    Schedule_deep_copy 2 base ∅ example_store = Ok ({| contents := Some d |}, cm') σ' ∧
    (∀ f m, enough_fuel σ' d f →
       ∃ m' σ'', Schedule_mutate increment f {| contents := Some d |} m σ' = Ok m' σ'' ∧
         (∀ l, (l < next_schedule example_store)%positive →
            schedules σ'' !! l = schedules example_store !! l) ∧
         (∀ r, (r < next_rdom example_store)%positive →
            rdoms σ'' !! r = rdoms example_store !! r)) ∧
    (∀ f m, enough_fuel σ' 1%positive f →
       ∃ m' σ'', Schedule_mutate increment f base m σ' = Ok m' σ'' ∧
         (∀ l', nested σ' d l' → schedules σ'' !! l' = schedules σ' !! l') ∧
         (∀ r, holds_rdom σ' d r → rdoms σ'' !! r = rdoms σ' !! r)).
Proof.
  apply (deep_copy_is_apart_under_mutate increment base 1%positive 2 ∅ example_store).
  - exact example_store_wf.
  - reflexivity.
  - exact example_base_allocated.
  - exact example_enough_fuel.
Defined.

Lemma deep_copy_unshares_reduction_domains_witness :
  ∃ d cm' σ' c',
    Schedule_deep_copy 2 base ∅ specialized_domain_store =
      Ok ({| contents := Some d |}, cm') σ' ∧
    schedules σ' !! d = Some c' ∧
    ∀ r sp q, reduction_domain c' = Some r → sp ∈ specializations c' →
      schedule sp = Some q → ¬ holds_rdom σ' q r.
Proof.
  apply (deep_copy_unshares_reduction_domains base 1%positive 2 ∅ specialized_domain_store).
  - exact specialized_domain_store_wf.
  - reflexivity.
  - vm_compute. eauto.
  - vm_compute. lia.
Defined.

Lemma deep_copies_share_clones_witness :
  ∃ s, schedules example_store !! 1%positive = Some s ∧
  ∃ d1 cm1 σ1 c1,
    Schedule_deep_copy 2 base ∅ example_store = Ok ({| contents := Some d1 |}, cm1) σ1 ∧
    schedules σ1 !! d1 = Some c1 ∧
    (∀ k T, wrappers s !! k = Some T → shares (wrappers c1) cm1 k T) ∧
    ∀ fuel2, enough_fuel σ1 1%positive fuel2 →
      ∃ d2 cm2 σ2 c2,
        Schedule_deep_copy fuel2 base cm1 σ1 = Ok ({| contents := Some d2 |}, cm2) σ2 ∧
        schedules σ2 !! d2 = Some c2 ∧
        schedules σ2 !! d1 = Some c1 ∧ d1 ≠ d2 ∧
        (∀ k T, wrappers s !! k = Some T → shares (wrappers c2) cm2 k T) ∧
        (∀ T clone, cm1 !! T = Some (Some clone) → cm2 !! T = Some (Some clone)) ∧
        (∀ a b T, wrappers s !! a = Some T → wrappers s !! b = Some T →
           ∃ clone, wrappers c1 !! a = Some (Some clone) ∧
                    wrappers c2 !! b = Some (Some clone)).
Proof.
  destruct example_wrappers as (s & Hs & _). exists s. split; [exact Hs|].
  apply (deep_copies_share_clones base base 1%positive 1%positive s s 2 ∅ example_store).
  - intros f cm fs. simpl. eauto.
  - intros f cm fs g c Hg. exact Hg.
  - exact example_store_wf.
  - reflexivity.
  - reflexivity.
  - exact Hs.
  - exact Hs.
  - exact example_enough_fuel.
Defined.

Lemma example_known_clones :
  map_Forall (λ _ c, map_Forall (λ _ T, known_clones !! T = Some (Some 9%positive))
                       (wrappers c)) (schedules example_store).
Proof. refine (bool_decide_unpack _ _). vm_compute. exact I. Qed.

Lemma deep_copy_reuses_known_clones_witness :
  ∃ s, schedules example_store !! 1%positive = Some s ∧
  ∃ d σ' c',
    Schedule_deep_copy 2 base known_clones example_store =
      Ok ({| contents := Some d |}, known_clones) σ' ∧
    stages σ' = stages example_store ∧
    schedules σ' !! d = Some c' ∧
    ∀ k, wrappers c' !! k = wrappers s !! k ≫= (known_clones !!.).
Proof.
  destruct example_wrappers as (s & Hs & _). exists s. split; [exact Hs|].
  apply (deep_copy_reuses_known_clones base 1%positive s 2 known_clones example_store).
  - exact example_store_wf.
  - reflexivity.
  - exact Hs.
  - exact example_enough_fuel.
  - intros l c k T _ Hc Hk. exists 9%positive.
    exact (example_known_clones l c Hc k T Hk).
Defined.

Lemma accessors_read_what_was_assigned_witness :
  ∃ c, schedules example_store !! 1%positive = Some c ∧
  (∀ a, ∃ σ', assign (setter_update a) base example_store = Ok tt σ' ∧
     reads a (Schedule_copy base) σ' ∧
     (∀ b, same_member a b = false → reads b (Schedule_copy base) example_store →
        reads b (Schedule_copy base) σ') ∧
     Schedule_specializations (Schedule_copy base) σ' = Ok (specializations c) σ' ∧
     Schedule_wrappers (Schedule_copy base) σ' = Ok (wrappers c) σ' ∧
     Schedule_reduction_domain (Schedule_copy base) σ' = Ok (reduction_domain c) σ' ∧
     (∀ l', l' ≠ 1%positive → schedules σ' !! l' = schedules example_store !! l') ∧
     rdoms σ' = rdoms example_store ∧ warnings σ' = warnings example_store) ∧
  (∀ d, ∃ σ', Schedule_set_reduction_domain base d example_store = Ok tt σ' ∧
     Schedule_reduction_domain (Schedule_copy base) σ' = Ok d σ' ∧
     (∀ b, reads b (Schedule_copy base) example_store → reads b (Schedule_copy base) σ') ∧
     Schedule_specializations (Schedule_copy base) σ' = Ok (specializations c) σ' ∧
     Schedule_wrappers (Schedule_copy base) σ' = Ok (wrappers c) σ' ∧
     (∀ l', l' ≠ 1%positive → schedules σ' !! l' = schedules example_store !! l') ∧
     rdoms σ' = rdoms example_store ∧ warnings σ' = warnings example_store).
Proof.
  destruct example_base_record as (c & Hc & _). exists c. split; [exact Hc|].
  apply (accessors_read_what_was_assigned base (Schedule_copy base) 1%positive c
           example_store).
  - reflexivity.
  - reflexivity.
  - exact Hc.
Defined.

Lemma accept_visits_part_of_the_mutate_traversal_witness :
  ∃ c, schedules example_store !! 1%positive = Some c ∧
  (∀ (V : Type) (visit : Node → V → V) v,
     Schedule_accept visit base v example_store =
       Ok (foldl (λ v n, visit n v) v (accept_order c)) example_store) ∧
  (∀ (M : Type) (g : M → Expr → M) m,
     Schedule_mutate (observer g) 2 base m example_store =
       Ok (foldl g m (visit_order 2 example_store 1%positive)) example_store) ∧
  (Some <$> accept_order c) `sublist_of` visit_order 2 example_store 1%positive ∧
  (specializations c = [] → reduction_domain c = None →
     visit_order 2 example_store 1%positive = Some <$> accept_order c).
Proof.
  destruct example_base_record as (c & Hc & Hall). exists c. split; [exact Hc|].
  apply (accept_visits_part_of_the_mutate_traversal base 1%positive c 2 example_store).
  - exact example_store_wf.
  - reflexivity.
  - exact Hc.
  - exact Hall.
  - exact example_enough_fuel.
Defined.

Lemma mutate_aborts_after_rewriting_witness :
  ∃ σ' c',
    ScheduleContents_mutate recording_mutate 1 1%positive [] broken_store =
      Fatal Specialization_schedule_undefined σ' ∧
    schedules σ' !! 1%positive = Some c' ∧
    splits c' = (mutate_splits recording_mutate (splits broken_record) []).1 ∧
    bounds c' =
      (mutate_bounds recording_mutate (bounds broken_record)
         (mutate_splits recording_mutate (splits broken_record) []).2).1 ∧
    specializations c' =
      {| condition :=
           (mutate_if_defined recording_mutate p_is_1
              (mutate_bounds recording_mutate (bounds broken_record)
                 (mutate_splits recording_mutate (splits broken_record) []).2).2).1;
         schedule := None |} :: [] ∧
    reduction_domain c' = reduction_domain broken_record ∧
    (∀ l', l' ≠ 1%positive → schedules σ' !! l' = schedules broken_store !! l') ∧
    rdoms σ' = rdoms broken_store.
Proof.
  apply (mutate_aborts_after_rewriting recording_mutate 1%positive broken_record
           {| condition := p_is_1; schedule := None |} [] 0 [] broken_store).
  - vm_compute. reflexivity.
  - reflexivity.
  - reflexivity.
Defined.

Lemma specializations_keep_the_order_of_the_calls_witness :
  ∃ c, schedules example_store !! 1%positive = Some c ∧
  ∃ σ', add_specializations base [p_is_1; None] example_store = Ok tt σ' ∧
    schedules σ' !! 1%positive =
      Some (set_specializations
              (specializations c ++
                 imap (λ i cond, {| condition := cond;
                                    schedule := Some (nth_fresh example_store i) |})
                   [p_is_1; None]) c) ∧
    (∀ i, i < length [p_is_1; None] →
       schedules σ' !! nth_fresh example_store i =
         Some (assign_fields c (reduction_domain c) ScheduleContents_new)) ∧
    (∀ x, x ≠ 1%positive → (x < next_schedule example_store)%positive →
       schedules σ' !! x = schedules example_store !! x) ∧
    next_schedule σ' = nth_fresh example_store (length [p_is_1; None]) ∧
    rdoms σ' = rdoms example_store ∧ wf σ'.
Proof.
  destruct example_base_record as (c & Hc & _). exists c. split; [exact Hc|].
  apply (specializations_keep_the_order_of_the_calls base 1%positive [p_is_1; None]
           c example_store).
  - exact example_store_wf.
  - reflexivity.
  - exact Hc.
Defined.

Lemma specialization_shares_the_reduction_domain_witness :
  ∃ p σ1 n,
    Schedule_add_specialization base p_is_1 domain_store =
      Ok {| condition := p_is_1; schedule := Some p |} σ1 ∧
    schedules σ1 !! p = Some n ∧ reduction_domain n = Some 1%positive ∧
    Schedule_reduction_domain base σ1 = Ok (Some 1%positive) σ1 ∧
    rdoms σ1 = rdoms domain_store ∧
    ∃ m' σ2 ma mb,
      ScheduleContents_mutate increment 2 1%positive tt σ1 = Ok m' σ2 ∧
      rdoms σ2 !! 1%positive =
        Some (mutate_exprs increment
                (mutate_exprs increment [Some (IntImm 3); None] ma).1 mb).1.
Proof.
  destruct domain_store_record as (c & Hc & Hsp & Hr).
  apply (specialization_shares_the_reduction_domain increment base 1%positive c
           1%positive [Some (IntImm 3); None] p_is_1 0 tt domain_store).
  - exact domain_store_wf.
  - reflexivity.
  - exact Hc.
  - exact Hsp.
  - exact Hr.
  - vm_compute. reflexivity.
Defined.

Lemma undefined_schedule_is_checked_by_mutate_and_deep_copy_only_witness :
  (∀ (M : Type) (mut : Expr → M → Expr * M) fuel m,
     Schedule_mutate mut fuel {| contents := None |} m example_store = Ok m example_store) ∧
  (∀ fuel cm, ∃ σ',
     Schedule_deep_copy fuel {| contents := None |} cm example_store =
       Fatal Cannot_deep_copy_undefined_Schedule σ') ∧
  (∀ (V : Type) (visit : Node → V → V) v,
     Schedule_accept visit {| contents := None |} v example_store = Undefined) ∧
  (∀ (A : Type) (field : ScheduleContents → A),
     read field {| contents := None |} example_store = Undefined) ∧
  (∀ upd, assign upd {| contents := None |} example_store = Undefined) ∧
  (∀ d, Schedule_set_reduction_domain {| contents := None |} d example_store = Undefined) ∧
  (∀ cond, Schedule_add_specialization {| contents := None |} cond example_store = Undefined) ∧
  (∀ f wrapper,
     Schedule_add_wrapper {| contents := None |} f wrapper example_store = Undefined).
Proof.
  apply (undefined_schedule_is_checked_by_mutate_and_deep_copy_only
           {| contents := None |} example_store).
  reflexivity.
Defined.

Lemma no_schedule_is_nested_in_itself_witness :
  2%positive ≠ 1%positive ∧ ¬ nested example_store 2%positive 1%positive.
Proof.
  destruct example_specialization as (c & sp & Hc & Hin & Hq).
  apply (no_schedule_is_nested_in_itself example_store 1%positive c sp 2%positive).
  - exact example_store_reachable.
  - exact Hc.
  - exact Hin.
  - exact Hq.
Defined.

Lemma deep_copy_keeps_undefined_nested_schedules_witness :
  ∃ cm' σ' c',
    deep_copy_schedule_contents_helper 1 (Some 1%positive) ∅ broken_store =
      Ok (Some (next_schedule broken_store), cm') σ' ∧
    schedules σ' !! next_schedule broken_store = Some c' ∧
    specializations c' = specializations broken_record ∧
    schedules σ' !! 1%positive = Some broken_record ∧
    ∀ (M : Type) (mut : Expr → M → Expr * M) f m,
      (∃ σ'', ScheduleContents_mutate mut (S f) 1%positive m σ' =
                Fatal Specialization_schedule_undefined σ'') ∧
      (∃ σ'', ScheduleContents_mutate mut (S f) (next_schedule broken_store) m σ' =
                Fatal Specialization_schedule_undefined σ'').
Proof.
  apply (deep_copy_keeps_undefined_nested_schedules 1%positive broken_record
           {| condition := p_is_1; schedule := None |} [] 0 ∅ broken_store).
  - vm_compute. reflexivity.
  - vm_compute. reflexivity.
  - reflexivity.
  - repeat constructor.
  - reflexivity.
Defined.

End Witnesses.

Section Examples.
#[local] Existing Instance Demo.collaborators.
Import Demo.

(** One pass of the incrementing mutator over the schedule with a
    specialization: the immediate 3 of the shared reduction domain
    becomes 5, the split factor 8 of each of the two records becomes 9. *)
Example example_shared_domain :
  ∃ σ' c n,
    ScheduleContents_mutate increment 2 1%positive tt specialized_domain_store = Ok tt σ' ∧
    rdoms σ' !! 1%positive = Some [Some (IntImm 5); None] ∧
    schedules σ' !! 1%positive = Some c ∧ factor <$> splits c = [Some (IntImm 9)] ∧
    schedules σ' !! 2%positive = Some n ∧ factor <$> splits n = [Some (IntImm 9)].
Proof. eexists _, _, _. split_and!; vm_compute; reflexivity. Qed.

(** The same pass over the deep copy of that schedule: the copy and its
    nested record have a reduction domain each, whose immediate becomes
    4, and the reduction domain of the source keeps its 3. *)
Example example_unshared_domain :
  ∃ cm σ1 σ2 c n,
    Schedule_deep_copy 2 base ∅ specialized_domain_store =
      Ok ({| contents := Some 4%positive |}, cm) σ1 ∧
    ScheduleContents_mutate increment 2 4%positive tt σ1 = Ok tt σ2 ∧
    schedules σ2 !! 4%positive = Some c ∧ reduction_domain c = Some 2%positive ∧
    specializations c = [{| condition := p_is_1; schedule := Some 6%positive |}] ∧
    schedules σ2 !! 6%positive = Some n ∧ reduction_domain n = Some 3%positive ∧
    rdoms σ2 !! 2%positive = Some [Some (IntImm 4); None] ∧
    rdoms σ2 !! 3%positive = Some [Some (IntImm 4); None] ∧
    rdoms σ2 !! 1%positive = Some [Some (IntImm 3); None].
Proof. eexists _, _, _, _, _. split_and!; vm_compute; reflexivity. Qed.

(** The tree of the example schedule. *)
Example example_tree :
  ∃ v w, tree_of 2 example_store 1%positive =
           TreeNode v [(p_is_1, TreeNode w [])] ∧
    value_splits v = [split_x] ∧ value_splits w = [split_x; split_y] ∧
    value_wrapper_names v = {[ "a"; "b" ]} ∧ value_wrapper_names w = ∅ ∧
    value_reduction_domain v = Some [Some (IntImm 3); None] ∧
    value_reduction_domain w = None.
Proof. eexists _, _. split_and!; vm_compute; reflexivity. Qed.

End Examples.
